(** * pyKCLCreateLittle: the collision compiler core, embedded and verified

    The development follows the three source modules:
    - [btypes]  (src/btypes.py): byte streams, basic types, [Struct] layout;
    - [bcsv]    (src/bcsv.py):   the BCSV table packer and unpacker;
    - [kcl]     (src/kcl.py):    vectors, the vertex welder, the triangle/cube
                                 overlap test, the octree and the KCL packer.

    Conventions of the embedding.
    - A Python [float] is an IEEE-754 binary64 number: Rocq's primitive
      [float], whose operations are the same correctly rounded ones.
    - A Python [int] is a [Z]; an index into a list and the length of a list
      are [nat] (converted with [Z.of_nat] where they enter arithmetic).
    - An exception is a value: a computation returns an [outcome], which is
      [Ok v], [Raise e], or [OutOfFuel] for the recursions and loops that the
      embedding has to bound.
    - A stream is a record of its bytes, its position and its endianness. *)

From Stdlib Require Import Strings.Byte String Ascii.
From Stdlib Require Import ZArith Bool Lia Floats List.
Import ListNotations.

Set Warnings "-register-all".

Local Open Scope Z_scope.

(* ================================================================== *)
(** * Python run-time model                                            *)
(* ================================================================== *)

Module py.

(** The exceptions the modelled code can raise.  [NotModelled] is not one
    of them: it marks a path that leaves the modelled fragment. *)
Inductive PyError : Type :=
| GeometryOverflowError (msg : string)
| ZeroDivisionError
| ValueError
| OverflowError
| IndexError
| TypeError
| AttributeError
| NameError
| KeyError
| StructError
| NotModelled.

Inductive outcome (A : Type) : Type :=
| Ok (a : A)
| Raise (e : PyError)
| OutOfFuel.

Arguments Ok {A} a.
Arguments Raise {A} e.
Arguments OutOfFuel {A}.

Definition bind {A B} (m : outcome A) (k : A -> outcome B) : outcome B :=
  match m with
  | Ok a => k a
  | Raise e => Raise e
  | OutOfFuel => OutOfFuel
  end.

(** [len(l)] *)
Definition len {A} (l : list A) : Z := Z.of_nat (length l).

(** [l[i]] for a non-negative index. *)
Definition getitem {A} (l : list A) (i : nat) : outcome A :=
  match nth_error l i with
  | Some a => Ok a
  | None => Raise IndexError
  end.

(** [range(a, b)] *)
Definition range (a b : Z) : list Z :=
  map (fun k => a + Z.of_nat k) (seq 0 (Z.to_nat (b - a))).

(** [[f(x) for x in l]] where [f] may raise. *)
Fixpoint mapM {A B} (f : A -> outcome B) (l : list A) : outcome (list B) :=
  match l with
  | [] => Ok []
  | a :: l' =>
      bind (f a) (fun b => bind (mapM f l') (fun bs => Ok (b :: bs)))
  end.

(** [all(f(a, b) for a, b in zip(l1, l2))] on lists of equal length. *)
Section All2.
Context {A B : Type} (f : A -> B -> bool).
Fixpoint all2 (l1 : list A) (l2 : list B) {struct l2} : bool :=
  match l1, l2 with
  | [], [] => true
  | a :: l1', b :: l2' => f a b && all2 l1' l2'
  | _, _ => false
  end.
End All2.

(** ** Floats *)

(** A float that is neither a NaN nor an infinity. *)
Definition is_finite (f : float) : bool :=
  negb (is_nan f) && negb (is_infinity f).

(** The signed integer mantissa of a finite float [(-1)^s * m * 2^e]. *)
Definition signed (s : bool) (m : positive) : Z :=
  if s then Zneg m else Zpos m.

(** [int(f)]: truncation toward zero. *)
Definition int_of_float (f : float) : outcome Z :=
  match Prim2SF f with
  | S754_nan => Raise ValueError
  | S754_infinity _ => Raise OverflowError
  | S754_zero _ => Ok 0
  | S754_finite s m e =>
      let a := Z.shiftl (Zpos m) e in Ok (if s then - a else a)
  end.

(** [math.ceil(f)] *)
Definition ceil (f : float) : outcome Z :=
  match Prim2SF f with
  | S754_nan => Raise ValueError
  | S754_infinity _ => Raise OverflowError
  | S754_zero _ => Ok 0
  | S754_finite s m e => Ok (- Z.shiftl (- signed s m) e)
  end.

(** The float nearest to an integer (ties to even), as Python converts an
    [int] operand of a float operation. *)
Definition of_int (n : Z) : float :=
  SF2Prim (binary_normalize prec emax n 0 false).

(** The largest float is [2^1024 - 2^971]; a real number rounds to a
    finite float when it is below [2^1024 - 2^970]. *)
Definition overflow_threshold : Z := 2 ^ 1024 - 2 ^ 970.

(** The same conversion with Python's [OverflowError] beyond the float
    range. *)
Definition float_of_int (n : Z) : outcome float :=
  if overflow_threshold <=? Z.abs n then Raise OverflowError
  else Ok (of_int n).

(** Python compares a float with an int exactly, without rounding the int.
    [None] when the float is a NaN (every comparison is then false). *)
Definition compare_float_int (f : float) (n : Z) : option comparison :=
  match Prim2SF f with
  | S754_nan => None
  | S754_infinity s => Some (if s then Lt else Gt)
  | S754_zero _ => Some (0 ?= n)
  | S754_finite s m e =>
      if 0 <=? e then Some (signed s m * 2 ^ e ?= n)
      else Some (signed s m ?= n * 2 ^ (- e))
  end.

(** [f >= n] *)
Definition float_ge_int (f : float) (n : Z) : bool :=
  match compare_float_int f n with
  | Some Gt | Some Eq => true
  | _ => false
  end.

(** [f < n] *)
Definition float_lt_int (f : float) (n : Z) : bool :=
  match compare_float_int f n with
  | Some Lt => true
  | _ => false
  end.

(** A number that is an [int] or a [float] according to how it was
    computed. *)
Inductive Number : Type :=
| Int (n : Z)
| Float (f : float).

(** [w/2]: true division, correctly rounded when [w] is an [int]
    ([OverflowError] when the quotient exceeds the float range). *)
Definition halve (w : Number) : outcome float :=
  match w with
  | Int n =>
      if 2 * overflow_threshold <=? Z.abs n then Raise OverflowError
      else Ok (SF2Prim (binary_normalize prec emax n (-1) false))
  | Float f => Ok (f / 2)%float
  end.

(** [max(f, n)] of a float and an int: the int only when strictly larger. *)
Definition max_float_int (f : float) (n : Z) : Number :=
  if float_lt_int f n then Int n else Float f.

(** [math.log] is the platform's: a parameter of the development.  With
    the base 2 of every call in the program its only exception is the
    [ValueError] of a domain error, here [None]. *)
Definition LogFn : Type := Number -> Number -> option float.

Definition math_log (log : LogFn) (a b : Number) : outcome float :=
  match log a b with
  | Some l => Ok l
  | None => Raise ValueError
  end.

(** [a / b] on floats: Python raises where IEEE returns an infinity or NaN. *)
Definition truediv (a b : float) : outcome float :=
  if (b =? 0)%float then Raise ZeroDivisionError else Ok (a / b)%float.

(** [math.sqrt] *)
Definition math_sqrt (a : float) : outcome float :=
  if (a <? 0)%float then Raise ValueError else Ok (sqrt a).

(** [min(a, b, c)] and [max(a, b, c)]: the first extremal argument wins. *)
Definition min3 (a b c : float) : float :=
  let m := if (b <? a)%float then b else a in
  if (c <? m)%float then c else m.

Definition max3 (a b c : float) : float :=
  let m := if (a <? b)%float then b else a in
  if (m <? c)%float then c else m.

(** [min(g)] and [max(g)] over a sequence; empty raises [ValueError]. *)
Definition min_of (l : list float) : outcome float :=
  match l with
  | [] => Raise ValueError
  | a :: l' => Ok (fold_left (fun m b => if (b <? m)%float then b else m) l' a)
  end.

Definition max_of (l : list float) : outcome float :=
  match l with
  | [] => Raise ValueError
  | a :: l' => Ok (fold_left (fun m b => if (m <? b)%float then b else m) l' a)
  end.

End py.

Export py.

Declare Scope outcome_scope.
Notation "x <- m ;; k" := (bind m (fun x => k))
  (at level 61, m at next level, right associativity) : outcome_scope.
Notation "' p <- m ;; k" := (bind m (fun p => k))
  (at level 61, p pattern, m at next level, right associativity) : outcome_scope.
Local Open Scope outcome_scope.

(* ================================================================== *)
(** * btypes: streams, basic types and structures                      *)
(* ================================================================== *)

Module btypes.

(** [LITTLE_ENDIAN = '<'] and [BIG_ENDIAN = '>'] ([NATIVE_ENDIAN] is one of
    the two on any given machine). *)
Inductive Endianess : Type := LITTLE_ENDIAN | BIG_ENDIAN.

(** A [BytesStream] or a [FileStream]: the bytes, the position, and the
    [endianess] attribute of [StreamBase]. *)
Record Stream : Type := mkStream {
  endianess : Endianess;
  data : list byte;
  position : nat
}.

(** A stream freshly opened for writing. *)
Definition new_stream (e : Endianess) : Stream := mkStream e [] 0.

Definition tell (s : Stream) : nat := position s.

Definition seek (s : Stream) (n : nat) : Stream :=
  mkStream (endianess s) (data s) n.

(** [stream.write(bs)]: overwrite at the position, zero-filling a gap and
    extending the stream as needed; writing nothing changes nothing. *)
Definition write (s : Stream) (bs : list byte) : Stream :=
  match bs with
  | [] => s
  | _ =>
      let p := position s in
      mkStream (endianess s)
        (firstn p (data s) ++ repeat x00 (p - length (data s)) ++ bs
           ++ skipn (p + length bs) (data s))
        (p + length bs)
  end.

(** [stream.read(n)]: up to [n] bytes from the position. *)
Definition read (s : Stream) (n : nat) : list byte * Stream :=
  let bs := firstn n (skipn (position s) (data s)) in
  (bs, mkStream (endianess s) (data s) (position s + length bs)).

(** [stream.read()]: everything from the position on. *)
Definition read_all (s : Stream) : list byte * Stream :=
  let bs := skipn (position s) (data s) in
  (bs, mkStream (endianess s) (data s) (position s + length bs)).

(** Stream computations: a result and the stream as it was left, also when
    an exception cut the computation short. *)
Definition IO (A : Type) : Type := Stream -> outcome A * Stream.

Definition ret {A} (a : A) : IO A := fun s => (Ok a, s).

Definition raise {A} (e : PyError) : IO A := fun s => (Raise e, s).

Definition lift {A} (m : outcome A) : IO A := fun s => (m, s).

Definition iobind {A B} (m : IO A) (k : A -> IO B) : IO B :=
  fun s =>
    match m s with
    | (Ok a, s') => k a s'
    | (Raise e, s') => (Raise e, s')
    | (OutOfFuel, s') => (OutOfFuel, s')
    end.

Definition io_tell : IO nat := fun s => (Ok (tell s), s).
Definition io_seek (n : nat) : IO unit := fun s => (Ok tt, seek s n).
Definition io_write (bs : list byte) : IO unit := fun s => (Ok tt, write s bs).
Definition io_read (n : nat) : IO (list byte) :=
  fun s => let '(bs, s') := read s n in (Ok bs, s').
Definition io_read_all : IO (list byte) :=
  fun s => let '(bs, s') := read_all s in (Ok bs, s').
Definition io_endianess : IO Endianess := fun s => (Ok (endianess s), s).

(** [for x in l: f(x)] *)
Fixpoint for_each {A} (f : A -> IO unit) (l : list A) : IO unit :=
  match l with
  | [] => ret tt
  | a :: l' => iobind (f a) (fun _ => for_each f l')
  end.

(** ** Python values that reach the packers *)

Inductive Value : Type :=
| VInt (n : Z)
| VFloat (f : float)
| VObject (attrs : list (string * Value)).

(** [getattr(obj, name)] on the attribute list of an object. *)
Fixpoint lookup {A} (attrs : list (string * A)) (name : string) : option A :=
  match attrs with
  | [] => None
  | (k, v) :: rest => if String.eqb k name then Some v else lookup rest name
  end.

Definition getattr (obj : Value) (name : string) : outcome Value :=
  match obj with
  | VObject attrs =>
      match lookup attrs name with
      | Some v => Ok v
      | None => Raise AttributeError
      end
  | _ => Raise AttributeError
  end.

(** [setattr(obj, name, v)] *)
Fixpoint update {A} (attrs : list (string * A)) (name : string) (v : A)
  : list (string * A) :=
  match attrs with
  | [] => [(name, v)]
  | (k, w) :: rest =>
      if String.eqb k name then (k, v) :: rest else (k, w) :: update rest name v
  end.

(** ** Basic types *)

(** The integer and single-precision formats of [BasicType]; [bool8] and
    [float64] are declared by the module and used nowhere in it. *)
Inductive BasicType : Type :=
| sint8 | uint8 | sint16 | uint16 | sint32 | uint32 | sint64 | uint64
| float32.

(** [struct.calcsize('=' + basic_format)] *)
Definition calcsize (t : BasicType) : nat :=
  match t with
  | sint8 | uint8 => 1
  | sint16 | uint16 => 2
  | sint32 | uint32 | float32 => 4
  | sint64 | uint64 => 8
  end%nat.

Definition is_signed (t : BasicType) : bool :=
  match t with
  | sint8 | sint16 | sint32 | sint64 => true
  | _ => false
  end.

Definition byte_of_Z (n : Z) : byte :=
  match Byte.of_N (Z.to_N (n mod 256)) with
  | Some b => b
  | None => x00
  end.

Definition Z_of_byte (b : byte) : Z := Z.of_N (Byte.to_N b).

(** The [size] low-order bytes of [n], least significant first. *)
Fixpoint le_bytes (size : nat) (n : Z) : list byte :=
  match size with
  | O => []
  | S k => byte_of_Z n :: le_bytes k (n / 256)
  end.

Fixpoint le_value (bs : list byte) : Z :=
  match bs with
  | [] => 0
  | b :: rest => Z_of_byte b + 256 * le_value rest
  end.

Definition order (e : Endianess) (bs : list byte) : list byte :=
  match e with
  | LITTLE_ENDIAN => bs
  | BIG_ENDIAN => rev bs
  end.

(** [struct.pack] of an integer format: [struct.error] out of range. *)
Definition int_bytes (e : Endianess) (t : BasicType) (n : Z)
  : outcome (list byte) :=
  let bits := 8 * Z.of_nat (calcsize t) in
  let lo := if is_signed t then - 2 ^ (bits - 1) else 0 in
  let hi := if is_signed t then 2 ^ (bits - 1) else 2 ^ bits in
  if (lo <=? n) && (n <? hi)
  then Ok (order e (le_bytes (calcsize t) (n mod 2 ^ bits)))
  else Raise StructError.

(** The IEEE-754 binary32 word of a float: rounded to nearest even as the
    C conversion does; [struct.pack] raises [OverflowError] when a finite
    value rounds to an infinity. *)
Definition binary32_word (x : float) : outcome Z :=
  let sign (s : bool) := if s then 2 ^ 31 else 0 in
  let finite s m e :=
    if Zpos (digits2_pos m) =? 24
    then sign s + (e + 150) * 2 ^ 23 + (Zpos m - 2 ^ 23)
    else sign s + Zpos m in
  match Prim2SF x with
  | S754_nan => Ok 0x7FC00000
  | S754_zero s => Ok (sign s)
  | S754_infinity s => Ok (sign s + 0x7F800000)
  | S754_finite s m e =>
      match binary_round 24 128 s m e with
      | S754_finite s' m' e' => Ok (finite s' m' e')
      | S754_zero s' => Ok (sign s')
      | S754_infinity _ => Raise OverflowError
      | S754_nan => Ok 0x7FC00000
      end
  end.

(** [BasicType.pack]'s bytes for a value. *)
Definition basic_bytes (e : Endianess) (t : BasicType) (v : Value)
  : outcome (list byte) :=
  match t, v with
  | float32, VFloat f =>
      w <- binary32_word f ;; Ok (order e (le_bytes 4 w))
  | float32, VInt n =>
      f <- float_of_int n ;;
      w <- binary32_word f ;; Ok (order e (le_bytes 4 w))
  | float32, VObject _ => Raise StructError
  | _, VInt n => int_bytes e t n
  | _, _ => Raise StructError
  end.

(** [BasicType.pack(stream, value)] *)
Definition basic_pack (t : BasicType) (v : Value) : IO unit :=
  fun s =>
    match basic_bytes (endianess s) t v with
    | Ok bs => (Ok tt, write s bs)
    | Raise e => (Raise e, s)
    | OutOfFuel => (OutOfFuel, s)
    end.

(** [BasicType.unpack(stream)] for the integer formats: [struct.error] on a
    short read. *)
Definition int_unpack (t : BasicType) : IO Z :=
  fun s =>
    let '(bs, s') := read s (calcsize t) in
    if Nat.eqb (length bs) (calcsize t) then
      let n := le_value (order (endianess s) bs) in
      let bits := 8 * Z.of_nat (calcsize t) in
      (Ok (if is_signed t && (2 ^ (bits - 1) <=? n) then n - 2 ^ bits else n), s')
    else (Raise StructError, s').

(** ** Structures *)

(** The type of a [Struct] field: a basic type or another [Struct] class,
    given by its [struct_fields] in declaration order. *)
Inductive FieldType : Type :=
| TBasic (t : BasicType)
| TStruct (struct_fields : list (string * FieldType)).

(** [StructMeta.__new__]: [struct_size] accumulates [field.sizeof()] over
    the declared fields (every field type of the fragment has a size). *)
Fixpoint sizeof (t : FieldType) : nat :=
  match t with
  | TBasic b => calcsize b
  | TStruct fields =>
      fold_left Nat.add (map (fun f => sizeof (snd f)) fields) 0%nat
  end.

(** [Struct.pack(stream, struct)]: each field in turn packs its attribute. *)
Fixpoint pack (t : FieldType) (v : Value) : IO unit :=
  match t with
  | TBasic b => basic_pack b v
  | TStruct fields =>
      (fix pack_fields (fs : list (string * FieldType)) : IO unit :=
         match fs with
         | [] => ret tt
         | (name, ft) :: rest =>
             iobind (lift (getattr v name)) (fun a =>
             iobind (pack ft a) (fun _ => pack_fields rest))
         end) fields
  end.

(** [Struct.unpack(stream)] for structures of integer fields. *)
Fixpoint unpack_fields (fs : list (string * BasicType))
  : IO (list (string * Z)) :=
  match fs with
  | [] => ret []
  | (name, t) :: rest =>
      iobind (int_unpack t) (fun n =>
      iobind (unpack_fields rest) (fun obj => ret ((name, n) :: obj)))
  end.

(** [align_length(length, boundary)]: the floor division by a zero
    boundary raises [ZeroDivisionError]. *)
Definition align_length (length boundary : Z) : outcome Z :=
  if (boundary =? 0)%Z then Raise ZeroDivisionError
  else Ok (((length + boundary - 1) / boundary) * boundary)%Z.

(** [align(stream, boundary, padding)]: [stream.tell() % boundary] and
    the [divmod] by [len(padding)] raise [ZeroDivisionError] on a zero. *)
Definition align (boundary : nat) (padding : list byte) : IO unit :=
  fun s =>
    if Nat.eqb boundary 0 then (Raise ZeroDivisionError, s)
    else if Nat.eqb (tell s mod boundary) 0 then (Ok tt, s)
    else
      match padding with
      | [] => (Raise ZeroDivisionError, s)
      | _ =>
          let gap := (boundary - tell s mod boundary)%nat in
          let n := (gap / length padding)%nat in
          let r := (gap mod length padding)%nat in
          (Ok tt, write s (concat (repeat padding n) ++ firstn r padding))
      end.

End btypes.

Declare Scope io_scope.
Delimit Scope io_scope with io.
Notation "x <- m ;; k" := (btypes.iobind m (fun x => k))
  (at level 61, m at next level, right associativity) : io_scope.
Notation "' p <- m ;; k" := (btypes.iobind m (fun p => k))
  (at level 61, p pattern, m at next level, right associativity) : io_scope.

(* ================================================================== *)
(** * bcsv: the BCSV table format                                      *)
(* ================================================================== *)

Module bcsv.

Import btypes.

Definition UINT32 : Z := 0.
Definition FLOAT32 : Z := 2.
Definition SINT32 : Z := 3.
Definition SINT16 : Z := 4.
Definition SINT8 : Z := 5.
Definition STRING : Z := 6.

(** A structure of integer fields, as a [Struct] class. *)
Definition int_struct (fields : list (string * BasicType)) : FieldType :=
  TStruct (map (fun f => (fst f, TBasic (snd f))) fields).

(** An object with integer attributes, as a packable value. *)
Definition int_obj (attrs : list (string * Z)) : Value :=
  VObject (map (fun a => (fst a, VInt (snd a))) attrs).

Module Header.

Definition fields : list (string * BasicType) :=
  [("entry_count", uint32); ("field_count", uint32);
   ("entry_offset", uint32); ("entry_size", uint32)]%string.

Definition struct : FieldType := int_struct fields.

End Header.

(** [calculate_name_hash(name)] *)
Definition calculate_name_hash (name : string) : Z :=
  fold_left (fun h c => Z.land (h * 31 + Z.of_nat (nat_of_ascii c)) 0xFFFFFFFF)
            (list_ascii_of_string name) 0.

Module Field.

(** A field descriptor; [attribute_name] is the attribute of the
    [ObjectList] subclass it was assigned to ([ObjectListDict.__setitem__]). *)
Record t : Type := mk {
  name_hash : Z;
  mask : Z;
  offset : Z;
  shift : Z;
  data_type : Z;
  attribute_name : string
}.

Definition fields : list (string * BasicType) :=
  [("name_hash", uint32); ("mask", uint32); ("offset", uint16);
   ("shift", uint8); ("data_type", uint8)]%string.

Definition struct : FieldType := int_struct fields.

Definition obj (f : t) : Value :=
  int_obj [("name_hash", name_hash f); ("mask", mask f); ("offset", offset f);
           ("shift", shift f); ("data_type", data_type f)]%string.

(** The [data_size] property: [None] for an unknown data type. *)
Definition data_size (f : t) : option Z :=
  if data_type f =? UINT32 then Some 4
  else if data_type f =? FLOAT32 then Some 4
  else if data_type f =? SINT32 then Some 4
  else if data_type f =? SINT16 then Some 2
  else if data_type f =? SINT8 then Some 1
  else if data_type f =? STRING then Some 4
  else None.

(** [Field(data_type, name, offset, mask, shift)] assigned to the class
    attribute [key]. *)
Definition init (key : string) (data_type : Z) (name : string)
    (offset mask shift : Z) : t :=
  mk (calculate_name_hash name) mask offset shift data_type key.

(** [Struct.__eq__] between an unpacked descriptor and a declared one. *)
Definition eqb (a : list (string * Z)) (f : t) : bool :=
  match lookup a "name_hash"%string, lookup a "mask"%string,
        lookup a "offset"%string, lookup a "shift"%string,
        lookup a "data_type"%string with
  | Some h, Some m, Some o, Some s, Some d =>
      (h =? name_hash f) && (m =? mask f) && (o =? offset f) &&
      (s =? shift f) && (d =? data_type f)
  | _, _, _, _, _ => false
  end.

End Field.

(** An entry of an [ObjectList]: an object and its integer attributes (the
    attributes of a [SurfaceType] are ints and a bool). *)
Definition Entry : Type := list (string * Z).

Definition entry_getattr (entry : Entry) (name : string) : outcome Z :=
  match lookup entry name with
  | Some v => Ok v
  | None => Raise AttributeError
  end.

(** [max(field.offset + field.data_size for field in fields)] *)
Fixpoint max_extent (fields : list Field.t) : outcome Z :=
  match fields with
  | [] => Raise ValueError
  | f :: rest =>
      match Field.data_size f with
      | None => Raise TypeError
      | Some size =>
          match rest with
          | [] => Ok (Field.offset f + size)
          | _ => m <- max_extent rest ;;
                 Ok (if Field.offset f + size <? m then m
                     else Field.offset f + size)
          end
      end
  end.

(** The dispatch on [field.data_type] in [ListBase.pack], for an integer
    value.  The string pool is not modelled: a [STRING] field leaves the
    fragment. *)
Definition pack_cell (field : Field.t) (value : Z) : IO unit :=
  if Field.data_type field =? UINT32 then
    (if Field.shift field <? 0 then raise ValueError
     else
       old <- int_unpack uint32 ;;
       _ <- io_seek (Z.to_nat (Field.offset field)) ;;
       basic_pack uint32 (VInt (Z.lor (Z.shiftl value (Field.shift field)) old)))%io
  else if Field.data_type field =? FLOAT32 then basic_pack float32 (VInt value)
  else if Field.data_type field =? SINT32 then basic_pack sint32 (VInt value)
  else if Field.data_type field =? SINT16 then basic_pack sint16 (VInt value)
  else if Field.data_type field =? SINT8 then basic_pack sint8 (VInt value)
  else if Field.data_type field =? STRING then raise NotModelled
  else ret tt.

(** [for field_index, field in enumerate(fields): ...] on the entry block. *)
Fixpoint pack_cells (fields : list Field.t) (entry : Entry) : IO unit :=
  match fields with
  | [] => ret tt
  | field :: rest =>
      (value <- lift (entry_getattr entry (Field.attribute_name field)) ;;
       if Field.offset field <? 0 then raise ValueError
       else
         _ <- io_seek (Z.to_nat (Field.offset field)) ;;
         _ <- pack_cell field value ;;
         pack_cells rest entry)%io
  end.

(** One entry: a zeroed block of [entry_size] bytes, filled field by field,
    then written out. *)
Definition pack_entry (fields : list Field.t) (entry_size : Z) (entry : Entry)
  : IO unit :=
  fun stream =>
    let entry_block :=
      mkStream (endianess stream) (repeat x00 (Z.to_nat entry_size)) 0 in
    match pack_cells fields entry entry_block with
    | (Ok _, entry_block') => (Ok tt, write stream (data entry_block'))
    | (Raise e, _) => (Raise e, stream)
    | (OutOfFuel, _) => (OutOfFuel, stream)
    end.

(** [ListBase.pack(stream, entries)] for an [ObjectList] subclass with the
    declared fields [bcsv_fields]. *)
Definition pack (bcsv_fields : list Field.t) (entries : list Entry) : IO unit :=
  (extent <- lift (max_extent bcsv_fields) ;;
   entry_size <- lift (align_length extent 4) ;;
   let header :=
     [("entry_count", len entries);
      ("field_count", len bcsv_fields);
      ("entry_offset", Z.of_nat (sizeof Header.struct)
                       + len bcsv_fields * Z.of_nat (sizeof Field.struct));
      ("entry_size", entry_size)]%string in
   _ <- btypes.pack Header.struct (int_obj header) ;;
   _ <- for_each (fun field => btypes.pack Field.struct (Field.obj field))
          bcsv_fields ;;
   _ <- for_each (pack_entry bcsv_fields entry_size) entries ;;
   _ <- io_write [] ;;
   align 0x20 ["@"%byte])%io.

(** [[Field.unpack(stream) for i in range(field_count)]] *)
Fixpoint unpack_descriptors (count : nat) : IO (list (list (string * Z))) :=
  match count with
  | O => ret []
  | S count' =>
      (f <- unpack_fields Field.fields ;;
       rest <- unpack_descriptors count' ;;
       ret (f :: rest))%io
  end.

(** [a != b] on the descriptor lists, with [Struct.__eq__] on the elements. *)
Fixpoint descriptors_differ (a : list (list (string * Z)))
    (b : list Field.t) : bool :=
  match a, b with
  | [], [] => false
  | x :: a', f :: b' => negb (Field.eqb x f) || descriptors_differ a' b'
  | _, _ => true
  end.

(** The dispatch on [field.data_type] in [ListBase.unpack], for the data
    types that decode to an integer. *)
Definition unpack_cell (field : list (string * Z)) : IO Z :=
  match lookup field "data_type"%string, lookup field "mask"%string,
        lookup field "shift"%string with
  | Some data_type, Some mask, Some shift =>
      if data_type =? UINT32 then
        (raw <- int_unpack uint32 ;; ret (Z.shiftr (Z.land raw mask) shift))%io
      else if data_type =? SINT32 then int_unpack sint32
      else if data_type =? SINT16 then int_unpack sint16
      else if data_type =? SINT8 then int_unpack sint8
      else if (data_type =? FLOAT32) || (data_type =? STRING)
      then raise NotModelled
      else raise NameError
  | _, _, _ => raise AttributeError
  end.

(** [for field_index, field in enumerate(fields): ...
    cls.set_field_value(entry, field_index, value)] *)
Fixpoint unpack_cells (fields : list (list (string * Z)))
    (bcsv_fields : list Field.t) (entry : Entry) : IO Entry :=
  match fields with
  | [] => ret entry
  | field :: rest =>
      match lookup field "offset"%string with
      | None => raise AttributeError
      | Some offset =>
          (_ <- io_seek (Z.to_nat offset) ;;
           value <- unpack_cell field ;;
           match bcsv_fields with
           | [] => raise IndexError
           | f :: bcsv_rest =>
               unpack_cells rest bcsv_rest
                 (update entry (Field.attribute_name f) value)
           end)%io
      end
  end.

Definition unpack_entry (fields : list (list (string * Z)))
    (bcsv_fields : list Field.t) (entry_size : nat) : IO Entry :=
  fun stream =>
    let '(block, stream') := read stream entry_size in
    let entry_block := mkStream (endianess stream) block 0 in
    (fst (unpack_cells fields bcsv_fields [] entry_block), stream').

Fixpoint unpack_entries (count : nat) (fields : list (list (string * Z)))
    (bcsv_fields : list Field.t) (entry_size : nat) : IO (list Entry) :=
  match count with
  | O => ret []
  | S count' =>
      (entry <- unpack_entry fields bcsv_fields entry_size ;;
       rest <- unpack_entries count' fields bcsv_fields entry_size ;;
       ret (entry :: rest))%io
  end.

(** [ListBase.unpack(stream)] for an [ObjectList] subclass with the declared
    fields [bcsv_fields].  [FormatError] is defined nowhere in the program:
    raising it is a [NameError]. *)
Definition unpack (bcsv_fields : list Field.t) : IO (list Entry) :=
  (header <- unpack_fields Header.fields ;;
   match lookup header "entry_count"%string, lookup header "field_count"%string,
         lookup header "entry_offset"%string, lookup header "entry_size"%string
   with
   | Some entry_count, Some field_count, Some entry_offset, Some entry_size =>
       fields <- unpack_descriptors (Z.to_nat field_count) ;;
       if descriptors_differ fields bcsv_fields then raise NameError
       else
         _ <- io_seek (Z.to_nat (entry_offset + entry_count * entry_size)) ;;
         _ <- io_read_all ;;
         _ <- io_seek (Z.to_nat entry_offset) ;;
         unpack_entries (Z.to_nat entry_count) fields bcsv_fields
           (Z.to_nat entry_size)
   | _, _, _, _ => raise AttributeError
   end)%io.

End bcsv.

(* ================================================================== *)
(** * kcl: geometry, welder, octree and the KCL packer                 *)
(* ================================================================== *)

Module kcl.

Import btypes.

Local Open Scope float_scope.

(** ** Vectors and triangles *)

Module Vector.

Record t : Type := mk { x : float; y : float; z : float }.

Definition neg (a : t) : t := mk (- x a) (- y a) (- z a).

Definition add (a b : t) : t := mk (x a + x b) (y a + y b) (z a + z b).

Definition sub (a b : t) : t := mk (x a - x b) (y a - y b) (z a - z b).

(** [self*scalar] *)
Definition mul (a : t) (scalar : float) : t :=
  mk (x a * scalar) (y a * scalar) (z a * scalar).

(** [scalar*self] *)
Definition rmul (scalar : float) (a : t) : t :=
  mk (scalar * x a) (scalar * y a) (scalar * z a).

(** [self/scalar] *)
Definition truediv (a : t) (scalar : float) : outcome t :=
  (qx <- py.truediv (x a) scalar ;;
   qy <- py.truediv (y a) scalar ;;
   qz <- py.truediv (z a) scalar ;;
   Ok (mk qx qy qz))%Z.

Definition norm_square (a : t) : float := x a * x a + y a * y a + z a * z a.

Definition norm (a : t) : outcome float := math_sqrt (norm_square a).

Definition unit (a : t) : outcome t := (n <- norm a ;; truediv a n)%Z.

(** The class body of [Vector]: its [Struct] fields. *)
Definition struct : FieldType :=
  TStruct [("x", TBasic float32); ("y", TBasic float32);
           ("z", TBasic float32)]%string.

(** A vector as the object [Struct.pack] reads its attributes from. *)
Definition obj (a : t) : Value :=
  VObject [("x", VFloat (x a)); ("y", VFloat (y a));
           ("z", VFloat (z a))]%string.

End Vector.

Definition dot (a b : Vector.t) : float :=
  Vector.x a * Vector.x b + Vector.y a * Vector.y b + Vector.z a * Vector.z b.

Definition cross (a b : Vector.t) : Vector.t :=
  Vector.mk (Vector.y a * Vector.z b - Vector.z a * Vector.y b)
            (Vector.z a * Vector.x b - Vector.x a * Vector.z b)
            (Vector.x a * Vector.y b - Vector.y a * Vector.x b).

Module Triangle.

Record t : Type := mk {
  u : Vector.t;
  v : Vector.t;
  w : Vector.t;
  n : Vector.t;
  group_index : Z
}.

(** [Triangle(u, v, w, group_index)] *)
Definition init (u v w : Vector.t) (group_index : Z) : outcome t :=
  (n <- Vector.unit (cross (Vector.sub v u) (Vector.sub w u)) ;;
   Ok (mk u v w n group_index))%Z.

End Triangle.

(** ** Surface types *)

Module SurfaceType.

Record t : Type := mk {
  camera_id : Z;
  sound_code : Z;
  floor_code : Z;
  wall_code : Z;
  camera_through : bool
}.

(** [SurfaceType()] *)
Definition init : t := mk 0xFF 0 0 0 false.

(** A surface type as the object the BCSV packer reads; [True] is the
    int 1. *)
Definition obj (s : t) : bcsv.Entry :=
  [("camera_id", camera_id s); ("sound_code", sound_code s);
   ("floor_code", floor_code s); ("wall_code", wall_code s);
   ("camera_through", Z.b2z (camera_through s))]%string.

End SurfaceType.

Module SurfaceTypeList.

(** The class body: the declared fields, in order. *)
Definition bcsv_fields : list bcsv.Field.t :=
  [bcsv.Field.init "camera_id" bcsv.UINT32 "camera_id" 0 0x000000FF 0;
   bcsv.Field.init "sound_code" bcsv.UINT32 "Sound_code" 0 0x00007F00 8;
   bcsv.Field.init "floor_code" bcsv.UINT32 "Floor_code" 0 0x01F8000 15;
   bcsv.Field.init "wall_code" bcsv.UINT32 "Wall_code" 0 0x01E00000 21;
   bcsv.Field.init "camera_through" bcsv.UINT32 "Camera_through" 0 0x02000000 25
  ]%string%Z.

Definition pack (entries : list bcsv.Entry) : IO unit :=
  bcsv.pack bcsv_fields entries.

Definition unpack : IO (list bcsv.Entry) := bcsv.unpack bcsv_fields.

End SurfaceTypeList.

(** ** Vertex welder *)

Module VertexWelder.

Record t : Type := mk {
  threshold : float;
  cell_width : float;
  buckets : list (list nat);
  vertices : list Vector.t
}.

Definition magic_x : Z := 0x8DA6B343.
Definition magic_y : Z := 0xD8163841.
Definition magic_z : Z := 0x61B40079.

(** [VertexWelder(threshold, bucket_count)] *)
Definition init (threshold : float) (bucket_count : Z) : t :=
  mk threshold (16 * threshold) (repeat [] (Z.to_nat bucket_count)) [].

(** [calculate_hash]: [%] raises on an empty bucket table. *)
Definition calculate_hash (self : t) (ix iy iz : Z) : outcome nat :=
  match buckets self with
  | [] => Raise ZeroDivisionError
  | _ =>
      Ok (Z.to_nat ((ix * magic_x + iy * magic_y + iz * magic_z)
                      mod len (buckets self)))
  end.

(** The acceptance test of [add]: strictly closer than the threshold on
    each axis. *)
Definition close_enough (self : t) (vertex p : Vector.t) : bool :=
  (abs (Vector.x vertex - Vector.x p) <? threshold self) &&
  (abs (Vector.y vertex - Vector.y p) <? threshold self) &&
  (abs (Vector.z vertex - Vector.z p) <? threshold self).

(** [for index in bucket: if ...: return index]: the first accepted index
    of a bucket, if any. *)
Fixpoint scan_bucket (self : t) (vertex : Vector.t) (bucket : list nat)
  : outcome (option nat) :=
  match bucket with
  | [] => Ok None
  | index :: rest =>
      (p <- getitem (vertices self) index ;;
       if close_enough self vertex p then Ok (Some index)
       else scan_bucket self vertex rest)%Z
  end.

(** The three nested loops over the cells, in iteration order. *)
Definition cells (min_ix max_ix min_iy max_iy min_iz max_iz : Z)
  : list (Z * Z * Z) :=
  flat_map (fun ix =>
    flat_map (fun iy =>
      map (fun iz => (ix, iy, iz)) (range min_iz (max_iz + 1)%Z))
      (range min_iy (max_iy + 1)%Z))
    (range min_ix (max_ix + 1)%Z).

Fixpoint scan_cells (self : t) (vertex : Vector.t) (cs : list (Z * Z * Z))
  : outcome (option nat) :=
  match cs with
  | [] => Ok None
  | (ix, iy, iz) :: rest =>
      (h <- calculate_hash self ix iy iz ;;
       bucket <- getitem (buckets self) h ;;
       found <- scan_bucket self vertex bucket ;;
       match found with
       | Some index => Ok (Some index)
       | None => scan_cells self vertex rest
       end)%Z
  end.

(** [bucket.append(i)] on the bucket at position [h]. *)
Fixpoint bucket_append (bs : list (list nat)) (h i : nat) : list (list nat) :=
  match bs, h with
  | [], _ => []
  | b :: rest, O => (b ++ [i]) :: rest
  | b :: rest, S h' => b :: bucket_append rest h' i
  end.

(** The cell coordinate [int(c/self.cell_width)]. *)
Definition cell_of (self : t) (c : float) : outcome Z :=
  (q <- truediv c (cell_width self) ;; int_of_float q)%Z.

(** [VertexWelder.add(vertex)]: the index and the welder as it is left. *)
Definition add (self : t) (vertex : Vector.t) : outcome (nat * t) :=
  (min_ix <- cell_of self (Vector.x vertex - threshold self) ;;
   min_iy <- cell_of self (Vector.y vertex - threshold self) ;;
   min_iz <- cell_of self (Vector.z vertex - threshold self) ;;
   max_ix <- cell_of self (Vector.x vertex + threshold self) ;;
   max_iy <- cell_of self (Vector.y vertex + threshold self) ;;
   max_iz <- cell_of self (Vector.z vertex + threshold self) ;;
   found <- scan_cells self vertex
              (cells min_ix max_ix min_iy max_iy min_iz max_iz) ;;
   match found with
   | Some index => Ok (index, self)
   | None =>
       let vertices' := vertices self ++ [vertex] in
       ix <- cell_of self (Vector.x vertex) ;;
       iy <- cell_of self (Vector.y vertex) ;;
       iz <- cell_of self (Vector.z vertex) ;;
       h <- calculate_hash self ix iy iz ;;
       _ <- getitem (buckets self) h ;;
       let index := (length vertices' - 1)%nat in
       Ok (index,
           mk (threshold self) (cell_width self)
              (bucket_append (buckets self) h index) vertices')
   end)%Z.

End VertexWelder.

(** ** Triangle/cube overlap *)

Definition edge_axis_test (half_width a1 a2 b1 b2 c1 c2 : float) : bool :=
  let p := a1 * b1 + a2 * b2 in
  let q := a1 * c1 + a2 * c2 in
  let r := half_width * (abs a1 + abs a2) in
  ((p <? - r) && (q <? - r)) || ((r <? p) && (r <? q)).

Definition edge_test (half_width v0_x v0_y v0_z v1_x v1_y v1_z v2_x v2_y v2_z
                        : float) : bool :=
  let e_x := v1_x - v0_x in
  let e_y := v1_y - v0_y in
  let e_z := v1_z - v0_z in
  edge_axis_test half_width e_z (- e_y) v0_y v0_z v2_y v2_z ||
  edge_axis_test half_width (- e_z) e_x v0_x v0_z v2_x v2_z ||
  edge_axis_test half_width e_y (- e_x) v0_x v0_y v2_x v2_y.

Definition tribox_overlap (triangle : Triangle.t) (center : Vector.t)
    (half_width : float) : bool :=
  let u_x := Vector.x (Triangle.u triangle) - Vector.x center in
  let u_y := Vector.y (Triangle.u triangle) - Vector.y center in
  let u_z := Vector.z (Triangle.u triangle) - Vector.z center in
  let v_x := Vector.x (Triangle.v triangle) - Vector.x center in
  let v_y := Vector.y (Triangle.v triangle) - Vector.y center in
  let v_z := Vector.z (Triangle.v triangle) - Vector.z center in
  let w_x := Vector.x (Triangle.w triangle) - Vector.x center in
  let w_y := Vector.y (Triangle.w triangle) - Vector.y center in
  let w_z := Vector.z (Triangle.w triangle) - Vector.z center in
  if ((u_x <? - half_width) && (v_x <? - half_width) && (w_x <? - half_width)) ||
     ((half_width <? u_x) && (half_width <? v_x) && (half_width <? w_x)) ||
     ((u_y <? - half_width) && (v_y <? - half_width) && (w_y <? - half_width)) ||
     ((half_width <? u_y) && (half_width <? v_y) && (half_width <? w_y)) ||
     ((u_z <? - half_width) && (v_z <? - half_width) && (w_z <? - half_width)) ||
     ((half_width <? u_z) && (half_width <? v_z) && (half_width <? w_z))
  then false
  else
    let n := Triangle.n triangle in
    let d := Vector.x n * u_x + Vector.y n * u_y + Vector.z n * u_z in
    let r := half_width * (abs (Vector.x n) + abs (Vector.y n) + abs (Vector.z n)) in
    if (d <? - r) || (r <? d) then false
    else
      if edge_test half_width u_x u_y u_z v_x v_y v_z w_x w_y w_z ||
         edge_test half_width v_x v_y v_z w_x w_y w_z u_x u_y u_z ||
         edge_test half_width w_x w_y w_z u_x u_y u_z v_x v_y v_z
      then false
      else true.

(** ** Octree *)

(** [Octree.Node]: [is_leaf] with [indices], or not with [children]. *)
Inductive Node : Type :=
| Leaf (indices : list nat)
| Branch (children : list Node).

Definition is_leaf (nd : Node) : bool :=
  match nd with
  | Leaf _ => true
  | Branch _ => false
  end.

(** [[... for k in range(nz) for j in range(ny) for i in range(nx)]]: the
    cells [(i, j, k)] in generation order, [i] fastest. *)
Definition grid (nx ny nz : Z) : list (Z * Z * Z) :=
  flat_map (fun k =>
    flat_map (fun j => map (fun i => (i, j, k)) (range 0 nx)) (range 0 ny))
    (range 0 nz).

(** [Node.__getitem__(key)] *)
Definition Node_getitem (nd : Node) (key : Z * Z * Z) : outcome Node :=
  let '(k0, k1, k2) := key in
  match nd with
  | Leaf _ => Ok nd
  | Branch children => getitem children (Z.to_nat (k0 + 2 * (k1 + 2 * k2))%Z)
  end.

Module Octree.

Record t : Type := mk {
  triangles : list Triangle.t;
  max_triangles : Z;
  min_width : Z;
  base : Vector.t;
  width_x : Z;
  width_y : Z;
  width_z : Z;
  base_width : Z;
  nx : Z;
  ny : Z;
  nz : Z;
  children : list Node
}.

(** [Octree.__getitem__(key)] *)
Definition getitem_grid (self : t) (key : Z * Z * Z) : outcome Node :=
  let '(k0, k1, k2) := key in
  getitem (children self) (Z.to_nat (k0 + nx self * (k1 + ny self * k2))%Z).

Section Node.

Variable triangles : list Triangle.t.
Variables max_triangles min_width : Z.

(** [tuple(i for i in indices if tribox_overlap(self.triangles[i], ...))] *)
Fixpoint overlapping (center : Vector.t) (half_width : float)
    (indices : list nat) : outcome (list nat) :=
  match indices with
  | [] => Ok []
  | i :: rest =>
      (t <- getitem triangles i ;;
       rest' <- overlapping center half_width rest ;;
       Ok (if tribox_overlap t center half_width then i :: rest' else rest'))%Z
  end.

(** The base corner of octant [(i, j, k)]:
    [base + half_width*Vector(i, j, k)]. *)
Definition octant_base (base : Vector.t) (half_width : float) (key : Z * Z * Z)
  : Vector.t :=
  let '(i, j, k) := key in
  Vector.add base (Vector.rmul half_width (Vector.mk (of_int i) (of_int j) (of_int k))).

(** [Octree.node(base, width, indices)]; [fuel] bounds the depth of the
    recursion. *)
Fixpoint node (fuel : nat) (base : Vector.t) (width : Number)
    (indices : list nat) : outcome Node :=
  match fuel with
  | O => OutOfFuel
  | S fuel' =>
      (half_width <- halve width ;;
       let center := Vector.add base (Vector.mk half_width half_width half_width) in
       indices <- overlapping center half_width indices ;;
       if (max_triangles <? len indices)%Z && float_ge_int half_width min_width
       then
         children <- mapM (fun key =>
                       node fuel' (octant_base base half_width key)
                            (Float half_width) indices)
                     (grid 2 2 2) ;;
         Ok (Branch children)
       else Ok (Leaf indices))%Z
  end.

End Node.

(** The loop test of the flattening:
    [sum(1 for node in children if not node.is_leaf)/(nx*ny*nz) >= 0.875].
    The quotient of two ints is their exact quotient rounded to the nearest
    float, ties to even, and an [OverflowError] when that is no float.  The
    float [0.875] has an even significand and its predecessor is
    [0.875 - 2^-53], so the rounded quotient is at least [0.875] exactly
    when the exact one is at least [0.875 - 2^-54]; the count is not
    negative. *)
Definition branch_count (children : list Node) : Z :=
  len (filter (fun nd => negb (is_leaf nd)) children).

Definition flatten_test (self : t) : outcome bool :=
  let total := (nx self * ny self * nz self)%Z in
  let count := branch_count (children self) in
  if (total =? 0)%Z then Raise ZeroDivisionError
  else if (overflow_threshold * Z.abs total <=? count)%Z
  then Raise OverflowError
  else Ok ((0 <? total) && (total * (7 * 2 ^ 51 - 1) <=? count * 2 ^ 54))%Z.

(** One iteration of the flattening loop. *)
Definition flatten_step (self : t) : outcome t :=
  (children' <- mapM (fun '(i, j, k) =>
                  top <- getitem_grid self (i / 2, j / 2, k / 2) ;;
                  Node_getitem top (i mod 2, j mod 2, k mod 2))
                (grid (2 * nx self) (2 * ny self) (2 * nz self)) ;;
   Ok (mk (triangles self) (max_triangles self) (min_width self)
         (base self) (width_x self) (width_y self) (width_z self)
         (base_width self / 2) (nx self * 2) (ny self * 2) (nz self * 2)
         children'))%Z.

(** [while ... >= 0.875: ...]; [fuel] bounds the number of iterations. *)
Fixpoint flatten (fuel : nat) (self : t) : outcome t :=
  match fuel with
  | O => OutOfFuel
  | S fuel' =>
      (again <- flatten_test self ;;
       if again then self' <- flatten_step self ;; flatten fuel' self'
       else Ok self)%Z
  end.

(** [2**int(ceil(log(max(extent, min_width), 2)))]: the exponent. *)
Definition width_exponent (log : LogFn)
    (extent : float) (min_width : Z) : outcome Z :=
  (l <- math_log log (max_float_int extent min_width) (Int 2) ;; ceil l)%Z.

(** The octree as built, before the flattening loop.  A negative exponent
    makes [2**e] a float: the minimal width is then a float, and either it
    is [0.0] and [//] raises, or the grid dimensions are floats and [range]
    raises. *)
Definition build (log : LogFn) (fuel : nat)
    (triangles : list Triangle.t) (max_triangles min_width : Z)
  : outcome t :=
  (min_x <- min_of (map (fun t => min3 (Vector.x (Triangle.u t)) (Vector.x (Triangle.v t)) (Vector.x (Triangle.w t))) triangles) ;;
   min_y <- min_of (map (fun t => min3 (Vector.y (Triangle.u t)) (Vector.y (Triangle.v t)) (Vector.y (Triangle.w t))) triangles) ;;
   min_z <- min_of (map (fun t => min3 (Vector.z (Triangle.u t)) (Vector.z (Triangle.v t)) (Vector.z (Triangle.w t))) triangles) ;;
   max_x <- max_of (map (fun t => max3 (Vector.x (Triangle.u t)) (Vector.x (Triangle.v t)) (Vector.x (Triangle.w t))) triangles) ;;
   max_y <- max_of (map (fun t => max3 (Vector.y (Triangle.u t)) (Vector.y (Triangle.v t)) (Vector.y (Triangle.w t))) triangles) ;;
   max_z <- max_of (map (fun t => max3 (Vector.z (Triangle.u t)) (Vector.z (Triangle.v t)) (Vector.z (Triangle.w t))) triangles) ;;
   let base := Vector.mk min_x min_y min_z in
   ex <- width_exponent log (max_x - min_x) min_width ;;
   ey <- width_exponent log (max_y - min_y) min_width ;;
   ez <- width_exponent log (max_z - min_z) min_width ;;
   let e_min := Z.min ex (Z.min ey ez) in
   if e_min <? 0 then
     Raise (if e_min <=? -1075 then ZeroDivisionError else TypeError)
   else
     let width_x := 2 ^ ex in
     let width_y := 2 ^ ey in
     let width_z := 2 ^ ez in
     let base_width := Z.min width_x (Z.min width_y width_z) in
     let nx := width_x / base_width in
     let ny := width_y / base_width in
     let nz := width_z / base_width in
     children <- mapM (fun '(i, j, k) =>
                   bx <- float_of_int (base_width * i) ;;
                   by_ <- float_of_int (base_width * j) ;;
                   bz <- float_of_int (base_width * k) ;;
                   node triangles max_triangles min_width fuel
                        (Vector.add base (Vector.mk bx by_ bz)) (Int base_width)
                        (seq 0 (length triangles)))
                 (grid nx ny nz) ;;
     Ok (mk triangles max_triangles min_width base
           width_x width_y width_z base_width nx ny nz children))%Z.

(** [Octree(triangles, max_triangles, min_width)] *)
Definition init (log : LogFn) (fuel : nat)
    (triangles : list Triangle.t) (max_triangles min_width : Z)
  : outcome t :=
  (self <- build log fuel triangles max_triangles min_width ;;
   flatten fuel self)%Z.

End Octree.

(** ** Octree packer *)

(** The [OrderedDict] [list_offsets]: keys in insertion order. *)
Definition ListOffsets : Type := list (list nat * Z).

Fixpoint offset_of (list_offsets : ListOffsets) (indices : list nat)
  : option Z :=
  match list_offsets with
  | [] => None
  | (key, off) :: rest =>
      if list_eq_dec Nat.eq_dec key indices then Some off
      else offset_of rest indices
  end.

(** The body of [for node in branches[i].children] in the first pass: the
    list offsets, the free list offset and the branch queue as it leaves
    them. *)
Fixpoint collect (nodes : list Node) (list_offsets : ListOffsets)
    (free_list_offset : Z) (branches : list (list Node))
  : ListOffsets * Z * list (list Node) :=
  match nodes with
  | [] => (list_offsets, free_list_offset, branches)
  | Leaf indices :: rest =>
      match indices with
      | [] => collect rest list_offsets free_list_offset branches
      | _ =>
          match offset_of list_offsets indices with
          | Some _ => collect rest list_offsets free_list_offset branches
          | None =>
              collect rest (list_offsets ++ [(indices, free_list_offset)])
                (free_list_offset + 2 * (len indices + 1))%Z branches
          end
      end
  | Branch children :: rest =>
      collect rest list_offsets free_list_offset (branches ++ [children])
  end.

(** [while i < len(branches): ...; i += 1].  A branch is represented by its
    [children] (the octree itself by its top-level grid). *)
Fixpoint walk (fuel : nat) (i : nat) (branches : list (list Node))
    (list_offsets : ListOffsets) (free_list_offset : Z)
  : outcome (list (list Node) * ListOffsets * Z) :=
  match fuel with
  | O => OutOfFuel
  | S fuel' =>
      match nth_error branches i with
      | None => Ok (branches, list_offsets, free_list_offset)
      | Some nodes =>
          let '(list_offsets', free', branches') :=
            collect nodes list_offsets free_list_offset branches in
          walk fuel' (S i) branches' list_offsets' free'
      end
  end.

(** The entries of one branch table, in the second pass. *)
Fixpoint pack_entries (nodes : list Node) (list_base : Z)
    (list_offsets : ListOffsets) (branch_base free_branch_offset : Z)
  : IO Z :=
  match nodes with
  | [] => ret free_branch_offset
  | Leaf indices :: rest =>
      (off <- lift (match offset_of list_offsets indices with
                    | Some off => Ok off
                    | None => Raise KeyError
                    end) ;;
       _ <- basic_pack uint32
              (VInt (Z.lor 0x80000000 (list_base + off - 2 - branch_base))) ;;
       pack_entries rest list_base list_offsets branch_base
         free_branch_offset)%io
  | Branch children :: rest =>
      (_ <- basic_pack uint32 (VInt (free_branch_offset - branch_base)) ;;
       pack_entries rest list_base list_offsets branch_base
         (free_branch_offset + 4 * len children)%Z)%io
  end.

Fixpoint pack_tables (branches : list (list Node)) (list_base : Z)
    (list_offsets : ListOffsets) (branch_base free_branch_offset : Z)
  : IO unit :=
  match branches with
  | [] => ret tt
  | nodes :: rest =>
      (free' <- pack_entries nodes list_base list_offsets branch_base
                  free_branch_offset ;;
       pack_tables rest list_base list_offsets
         (branch_base + 4 * len nodes)%Z free')%io
  end.

(** One index list: [uint16(index + 1)] for each index, then [uint16(0)]. *)
Definition pack_list (indices : list nat) : IO unit :=
  (_ <- for_each (fun index => basic_pack uint16 (VInt (Z.of_nat index + 1)))
         indices ;;
   basic_pack uint16 (VInt 0))%io.

(** [Octree.pack(stream, octree)] *)
Definition Octree_pack (fuel : nat) (octree : Octree.t) : IO unit :=
  (r <- lift (walk fuel 0 [Octree.children octree] [] 0) ;;
   let '(branches, list_offsets, free_list_offset) := r in
   let list_base := (4 * fold_left Z.add (map len branches) 0)%Z in
   let list_offsets' := list_offsets ++ [([], free_list_offset - 2)%Z] in
   _ <- pack_tables branches list_base list_offsets' 0
          (4 * len (Octree.children octree))%Z ;;
   for_each pack_list (map fst list_offsets))%io.

(** ** Collision file *)

Module Header.

Record t : Type := mk {
  vertex_offset : Z;
  normal_offset : Z;
  face_offset : Z;
  octree_offset : Z;
  unknown0 : Z;
  base : Vector.t;
  x_mask : Z;
  y_mask : Z;
  z_mask : Z;
  coordinate_shift : Z;
  y_shift : Z;
  z_shift : Z
}.

(** The class body of [Header]: its fields in declaration order. *)
Definition struct : FieldType :=
  TStruct [("vertex_offset", TBasic uint32);
           ("normal_offset", TBasic uint32);
           ("face_offset", TBasic uint32);
           ("octree_offset", TBasic uint32);
           ("unknown0", TBasic float32);
           ("base", Vector.struct);
           ("x_mask", TBasic uint32);
           ("y_mask", TBasic uint32);
           ("z_mask", TBasic uint32);
           ("coordinate_shift", TBasic uint32);
           ("y_shift", TBasic uint32);
           ("z_shift", TBasic uint32)]%string.

Definition obj (h : t) : Value :=
  VObject [("vertex_offset", VInt (vertex_offset h));
           ("normal_offset", VInt (normal_offset h));
           ("face_offset", VInt (face_offset h));
           ("octree_offset", VInt (octree_offset h));
           ("unknown0", VInt (unknown0 h));
           ("base", Vector.obj (base h));
           ("x_mask", VInt (x_mask h));
           ("y_mask", VInt (y_mask h));
           ("z_mask", VInt (z_mask h));
           ("coordinate_shift", VInt (coordinate_shift h));
           ("y_shift", VInt (y_shift h));
           ("z_shift", VInt (z_shift h))]%string.

End Header.

Module Face.

Record t : Type := mk {
  length : float;
  p_index : nat;
  n_index : nat;
  a_index : nat;
  b_index : nat;
  c_index : nat;
  group_index : Z
}.

Definition struct : FieldType :=
  TStruct [("length", TBasic float32);
           ("p_index", TBasic uint16);
           ("n_index", TBasic uint16);
           ("a_index", TBasic uint16);
           ("b_index", TBasic uint16);
           ("c_index", TBasic uint16);
           ("group_index", TBasic uint16)]%string.

Definition obj (f : t) : Value :=
  VObject [("length", VFloat (length f));
           ("p_index", VInt (Z.of_nat (p_index f)));
           ("n_index", VInt (Z.of_nat (n_index f)));
           ("a_index", VInt (Z.of_nat (a_index f)));
           ("b_index", VInt (Z.of_nat (b_index f)));
           ("c_index", VInt (Z.of_nat (c_index f)));
           ("group_index", VInt (group_index f))]%string.

End Face.

(** The body of [for face, triangle in zip(faces, triangles)] for one
    triangle: the face and the two welders as it leaves them. *)
Definition make_face (triangle : Triangle.t)
    (vertex_welder normal_welder : VertexWelder.t)
  : outcome (Face.t * VertexWelder.t * VertexWelder.t) :=
  (a <- Vector.unit (cross (Vector.sub (Triangle.u triangle) (Triangle.w triangle)) (Triangle.n triangle)) ;;
   b <- Vector.unit (cross (Vector.sub (Triangle.v triangle) (Triangle.u triangle)) (Triangle.n triangle)) ;;
   c <- Vector.unit (cross (Vector.sub (Triangle.w triangle) (Triangle.v triangle)) (Triangle.n triangle)) ;;
   let length := dot (Vector.sub (Triangle.v triangle) (Triangle.u triangle)) c in
   '(p_index, vertex_welder) <- VertexWelder.add vertex_welder (Triangle.u triangle) ;;
   '(n_index, normal_welder) <- VertexWelder.add normal_welder (Triangle.n triangle) ;;
   '(a_index, normal_welder) <- VertexWelder.add normal_welder a ;;
   '(b_index, normal_welder) <- VertexWelder.add normal_welder b ;;
   '(c_index, normal_welder) <- VertexWelder.add normal_welder c ;;
   Ok (Face.mk length p_index n_index a_index b_index c_index
         (Triangle.group_index triangle), vertex_welder, normal_welder))%Z.

Fixpoint make_faces (triangles : list Triangle.t)
    (vertex_welder normal_welder : VertexWelder.t)
  : outcome (list Face.t * VertexWelder.t * VertexWelder.t) :=
  match triangles with
  | [] => Ok ([], vertex_welder, normal_welder)
  | triangle :: rest =>
      ('(face, vertex_welder, normal_welder) <-
         make_face triangle vertex_welder normal_welder ;;
       '(faces, vertex_welder, normal_welder) <-
         make_faces rest vertex_welder normal_welder ;;
       Ok (face :: faces, vertex_welder, normal_welder))%Z
  end.

(** [int(log(n, 2))] *)
Definition int_log2 (log : LogFn) (n : Z)
  : outcome Z :=
  (l <- math_log log (Int n) (Int 2) ;; int_of_float l)%Z.

(** The header as [pack] fills it in after the octree is written. *)
Definition make_header (log : LogFn)
    (vertex_offset normal_offset face_offset octree_offset : Z)
    (octree : Octree.t) : outcome Header.t :=
  (coordinate_shift <- int_log2 log (Octree.base_width octree) ;;
   y_shift <- int_log2 log (Octree.nx octree) ;;
   log_ny <- int_log2 log (Octree.ny octree) ;;
   Ok (Header.mk vertex_offset normal_offset face_offset octree_offset
         40 (Octree.base octree)
         (Z.land (Z.lnot (Octree.width_x octree - 1)) 0xFFFFFFFF)
         (Z.land (Z.lnot (Octree.width_y octree - 1)) 0xFFFFFFFF)
         (Z.land (Z.lnot (Octree.width_z octree - 1)) 0xFFFFFFFF)
         coordinate_shift y_shift (y_shift + log_ny)))%Z.

(** The writes of [pack], once the welded tables have passed the gates. *)
Definition pack_body (log : LogFn) (fuel : nat)
    (triangles : list Triangle.t) (max_triangles min_width : Z)
    (faces : list Face.t) (vertex_welder normal_welder : VertexWelder.t)
  : IO unit :=
  (_ <- io_write (repeat x00 (sizeof Header.struct)) ;;
   vertex_offset <- io_tell ;;
   _ <- for_each (fun vertex => btypes.pack Vector.struct (Vector.obj vertex))
          (VertexWelder.vertices vertex_welder) ;;
   normal_offset <- io_tell ;;
   _ <- for_each (fun normal => btypes.pack Vector.struct (Vector.obj normal))
          (VertexWelder.vertices normal_welder) ;;
   position <- io_tell ;;
   let face_offset := (Z.of_nat position - Z.of_nat (sizeof Face.struct))%Z in
   _ <- for_each (fun face => btypes.pack Face.struct (Face.obj face)) faces ;;
   octree_offset <- io_tell ;;
   octree <- lift (Octree.init log fuel triangles max_triangles min_width) ;;
   _ <- Octree_pack fuel octree ;;
   header <- lift (make_header log (Z.of_nat vertex_offset)
                     (Z.of_nat normal_offset) face_offset
                     (Z.of_nat octree_offset) octree) ;;
   _ <- io_seek 0 ;;
   btypes.pack Header.struct (Header.obj header))%io.

(** [pack(stream, triangles, max_triangles, min_width)]: write the KCL
    file.  [log] is the platform's [math.log]; [fuel] bounds the octree
    recursion and loops. *)
Definition pack (log : LogFn) (fuel : nat)
    (triangles : list Triangle.t) (max_triangles min_width : Z) : IO unit :=
  if (0xFFFF - 1 <=? len triangles)%Z
  then raise (GeometryOverflowError "too many faces")
  else
    (r <- lift (make_faces triangles
                  (VertexWelder.init 0x1p-1 ((len triangles + 63) / 64))
                  (VertexWelder.init 0x1p-22 ((4 * len triangles + 63) / 64))) ;;
     let '(faces, vertex_welder, normal_welder) := r in
     if (0xFFFF <=? len (VertexWelder.vertices vertex_welder))%Z
     then raise (GeometryOverflowError "too many vertices")
     else if (0xFFFF <=? len (VertexWelder.vertices normal_welder))%Z
     then raise (GeometryOverflowError "too many normals")
     else pack_body log fuel triangles max_triangles min_width
            faces vertex_welder normal_welder)%io.

End kcl.

(* ================================================================== *)
(** * Specification predicates and sample inputs                       *)
(* ================================================================== *)

Import btypes kcl.

(** A computation that does not end in a [GeometryOverflowError]. *)
Definition overflow_free {A} (o : outcome A) : Prop :=
  forall msg, o <> Raise (GeometryOverflowError msg).

Definition io_overflow_free {A} (m : IO A) : Prop :=
  forall s, overflow_free (fst (m s)).

(** A logarithm for the examples: exact on the powers of two, and
    strictly between the neighbouring integers elsewhere, so that [ceil] and
    [int] of it are those of the real logarithm in base 2. *)
Definition sample_log : LogFn := fun a _ =>
  let fa := match a with Int n => of_int n | Float f => f end in
  match Prim2SF fa with
  | S754_nan => Some nan
  | S754_zero _ => None
  | S754_infinity s => if s then None else Some infinity
  | S754_finite true _ _ => None
  | S754_finite false m e =>
      let d := Zpos (digits2_pos m) in
      Some (of_int (e + d - 1)
            + (of_int (Zpos m) / of_int (2 ^ (d - 1)) - 1))%float
  end.

(** The triangle [(0,0,0), (1,0,0), (0,1,0)] with its normal [(0,0,1)]. *)
Definition sample_triangle : Triangle.t :=
  Triangle.mk (Vector.mk 0 0 0) (Vector.mk 1 0 0) (Vector.mk 0 1 0)
              (Vector.mk 0 0 1) 0.

(** 65534 triangles. *)
Definition many_triangles : list Triangle.t :=
  repeat sample_triangle (Z.to_nat 65534).

(** A vector of finite coordinates. *)
Definition finite_vector (a : Vector.t) : bool :=
  is_finite (Vector.x a) && is_finite (Vector.y a) && is_finite (Vector.z a).

(** The welder of the examples: threshold 0.5, four buckets, holding the
    origin. *)
Definition sample_welder : VertexWelder.t :=
  match VertexWelder.add (VertexWelder.init 0.5 4) (Vector.mk 0 0 0) with
  | Ok (_, self) => self
  | _ => VertexWelder.init 0.5 4
  end.

(** The overlap test of [Octree.node] as a predicate on triangle indices
    (an index that names no triangle passes no test). *)
Definition overlap_at (triangles : list Triangle.t) (center : Vector.t)
    (half_width : float) (i : nat) : bool :=
  match nth_error triangles i with
  | Some t => tribox_overlap t center half_width
  | None => false
  end.

(** Every leaf below [nd] holds only triangles that overlap the cube the
    leaf has by its position: [nd] itself has the cube of corner [base] and
    side [width], and the child of a branch at octant [key] the octant's
    cube at half the side. *)
Fixpoint leaves_overlap (triangles : list Triangle.t) (base : Vector.t)
    (width : Number) (nd : Node) {struct nd} : bool :=
  match halve width with
  | Ok half_width =>
      match nd with
      | Leaf indices =>
          forallb (overlap_at triangles
                     (Vector.add base (Vector.mk half_width half_width half_width))
                     half_width)
                  indices
      | Branch children =>
          all2 (fun key child =>
                  leaves_overlap triangles
                    (Octree.octant_base base half_width key)
                    (Float half_width) child)
               (grid 2 2 2) children
      end
  | _ => false
  end.

(** The corner of the top-level cell [(i, j, k)]:
    [base + base_width*Vector(i, j, k)]. *)
Definition cell_base (o : Octree.t) (key : Z * Z * Z) : outcome Vector.t :=
  let '(i, j, k) := key in
  (bx <- float_of_int (Octree.base_width o * i) ;;
   by_ <- float_of_int (Octree.base_width o * j) ;;
   bz <- float_of_int (Octree.base_width o * k) ;;
   Ok (Vector.add (Octree.base o) (Vector.mk bx by_ bz)))%Z.

(** The same for a whole octree: every top-level node, with the cube of
    its cell in the top-level grid. *)
Definition octree_leaves_overlap (o : Octree.t) : bool :=
  all2 (fun key nd =>
          match cell_base o key with
          | Ok b => leaves_overlap (Octree.triangles o) b
                      (Int (Octree.base_width o)) nd
          | _ => false
          end)
       (grid (Octree.nx o) (Octree.ny o) (Octree.nz o)) (Octree.children o).

(** [Triangle(u, v, w, 0)] for a triangle that is not degenerate. *)
Definition triangle_of (u v w : Vector.t) : Triangle.t :=
  match Triangle.init u v w 0 with
  | Ok t => t
  | _ => Triangle.mk u v w (Vector.mk 0 0 0) 0
  end.

(** Two small triangles near the corner [(a, b, c)], one above the other. *)
Definition lower_triangle (a b c : float) : Triangle.t :=
  triangle_of (Vector.mk a b c) (Vector.mk (a + 1) b c) (Vector.mk a (b + 1) c).

Definition upper_triangle (a b c : float) : Triangle.t :=
  lower_triangle a b (c + 1).

(** A mesh in the cube from 1 to 7: one triangle in the octant at the
    low corner and two in each of the other seven. *)
Definition flattened_mesh : list Triangle.t :=
  lower_triangle 1 1 1 ::
  flat_map (fun '(a, b, c) => [lower_triangle a b c; upper_triangle a b c])
    [(6, 1, 1); (1, 6, 1); (6, 6, 1); (1, 1, 6); (6, 1, 6); (1, 6, 6);
     (6, 6, 6)]%float.

(** ** The flattening loop *)

(** The states the loop [while ... >= 0.875] goes through from [o]. *)
Inductive loop_state (o : Octree.t) : Octree.t -> Prop :=
| loop_start : loop_state o o
| loop_next o1 o2 :
    loop_state o o1 ->
    Octree.flatten_test o1 = Ok true ->
    Octree.flatten_step o1 = Ok o2 ->
    loop_state o o2.

(** A node as [node] sizes it for the side [width]: a branch has a half
    width of at least [min_width] and 8 children sized for the half
    width. *)
Inductive sized (min_width : Z) : Number -> Node -> Prop :=
| sized_leaf width indices : sized min_width width (Leaf indices)
| sized_branch width half_width children :
    halve width = Ok half_width ->
    float_ge_int half_width min_width = true ->
    length children = 8%nat ->
    Forall (sized min_width (Float half_width)) children ->
    sized min_width width (Branch children).

Fixpoint height (nd : Node) : nat :=
  match nd with
  | Leaf _ => 0
  | Branch children => S (list_max (map height children))
  end.

(** The float [2^j], for [-1 <= j <= 1023]. *)
Definition pow2f (j : Z) : float :=
  SF2Prim (S754_finite false 4503599627370496 (j - 52)).

Definition spec_float_eqb (a b : spec_float) : bool :=
  match a, b with
  | S754_zero s, S754_zero s' => Bool.eqb s s'
  | S754_infinity s, S754_infinity s' => Bool.eqb s s'
  | S754_nan, S754_nan => true
  | S754_finite s m e, S754_finite s' m' e' =>
      Bool.eqb s s' && Pos.eqb m m' && Z.eqb e e'
  | _, _ => false
  end.

(** Halving the int [2^j] gives the float [2^(j-1)], with that mantissa
    and exponent. *)
Definition halve_int_check (n : nat) : bool :=
  let j := Z.of_nat n in
  match halve (Int (2 ^ j)) with
  | Ok f => PrimFloat.Leibniz.eqb f (pow2f (j - 1))
  | _ => false
  end &&
  spec_float_eqb (Prim2SF (pow2f (j - 1)))
                 (S754_finite false 4503599627370496 (j - 1 - 52)).

(** Halving the float [2^j] gives the float [2^(j-1)]. *)
Definition halve_float_check (n : nat) : bool :=
  let j := Z.of_nat n in
  PrimFloat.Leibniz.eqb (pow2f j / 2) (pow2f (j - 1)).

(** The invariant of the flattening loop: the grid has as many nodes as
    cells, and for some [j] the cells have the side [2^j] and the nodes are
    sized for a width whose half is the float [2^(j-1)]. *)
Definition loop_invariant (min_width : Z) (o : Octree.t) : Prop :=
  0 < Octree.nx o /\ 0 < Octree.ny o /\ 0 < Octree.nz o /\
  length (Octree.children o)
  = Z.to_nat (Octree.nx o * Octree.ny o * Octree.nz o) /\
  exists j width,
    0 <= j <= 1024 /\ Octree.base_width o = 2 ^ j /\
    halve width = Ok (pow2f (j - 1)) /\
    Forall (sized min_width width) (Octree.children o).

(** The octree of [flattened_mesh] as built, before the flattening. *)
Definition built_mesh : Octree.t :=
  match Octree.build sample_log 10 flattened_mesh 1 1 with
  | Ok o => o
  | _ => Octree.mk [] 1 1 (Vector.mk 0 0 0) 1 1 1 1 1 1 1 []
  end.

(** ** Packed bytes *)

(** The bytes [Struct.pack] writes for a value, when it raises nothing. *)
Fixpoint bytes_of (e : Endianess) (t : FieldType) (v : Value)
  : outcome (list byte) :=
  match t with
  | TBasic b => basic_bytes e b v
  | TStruct fields =>
      (fix fields_bytes (fs : list (string * FieldType)) : outcome (list byte) :=
         match fs with
         | [] => Ok []
         | (name, ft) :: rest =>
             a <- getattr v name ;;
             bs <- bytes_of e ft a ;;
             bs' <- fields_bytes rest ;;
             Ok (bs ++ bs')
         end) fields
  end.

(** The bytes of a sequence of values packed one after the other. *)
Definition bytes_of_all (e : Endianess) (t : FieldType) (vs : list Value)
  : outcome (list byte) :=
  bss <- mapM (bytes_of e t) vs ;; Ok (concat bss).

(** An unsigned 16-bit and an unsigned 32-bit word in the stream's byte
    order. *)
Definition u16 (e : Endianess) (n : Z) : list byte := order e (le_bytes 2 n).
Definition u32 (e : Endianess) (n : Z) : list byte := order e (le_bytes 4 n).

(** ** The index-list region of a packed octree *)

(** One stored list: the words [index + 1] in the order of the leaf, then
    the terminating zero word. *)
Definition list_bytes (e : Endianess) (indices : list nat) : list byte :=
  flat_map (fun index => u16 e (Z.of_nat index + 1)) indices ++ u16 e 0.

(** The non-empty index tuples of the leaves among some nodes, in order. *)
Fixpoint leaf_tuples (nodes : list Node) : list (list nat) :=
  match nodes with
  | [] => []
  | Leaf [] :: rest => leaf_tuples rest
  | Leaf indices :: rest => indices :: leaf_tuples rest
  | Branch _ :: rest => leaf_tuples rest
  end.

(** A tuple met in the traversal is stored unless an equal one already
    is: the first occurrence owns the storage. *)
Definition store (keys : list (list nat)) (k : list nat) : list (list nat) :=
  if in_dec (list_eq_dec Nat.eq_dec) k keys then keys else keys ++ [k].

Definition stored_lists (tuples : list (list nat)) : list (list nat) :=
  fold_left store tuples [].

(** The size in bytes of the stored lists. *)
Fixpoint total_list_bytes (keys : list (list nat)) : Z :=
  match keys with
  | [] => 0
  | k :: rest => 2 * (len k + 1) + total_list_bytes rest
  end.

(** The byte offset, within the list region, of the stored list equal to
    [indices]. *)
Fixpoint stored_offset (keys : list (list nat)) (indices : list nat)
  : option Z :=
  match keys with
  | [] => None
  | k :: rest =>
      if list_eq_dec Nat.eq_dec k indices then Some 0
      else option_map (Z.add (2 * (len k + 1))) (stored_offset rest indices)
  end.

(** The offset a leaf is given: that of its stored list, and for the empty
    list that of the last two bytes of the region. *)
Definition list_pointer (keys : list (list nat)) (indices : list nat)
  : option Z :=
  match indices with
  | [] => Some (total_list_bytes keys - 2)
  | _ => stored_offset keys indices
  end.

(** The entries of one branch table, as words: a leaf's is its list
    pointer, relative to the table and tagged. *)
Fixpoint entry_words (nodes : list Node) (list_base : Z)
    (keys : list (list nat)) (branch_base free_branch_offset : Z)
  : option (list Z * Z) :=
  match nodes with
  | [] => Some ([], free_branch_offset)
  | Leaf indices :: rest =>
      match list_pointer keys indices,
            entry_words rest list_base keys branch_base free_branch_offset with
      | Some off, Some (ws, free') =>
          Some (Z.lor 0x80000000 (list_base + off - 2 - branch_base) :: ws,
                free')
      | _, _ => None
      end
  | Branch children :: rest =>
      match entry_words rest list_base keys branch_base
              (free_branch_offset + 4 * len children) with
      | Some (ws, free') =>
          Some ((free_branch_offset - branch_base) :: ws, free')
      | None => None
      end
  end.

(** The words of the branch tables, one table after the other. *)
Fixpoint table_words (branches : list (list Node)) (list_base : Z)
    (keys : list (list nat)) (branch_base free_branch_offset : Z)
  : option (list Z) :=
  match branches with
  | [] => Some []
  | nodes :: rest =>
      match entry_words nodes list_base keys branch_base free_branch_offset with
      | Some (ws, free') =>
          match table_words rest list_base keys
                  (branch_base + 4 * len nodes) free' with
          | Some ws' => Some (ws ++ ws')
          | None => None
          end
      | None => None
      end
  end.

(** The offsets of stored lists laid out one after the other from
    [start]. *)
Fixpoint assign (keys : list (list nat)) (start : Z) : ListOffsets :=
  match keys with
  | [] => []
  | k :: rest => (k, start) :: assign rest (start + 2 * (len k + 1))
  end.

(** The tables of the branches among some nodes, in order. *)
Fixpoint sub_branches (nodes : list Node) : list (list Node) :=
  match nodes with
  | [] => []
  | Leaf _ :: rest => sub_branches rest
  | Branch children :: rest => children :: sub_branches rest
  end.

(** The finished octree of [flattened_mesh]. *)
Definition finished_mesh : Octree.t :=
  match Octree.init sample_log 10 flattened_mesh 1 1 with
  | Ok o => o
  | _ => built_mesh
  end.

(** ** The surface-type table *)

(** The row of a surface type: its five fields, each shifted to its place
    in the word. *)
Definition row_word (t : SurfaceType.t) : Z :=
  Z.lor (Z.shiftl (Z.b2z (SurfaceType.camera_through t)) 25)
    (Z.lor (Z.shiftl (SurfaceType.wall_code t) 21)
       (Z.lor (Z.shiftl (SurfaceType.floor_code t) 15)
          (Z.lor (Z.shiftl (SurfaceType.sound_code t) 8)
             (SurfaceType.camera_id t)))).

(** The fields of a surface type fit the masks of their columns. *)
Definition in_domain (t : SurfaceType.t) : Prop :=
  0 <= SurfaceType.camera_id t < 2 ^ 8 /\
  0 <= SurfaceType.sound_code t < 2 ^ 7 /\
  0 <= SurfaceType.floor_code t < 2 ^ 6 /\
  0 <= SurfaceType.wall_code t < 2 ^ 4.

(** A stream with the bytes [before] behind its position and the bytes
    [after] ahead of it. *)
Definition at_cursor (e : Endianess) (before after : list byte) : Stream :=
  mkStream e (before ++ after) (length before).

(** The size in bytes of a structure of integer fields. *)
Fixpoint fields_size (fs : list (string * BasicType)) : nat :=
  match fs with
  | [] => 0
  | (_, t) :: rest => calcsize t + fields_size rest
  end.

(** The five field descriptors of the surface-type table, packed. *)
Definition descriptor_bytes (e : Endianess) : list byte :=
  match bytes_of_all e bcsv.Field.struct
          (map bcsv.Field.obj SurfaceTypeList.bcsv_fields) with
  | Ok bs => bs
  | _ => []
  end.

(** The header and the field descriptors of a table of [count] rows. *)
Definition table_head (e : Endianess) (count : Z) : list byte :=
  u32 e count ++ u32 e 5 ++ u32 e 76 ++ u32 e 4 ++ descriptor_bytes e.

(** The rows of a surface-type table. *)
Definition surface_rows (e : Endianess) (types : list SurfaceType.t)
  : list byte :=
  flat_map (fun t => u32 e (row_word t)) types.

(** The padding [align] writes at [position]. *)
Definition padding (position : nat) : list byte :=
  if Nat.eqb (position mod 32) 0 then []
  else repeat "@"%byte (32 - position mod 32).

(** The field descriptors as [Field.unpack] returns them. *)
Definition decoded_descriptors : list (list (string * Z)) :=
  map (fun f => [("name_hash", bcsv.Field.name_hash f);
                 ("mask", bcsv.Field.mask f);
                 ("offset", bcsv.Field.offset f);
                 ("shift", bcsv.Field.shift f);
                 ("data_type", bcsv.Field.data_type f)]%string)
      SurfaceTypeList.bcsv_fields.

(** The surface type of the round-trip scenario. *)
Definition example_surface_type : SurfaceType.t :=
  SurfaceType.mk 0x12 5 10 3 true.

(* ================================================================== *)
(** * Further predicates                                             *)
(* ================================================================== *)

(** ** Integer formats *)

(** The values [struct.pack] accepts for an integer format. *)
Definition fits (t : BasicType) (n : Z) : Prop :=
  let bits := 8 * Z.of_nat (calcsize t) in
  if is_signed t then - 2 ^ (bits - 1) <= n < 2 ^ (bits - 1)
  else 0 <= n < 2 ^ bits.

(** The values of a structure of integer fields, field by field, as they
    are taken from the attributes of an object. *)
Definition attributes_of (fs : list (string * BasicType))
    (attrs : list (string * Z)) : option (list (string * Z)) :=
  fold_right (fun f acc =>
                match lookup attrs (fst f), acc with
                | Some v, Some rest => Some ((fst f, v) :: rest)
                | _, _ => None
                end) (Some []) fs.

(** ** Welders *)

(** Every index kept in a bucket names a kept vertex. *)
Definition well_formed (self : VertexWelder.t) : Prop :=
  Forall (Forall (fun index => (index < length (VertexWelder.vertices self))%nat))
         (VertexWelder.buckets self).

(** The index fields of a face name entries of the welded tables. *)
Definition face_in_tables (vertex_welder normal_welder : VertexWelder.t)
    (face : Face.t) : Prop :=
  (Face.p_index face < length (VertexWelder.vertices vertex_welder))%nat /\
  (Face.n_index face < length (VertexWelder.vertices normal_welder))%nat /\
  (Face.a_index face < length (VertexWelder.vertices normal_welder))%nat /\
  (Face.b_index face < length (VertexWelder.vertices normal_welder))%nat /\
  (Face.c_index face < length (VertexWelder.vertices normal_welder))%nat.

(** ** Floats that are zero *)

(** A float that is [+0] or [-0]. *)
Definition zero_float (f : float) : Prop :=
  exists s, Prim2SF f = S754_zero s.

(** ** The shape of an octree *)

(** The widths of the bounding box and the side of the top-level cells are
    powers of two, the grid dimensions are their quotients, and the grid
    has one node for each cell. *)
Definition grid_shape (o : Octree.t) : Prop :=
  exists ex ey ez j,
    0 <= j /\ j <= ex /\ j <= ey /\ j <= ez /\
    Octree.width_x o = 2 ^ ex /\ Octree.width_y o = 2 ^ ey /\
    Octree.width_z o = 2 ^ ez /\ Octree.base_width o = 2 ^ j /\
    Octree.nx o = 2 ^ (ex - j) /\ Octree.ny o = 2 ^ (ey - j) /\
    Octree.nz o = 2 ^ (ez - j) /\
    len (Octree.children o) = Octree.nx o * Octree.ny o * Octree.nz o.

(** ** The tables of an octree *)

(** The number of branches among a node and its descendants. *)
Fixpoint branches_below (nd : Node) : nat :=
  match nd with
  | Leaf _ => 0
  | Branch children => S (list_sum (map branches_below children))
  end.

(** The number of tables the nodes of one table give rise to, itself
    included. *)
Definition tables (nodes : list Node) : nat :=
  S (list_sum (map branches_below nodes)).

(* ================================================================== *)
(** * btypes: the remaining field types                                *)
(* ================================================================== *)

(** What [Array], [Pointer] and the structures ask of a field type: the
    methods [pack(stream, value)], [unpack(stream)] and [sizeof()], which
    returns [None] for the string types. *)
Record Packable (V : Type) : Type := mkPackable {
  do_pack : V -> IO unit;
  do_unpack : IO V;
  do_sizeof : outcome (option nat)
}.

Arguments mkPackable {V} _ _ _.
Arguments do_pack {V} _ _ _.
Arguments do_unpack {V} _ _.
Arguments do_sizeof {V} _.

(** A [BasicType] of an integer format as a field type. *)
Definition int_type (t : BasicType) : Packable Z :=
  mkPackable (fun n => basic_pack t (VInt n)) (int_unpack t)
             (Ok (Some (calcsize t))).

Module ByteString.

(** [ByteString(length)]: [pack] writes the string as it is, [unpack]
    reads up to [length] bytes. *)
Definition pack (length : nat) (string : list byte) : IO unit :=
  io_write string.

Definition unpack (length : nat) : IO (list byte) := io_read length.

Definition sizeof (length : nat) : outcome (option nat) := Ok (Some length).

Definition type (length : nat) : Packable (list byte) :=
  mkPackable (pack length) (unpack length) (sizeof length).

End ByteString.

Module Array.

Section Array.

Context {V : Type} (element_type : Packable V) (length : nat).

(** [for value in array: self.element_type.pack(stream, value)] *)
Definition pack (array : list V) : IO unit :=
  for_each (do_pack element_type) array.

(** [[self.element_type.unpack(stream) for _ in range(self.length)]] *)
Fixpoint unpack_elements (count : nat) : IO (list V) :=
  match count with
  | O => ret []
  | S count' =>
      (v <- do_unpack element_type ;;
       rest <- unpack_elements count' ;;
       ret (v :: rest))%io
  end.

Definition unpack : IO (list V) := unpack_elements length.

(** [self.length*self.element_type.sizeof()]: a [TypeError] when the
    element type has no size. *)
Definition sizeof : outcome (option nat) :=
  size <- do_sizeof element_type ;;
  match size with
  | Some n => Ok (Some (length * n)%nat)
  | None => Raise TypeError
  end.

Definition type : Packable (list V) := mkPackable pack unpack sizeof.

End Array.

End Array.

Module Pointer.

(** [Pointer(stream, value_type, offset)[key]] on a [BytesStream], whose
    [seek] refuses a negative position with a [ValueError]. *)
Definition getitem {V} (value_type : Packable V) (offset key : Z) : IO V :=
  (size <- lift (do_sizeof value_type) ;;
   match size with
   | None => raise TypeError
   | Some n =>
       let target := (offset + key * Z.of_nat n)%Z in
       if (target <? 0)%Z then raise ValueError
       else _ <- io_seek (Z.to_nat target) ;; do_unpack value_type
   end)%io.

End Pointer.

(** ** Strings *)

(** A Python [str]: its code points. *)
Definition PyStr : Type := list nat.

(** An encoding: [str.encode] and [bytes.decode].  Their exceptions,
    [UnicodeEncodeError] and [UnicodeDecodeError], are [ValueError]s. *)
Record Encoding : Type := mkEncoding {
  encode : PyStr -> outcome (list byte);
  decode : list byte -> outcome PyStr
}.

Definition byte_of_nat (n : nat) : byte := byte_of_Z (Z.of_nat n).
Definition nat_of_byte (b : byte) : nat := Z.to_nat (Z_of_byte b).

(** The encoding ['ascii']. *)
Definition ascii_encoding : Encoding :=
  mkEncoding
    (fun string =>
       if forallb (fun c => c <? 128)%nat string
       then Ok (map byte_of_nat string) else Raise ValueError)
    (fun bs =>
       if forallb (fun b => nat_of_byte b <? 128)%nat bs
       then Ok (map nat_of_byte bs) else Raise ValueError).

Definition bytes_eqb (a b : list byte) : bool :=
  if list_eq_dec Byte.byte_eq_dec a b then true else false.

Module CString.

(** [CString(encoding)]: the encoding and the encoded NUL. *)
Record t : Type := mk { encoding : Encoding; null : list byte }.

Definition init (encoding : Encoding) : outcome t :=
  null <- encode encoding [0%nat] ;; Ok (mk encoding null).

(** [stream.write((string + '\0').encode(self.encoding))] *)
Definition pack (self : t) (string : PyStr) : IO unit :=
  (bs <- lift (encode (encoding self) (string ++ [0%nat])) ;; io_write bs)%io.

(** [while True: c = stream.read(len(self.null)); if c == self.null: break;
    string += c]; [fuel] bounds the number of iterations. *)
Fixpoint read_string (fuel : nat) (null string : list byte)
  : IO (list byte) :=
  match fuel with
  | O => fun s => (OutOfFuel, s)
  | S fuel' =>
      (c <- io_read (length null) ;;
       if bytes_eqb c null then ret string
       else read_string fuel' null (string ++ c))%io
  end.

Definition unpack (fuel : nat) (self : t) : IO PyStr :=
  (string <- read_string fuel (null self) [] ;;
   lift (decode (encoding self) string))%io.

Definition sizeof : outcome (option nat) := Ok None.

End CString.

Module PString.

(** [string = string.encode(self.encoding); uint8.pack(stream, len(string));
    stream.write(string)] *)
Definition pack (encoding : Encoding) (string : PyStr) : IO unit :=
  (bs <- lift (encode encoding string) ;;
   _ <- basic_pack uint8 (VInt (len bs)) ;;
   io_write bs)%io.

(** [length = uint8.unpack(stream);
    return stream.read(length).decode(self.encoding)] *)
Definition unpack (encoding : Encoding) : IO PyStr :=
  (length <- int_unpack uint8 ;;
   bs <- io_read (Z.to_nat length) ;;
   lift (decode encoding bs))%io.

Definition sizeof : outcome (option nat) := Ok None.

End PString.

(** [cstring = CString('ascii')] and [pstring = PString('ascii')]. *)
Definition cstring : outcome CString.t := CString.init ascii_encoding.

(** A value of a field type and the bytes that stand for it in the byte
    order [e]: packing the value writes the bytes, and unpacking at the
    bytes returns the value and stops behind them. *)
Definition round_trips {V} (type : Packable V) (e : Endianess) (v : V)
    (bs : list byte) : Prop :=
  (forall s, endianess s = e -> do_pack type v s = (Ok tt, write s bs)) /\
  (forall before after,
     do_unpack type (at_cursor e before (bs ++ after))
     = (Ok v, at_cursor e (before ++ bs) after)).

(** ** The platform's logarithm *)

(** What the header needs of [math.log], on the powers of two up to
    [2^bound]: [math.log(0, 2)] is a domain error, and
    [k <= math.log(2**k, 2) < k + 1], so that [int] of it is [k]. *)
Definition log_of_powers_of_two (log : LogFn) (bound : Z) : Prop :=
  log (Int 0) (Int 2) = None /\
  forall k, 0 <= k <= bound ->
    exists l, log (Int (2 ^ k)) (Int 2) = Some l /\
              float_ge_int l k = true /\ float_lt_int l (k + 1) = true.

(** The grid dimensions are powers of two, and so is the side of the
    cells as long as the flattening has not halved it down to [0]. *)
Definition dyadic (o : Octree.t) : Prop :=
  exists a b,
    0 <= a /\ 0 <= b /\ Octree.nx o = 2 ^ a /\ Octree.ny o = 2 ^ b /\
    (Octree.base_width o = 0 \/
     exists j, 0 <= j /\ Octree.base_width o = 2 ^ j /\
               Octree.width_x o = 2 ^ (a + j) /\
               Octree.width_y o = 2 ^ (b + j)).

(** The logarithm of the examples at [2^n]. *)
Definition sample_log_check (n : nat) : bool :=
  let k := Z.of_nat n in
  match sample_log (Int (2 ^ k)) (Int 2) with
  | Some l => float_ge_int l k && float_lt_int l (k + 1)
  | None => false
  end.

(** ** The cubes the nodes were built for *)

(** What [Node.__getitem__] returns from the node [nd], built for the cube
    of corner [base] and side [width], along a path of octant keys, with
    the cube that node was built for: a leaf returns itself, and keeps its
    cube; a branch returns its child at the octant, built for the octant's
    cube at half the side. *)
Fixpoint descend (path : list (Z * Z * Z)) (nd : Node) (base : Vector.t)
    (width : Number) : outcome (Node * Vector.t * Number) :=
  match path with
  | [] => Ok (nd, base, width)
  | key :: rest =>
      (child <- Node_getitem nd key ;;
       if is_leaf nd then descend rest child base width
       else
         half_width <- halve width ;;
         descend rest child (Octree.octant_base base half_width key)
           (Float half_width))%Z
  end.

(** The loop body [self[i//2,j//2,k//2][i % 2,j % 2,k % 2]], [steps] times
    over: the cell of the grid as built, and the path of octants below it,
    from which the cell [key] of the grid comes after [steps] iterations. *)
Fixpoint origin (steps : nat) (key : Z * Z * Z)
  : (Z * Z * Z) * list (Z * Z * Z) :=
  match steps with
  | O => (key, [])
  | S steps' =>
      let '(i, j, k) := key in
      let '(key0, path) := origin steps' (i / 2, j / 2, k / 2) in
      (key0, path ++ [(i mod 2, j mod 2, k mod 2)])
  end.

(** The node [nd] at the cell [key] of the top-level grid, [steps]
    iterations of the flattening after the octree [built]: it is what
    [Node.__getitem__] returns from a top-level node of [built] along the
    path of the cell, and every leaf in it holds only triangles that
    overlap the cube the leaf was built for. *)
Definition placed (built : Octree.t) (steps : nat) (key : Z * Z * Z)
    (nd : Node) : Prop :=
  let '(key0, path) := origin steps key in
  In key0 (grid (Octree.nx built) (Octree.ny built) (Octree.nz built)) /\
  exists top corner base width,
    Octree.getitem_grid built key0 = Ok top /\
    cell_base built key0 = Ok corner /\
    descend path top corner (Int (Octree.base_width built))
    = Ok (nd, base, width) /\
    leaves_overlap (Octree.triangles built) base width nd = true.

(** Every cell of the top-level grid of [o] holds a placed node. *)
Definition all_placed (built : Octree.t) (steps : nat) (o : Octree.t) : Prop :=
  forall key,
    In key (grid (Octree.nx o) (Octree.ny o) (Octree.nz o)) ->
    exists nd, Octree.getitem_grid o key = Ok nd /\ placed built steps key nd.

(** ** The tables of an octree *)

(** The tables of the octree with the top-level grid [root]: the grid
    itself and the children of every branch in a table. *)
Inductive table_of (root : list Node) : list Node -> Prop :=
| table_root : table_of root root
| table_child nodes children :
    table_of root nodes -> In (Branch children) nodes ->
    table_of root children.

(* ================================================================== *)
(** * Facts about binary64 arithmetic                                  *)
(* ================================================================== *)

Section FloatFacts.

Lemma Prim2SF_not_nan f : is_nan f = false -> Prim2SF f <> S754_nan.
Proof.
  unfold Prim2SF. intros ->.
  destruct (is_zero f); [discriminate|].
  destruct (is_infinity f); [discriminate|].
  destruct (Z.frexp f) as [r e].
  destruct (shr_fexp prec emax _ _ _) as [m e'].
  destruct (shr_m m); discriminate.
Qed.

Lemma Prim2SF_finite f :
  is_finite f = true ->
  (exists s, Prim2SF f = S754_zero s) \/
  (exists s m e, Prim2SF f = S754_finite s m e).
Proof.
  unfold is_finite, Prim2SF. intros H.
  apply andb_true_iff in H as [H1 H2].
  apply negb_true_iff in H1, H2. rewrite H1, H2.
  destruct (is_zero f); [left; eauto|].
  destruct (Z.frexp f) as [r e].
  destruct (shr_fexp prec emax _ _ _) as [m e'].
  destruct (shr_m m); [left|right|left]; eauto.
Qed.

Lemma SFsub_diag x :
  (exists s, x = S754_zero s) \/ (exists s m e, x = S754_finite s m e) ->
  SFsub prec emax x x = S754_zero false.
Proof.
  intros [[s ->]|(s & m & e & ->)]; simpl.
  - destruct s; reflexivity.
  - rewrite Z.sub_diag. reflexivity.
Qed.

(** A finite float minus itself is [+0]. *)
Lemma sub_diag f : is_finite f = true -> (f - f)%float = 0%float.
Proof.
  intros H. apply Prim2SF_inj. rewrite sub_spec.
  unfold SF64sub. rewrite SFsub_diag by now apply Prim2SF_finite.
  reflexivity.
Qed.

Lemma SFabs_binary_round s s' m e :
  SFabs (binary_round prec emax s m e) = SFabs (binary_round prec emax s' m e).
Proof.
  unfold binary_round, binary_round_aux.
  destruct (shl_align m e _) as [mz ez].
  destruct (shr_fexp prec emax (Zpos mz) ez loc_Exact) as [mrs e1].
  destruct (shr_fexp prec emax _ e1 loc_Exact) as [mrs2 e2].
  destruct (shr_m mrs2); try reflexivity.
  destruct (e2 <=? emax - prec); reflexivity.
Qed.

Lemma SFabs_binary_normalize_opp m e :
  SFabs (binary_normalize prec emax (- m) e false)
  = SFabs (binary_normalize prec emax m e false).
Proof.
  destruct m; simpl; try reflexivity; apply SFabs_binary_round.
Qed.

Lemma SFabs_sub_swap a b :
  SFabs (SFsub prec emax a b) = SFabs (SFsub prec emax b a).
Proof.
  destruct a as [sa|sa| |sa ma ea], b as [sb|sb| |sb mb eb];
    try reflexivity;
    try (destruct sa, sb; reflexivity).
  cbn [SFsub]. rewrite (Z.min_comm eb ea).
  rewrite <- SFabs_binary_normalize_opp. f_equal. f_equal. lia.
Qed.

(** The distance [|a - b|] does not depend on the order of its operands. *)
Lemma abs_sub_swap a b : abs (a - b) = abs (b - a).
Proof.
  apply Prim2SF_inj. rewrite !abs_spec, !sub_spec. apply SFabs_sub_swap.
Qed.

(** Unless the float is a NaN, [f >= n] is the negation of [f < n]. *)
Lemma float_ge_int_negb_lt f n :
  is_nan f = false -> float_ge_int f n = negb (float_lt_int f n).
Proof.
  intros H. apply Prim2SF_not_nan in H.
  unfold float_ge_int, float_lt_int, compare_float_int.
  destruct (Prim2SF f) as [s|s| |s m e]; try congruence.
  - destruct (0 ?= n); reflexivity.
  - destruct s; reflexivity.
  - destruct (0 <=? e); [destruct (_ ?= _)|destruct (_ ?= _)]; reflexivity.
Qed.

End FloatFacts.

(* ================================================================== *)
(** * The overflow gates of [pack]                                     *)
(* ================================================================== *)

Section OverflowFree.

Lemma of_ok {A} (a : A) : overflow_free (Ok a).
Proof. intros msg; discriminate. Qed.

Lemma of_out_of_fuel {A} : overflow_free (@OutOfFuel A).
Proof. intros msg; discriminate. Qed.

Lemma of_bind {A B} (m : outcome A) (k : A -> outcome B) :
  overflow_free m -> (forall a, overflow_free (k a)) ->
  overflow_free (bind m k).
Proof.
  intros Hm Hk msg. destruct m as [a|e|]; cbn [bind].
  - apply Hk.
  - intros E. apply (Hm msg). congruence.
  - discriminate.
Qed.

Lemma of_mapM {A B} (f : A -> outcome B) l :
  (forall a, overflow_free (f a)) -> overflow_free (mapM f l).
Proof.
  intros Hf. induction l as [|a l IH]; cbn [mapM].
  - apply of_ok.
  - apply of_bind; [apply Hf|]. intros b.
    apply of_bind; [exact IH|]. intros bs. apply of_ok.
Qed.

Lemma iof_ret {A} (a : A) : io_overflow_free (ret a).
Proof. intros s msg; discriminate. Qed.

Lemma iof_lift {A} (m : outcome A) : overflow_free m -> io_overflow_free (lift m).
Proof. intros H s. exact H. Qed.

Lemma iof_bind {A B} (m : IO A) (k : A -> IO B) :
  io_overflow_free m -> (forall a, io_overflow_free (k a)) ->
  io_overflow_free (iobind m k).
Proof.
  intros Hm Hk s msg. unfold iobind.
  specialize (Hm s msg). destruct (m s) as [[a|e|] s1]; simpl in Hm.
  - apply Hk.
  - intros E. apply Hm. simpl in E. congruence.
  - discriminate.
Qed.

Lemma iof_for_each {A} (f : A -> IO unit) l :
  (forall a, io_overflow_free (f a)) -> io_overflow_free (for_each f l).
Proof.
  intros Hf. induction l as [|a l IH]; cbn [for_each].
  - apply iof_ret.
  - apply iof_bind; [apply Hf|]. intros _. exact IH.
Qed.

End OverflowFree.

(** Decompose a goal [overflow_free e] along the shape of [e]. *)
Ltac overflow_free_step :=
  match goal with
  | |- overflow_free (Ok _) => apply of_ok
  | |- overflow_free OutOfFuel => apply of_out_of_fuel
  | |- overflow_free (Raise (if ?b then _ else _)) => destruct b
  | |- overflow_free (Raise _) => intros ?; discriminate
  | |- overflow_free (bind _ _) => apply of_bind; [|intros ?]
  | |- overflow_free (mapM _ _) => apply of_mapM; intros ?
  | |- overflow_free (let '(_, _) := ?p in _) => destruct p
  | |- overflow_free (match ?x with _ => _ end) => destruct x
  | |- io_overflow_free (ret _) => apply iof_ret
  | |- io_overflow_free (lift _) => apply iof_lift
  | |- io_overflow_free (iobind _ _) => apply iof_bind; [|intros ?]
  | |- io_overflow_free (for_each _ _) => apply iof_for_each; intros ?
  | |- io_overflow_free (let '(_, _) := ?p in _) => destruct p
  | |- io_overflow_free (match ?x with _ => _ end) => destruct x
  | |- overflow_free (let _ := _ in _) => cbv zeta
  | |- io_overflow_free (let _ := _ in _) => cbv zeta
  | |- io_overflow_free (raise _) => intros ? ?; cbn; discriminate
  | |- io_overflow_free io_tell => intros ? ?; cbn; discriminate
  | |- io_overflow_free (io_seek _) => intros ? ?; cbn; discriminate
  | |- io_overflow_free (io_write _) => intros ? ?; cbn; discriminate
  end.

Ltac overflow_free := repeat overflow_free_step.

Section PackGates.

Lemma of_getitem {A} (l : list A) i : overflow_free (getitem l i).
Proof. unfold getitem. overflow_free. Qed.

Lemma of_truediv a b : overflow_free (truediv a b).
Proof. unfold truediv. overflow_free. Qed.

Lemma of_int_of_float f : overflow_free (int_of_float f).
Proof. unfold int_of_float. overflow_free. Qed.

Lemma of_ceil f : overflow_free (ceil f).
Proof. unfold ceil. overflow_free. Qed.

Lemma of_float_of_int n : overflow_free (float_of_int n).
Proof. unfold float_of_int. overflow_free. Qed.

Lemma of_halve w : overflow_free (halve w).
Proof. unfold halve. overflow_free. Qed.

Lemma of_math_log log a b : overflow_free (math_log log a b).
Proof. unfold math_log. overflow_free. Qed.

Lemma of_min_of l : overflow_free (min_of l).
Proof. unfold min_of. overflow_free. Qed.

Lemma of_max_of l : overflow_free (max_of l).
Proof. unfold max_of. overflow_free. Qed.

Lemma of_unit a : overflow_free (Vector.unit a).
Proof.
  unfold Vector.unit, Vector.norm, Vector.truediv, math_sqrt.
  overflow_free; apply of_truediv.
Qed.

Lemma of_calculate_hash self ix iy iz :
  overflow_free (VertexWelder.calculate_hash self ix iy iz).
Proof. unfold VertexWelder.calculate_hash. overflow_free. Qed.

Lemma of_cell_of self c : overflow_free (VertexWelder.cell_of self c).
Proof.
  unfold VertexWelder.cell_of. overflow_free;
    [apply of_truediv|apply of_int_of_float].
Qed.

Lemma of_scan_bucket self vertex bucket :
  overflow_free (VertexWelder.scan_bucket self vertex bucket).
Proof.
  induction bucket as [|i rest IH]; cbn [VertexWelder.scan_bucket];
    overflow_free; [apply of_getitem|exact IH].
Qed.

Lemma of_scan_cells self vertex cs :
  overflow_free (VertexWelder.scan_cells self vertex cs).
Proof.
  induction cs as [|[[ix iy] iz] rest IH]; cbn [VertexWelder.scan_cells];
    overflow_free;
    first [apply of_calculate_hash|apply of_getitem|apply of_scan_bucket
          |exact IH].
Qed.

Lemma of_add self vertex : overflow_free (VertexWelder.add self vertex).
Proof.
  unfold VertexWelder.add. overflow_free;
    first [apply of_cell_of|apply of_scan_cells|apply of_calculate_hash
          |apply of_getitem].
Qed.

Lemma of_make_face triangle vw nw : overflow_free (make_face triangle vw nw).
Proof.
  unfold make_face. overflow_free; first [apply of_unit|apply of_add].
Qed.

Lemma of_make_faces triangles vw nw :
  overflow_free (make_faces triangles vw nw).
Proof.
  revert vw nw. induction triangles as [|t rest IH]; intros vw nw;
    cbn [make_faces].
  - apply of_ok.
  - overflow_free; [apply of_make_face|apply IH].
Qed.

Lemma of_overlapping triangles center half_width indices :
  overflow_free (Octree.overlapping triangles center half_width indices).
Proof.
  induction indices as [|i rest IH]; cbn [Octree.overlapping];
    overflow_free; [apply of_getitem|exact IH].
Qed.

Lemma of_node triangles max_triangles min_width fuel base width indices :
  overflow_free
    (Octree.node triangles max_triangles min_width fuel base width indices).
Proof.
  revert base width indices.
  induction fuel as [|fuel IH]; intros base width indices;
    cbn [Octree.node].
  - apply of_out_of_fuel.
  - overflow_free; first [apply of_halve|apply of_overlapping|apply IH].
Qed.

Lemma of_Node_getitem nd key : overflow_free (Node_getitem nd key).
Proof.
  destruct key as [[k0 k1] k2]. unfold Node_getitem.
  overflow_free. apply of_getitem.
Qed.

Lemma of_flatten_step self : overflow_free (Octree.flatten_step self).
Proof.
  unfold Octree.flatten_step, Octree.getitem_grid.
  overflow_free; [apply of_getitem|apply of_Node_getitem].
Qed.

Lemma of_flatten fuel self : overflow_free (Octree.flatten fuel self).
Proof.
  revert self. induction fuel as [|fuel IH]; intros self;
    cbn [Octree.flatten].
  - apply of_out_of_fuel.
  - unfold Octree.flatten_test. overflow_free;
      first [apply of_flatten_step|apply IH].
Qed.

Lemma of_build log fuel triangles max_triangles min_width :
  overflow_free (Octree.build log fuel triangles max_triangles min_width).
Proof.
  unfold Octree.build, Octree.width_exponent.
  overflow_free;
    first [apply of_min_of|apply of_max_of|apply of_math_log|apply of_ceil
          |apply of_float_of_int|apply of_node].
Qed.

Lemma of_init log fuel triangles max_triangles min_width :
  overflow_free (Octree.init log fuel triangles max_triangles min_width).
Proof.
  unfold Octree.init. overflow_free; [apply of_build|apply of_flatten].
Qed.

Lemma of_walk fuel i branches list_offsets free :
  overflow_free (walk fuel i branches list_offsets free).
Proof.
  revert i branches list_offsets free.
  induction fuel as [|fuel IH]; intros i branches list_offsets free;
    cbn [walk].
  - apply of_out_of_fuel.
  - destruct (nth_error branches i); [|apply of_ok].
    destruct (collect _ _ _ _) as [[lo fr] br]. apply IH.
Qed.

Lemma iof_basic_pack t v : io_overflow_free (basic_pack t v).
Proof.
  intros s msg. unfold basic_pack.
  assert (H : overflow_free (basic_bytes (endianess s) t v)).
  { unfold basic_bytes, int_bytes, binary32_word.
    destruct t, v; overflow_free; apply of_float_of_int. }
  specialize (H msg). destruct (basic_bytes _ _ _); cbn [fst]; congruence.
Qed.

Lemma iof_pack_entries nodes list_base list_offsets branch_base free :
  io_overflow_free (pack_entries nodes list_base list_offsets branch_base free).
Proof.
  revert free. induction nodes as [|[indices|children] rest IH]; intros free;
    cbn [pack_entries]; overflow_free; first [apply iof_basic_pack|apply IH].
Qed.

Lemma iof_pack_tables branches list_base list_offsets branch_base free :
  io_overflow_free (pack_tables branches list_base list_offsets branch_base free).
Proof.
  revert branch_base free.
  induction branches as [|nodes rest IH]; intros branch_base free;
    cbn [pack_tables]; overflow_free; [apply iof_pack_entries|apply IH].
Qed.

Lemma iof_pack_list indices : io_overflow_free (pack_list indices).
Proof. unfold pack_list. overflow_free; apply iof_basic_pack. Qed.

Lemma iof_Octree_pack fuel octree : io_overflow_free (Octree_pack fuel octree).
Proof.
  unfold Octree_pack. overflow_free;
    first [apply of_walk|apply iof_pack_tables|apply iof_pack_list].
Qed.

Lemma iof_pack : forall t v, io_overflow_free (btypes.pack t v).
Proof.
  fix IH 1. intros [b|fields] v.
  - apply iof_basic_pack.
  - cbn [btypes.pack].
    induction fields as [|[name ft] rest IHf].
    + apply iof_ret.
    + apply iof_bind.
      * apply iof_lift. unfold getattr. overflow_free.
      * intros a. apply iof_bind; [apply IH|]. intros _. exact IHf.
Qed.

Lemma of_make_header log vo no fo oo octree :
  overflow_free (make_header log vo no fo oo octree).
Proof.
  unfold make_header, int_log2.
  overflow_free; first [apply of_math_log|apply of_int_of_float].
Qed.

End PackGates.

Section FaceCountGate.

Variable log : LogFn.
Variable fuel : nat.
Variable triangles : list Triangle.t.
Variables max_triangles min_width : Z.

(** Once the three gates are passed no [GeometryOverflowError] is raised. *)
Lemma iof_pack_body faces vw nw :
  io_overflow_free
    (pack_body log fuel triangles max_triangles min_width faces vw nw).
Proof.
  unfold pack_body.
  overflow_free;
    first [apply iof_pack|apply of_init|apply iof_Octree_pack
          |apply of_make_header].
Qed.

(** With 65534 triangles or more [pack] raises at once. *)
Lemma pack_gate_closed s :
  65534 <= len triangles ->
  pack log fuel triangles max_triangles min_width s
  = (Raise (GeometryOverflowError "too many faces"), s).
Proof.
  intros H. unfold pack. change (0xFFFF - 1) with 65534.
  apply Z.leb_le in H. rewrite H. reflexivity.
Qed.

(** The shape of a run of [pack] that passes the face-count gate. *)
Lemma pack_gate_open s :
  len triangles < 65534 ->
  (exists e, pack log fuel triangles max_triangles min_width s = (Raise e, s)
             /\ (forall msg, e <> GeometryOverflowError msg)) \/
  pack log fuel triangles max_triangles min_width s = (OutOfFuel, s) \/
  pack log fuel triangles max_triangles min_width s
  = (Raise (GeometryOverflowError "too many vertices"), s) \/
  pack log fuel triangles max_triangles min_width s
  = (Raise (GeometryOverflowError "too many normals"), s) \/
  overflow_free (fst (pack log fuel triangles max_triangles min_width s)).
Proof.
  intros H. unfold pack. change (0xFFFF - 1) with 65534.
  apply Z.leb_gt in H. rewrite H.
  unfold iobind, lift.
  pose proof (of_make_faces triangles
                (VertexWelder.init 0x1p-1 ((len triangles + 63) / 64))
                (VertexWelder.init 0x1p-22 ((4 * len triangles + 63) / 64)))
    as Hf.
  destruct (make_faces _ _ _) as [[[faces vw] nw]|e|].
  - destruct (0xFFFF <=? len (VertexWelder.vertices vw));
      [right; right; left; reflexivity|].
    destruct (0xFFFF <=? len (VertexWelder.vertices nw));
      [right; right; right; left; reflexivity|].
    right; right; right; right. apply iof_pack_body.
  - left. exists e. split; [reflexivity|].
    intros msg ->. exact (Hf msg eq_refl).
  - right; left; reflexivity.
Qed.

End FaceCountGate.

(** C1 (as amended): [pack] raises [GeometryOverflowError('too many
    faces')] exactly when it is given 65534 triangles or more, so 65533
    triangles are the most that pass the face-count gate. *)
Theorem pack_face_count_gate log fuel triangles max_triangles min_width s :
  fst (pack log fuel triangles max_triangles min_width s)
    = Raise (GeometryOverflowError "too many faces")
  <-> 65534 <= len triangles.
Proof.
  split.
  - intros H. destruct (Z.le_gt_cases 65534 (len triangles)) as [G|G];
      [exact G|exfalso].
    destruct (pack_gate_open log fuel triangles max_triangles min_width s G)
      as [(e & E & He)|[E|[E|[E|E]]]].
    + rewrite E in H. cbn [fst] in H. injection H as ->.
      exact (He _ eq_refl).
    + rewrite E in H. discriminate.
    + rewrite E in H. discriminate.
    + rewrite E in H. discriminate.
    + exact (E _ H).
  - intros H. rewrite pack_gate_closed by exact H. reflexivity.
Qed.

(** C1, the claim as stated fails: a list of exactly 65534 triangles does
    not pass the gate. *)
Lemma pack_65534_triangles_raises :
  len many_triangles = 65534 /\
  fst (pack sample_log 0 many_triangles 25 8 (new_stream LITTLE_ENDIAN))
    = Raise (GeometryOverflowError "too many faces").
Proof.
  assert (L : len many_triangles = 65534).
  { unfold many_triangles, len. rewrite repeat_length. reflexivity. }
  split; [exact L|].
  rewrite pack_gate_closed; [reflexivity|rewrite L; reflexivity].
Qed.

(** C10: whenever [pack] raises a [GeometryOverflowError], for whichever
    of its three reasons, the sink is exactly as it was before the call:
    all three checks come before the first write. *)
Theorem pack_overflow_leaves_sink_unchanged
    log fuel triangles max_triangles min_width s msg s' :
  pack log fuel triangles max_triangles min_width s
    = (Raise (GeometryOverflowError msg), s') ->
  s' = s.
Proof.
  intros H.
  destruct (Z.le_gt_cases 65534 (len triangles)) as [G|G].
  - rewrite pack_gate_closed in H by exact G. congruence.
  - destruct (pack_gate_open log fuel triangles max_triangles min_width s G)
      as [(e & E & He)|[E|[E|[E|E]]]];
      try (rewrite E in H; congruence).
    rewrite H in E. exfalso. exact (E msg eq_refl).
Qed.

Lemma pack_overflow_leaves_sink_unchanged_witness :
  snd (pack sample_log 0 many_triangles 25 8 (new_stream LITTLE_ENDIAN))
  = new_stream LITTLE_ENDIAN.
Proof.
  apply (pack_overflow_leaves_sink_unchanged sample_log 0 many_triangles 25 8
           (new_stream LITTLE_ENDIAN) "too many faces").
  vm_compute. reflexivity.
Defined.

(* ================================================================== *)
(** * The vertex welder                                                *)
(* ================================================================== *)

Section Welder.

Lemma bind_ok {A B} (m : outcome A) (k : A -> outcome B) b :
  bind m k = Ok b -> exists a, m = Ok a /\ k a = Ok b.
Proof.
  destruct m as [a|e|]; cbn [bind]; intros H; try discriminate.
  exists a. split; [reflexivity|exact H].
Qed.

Lemma getitem_ok {A} (l : list A) i a :
  getitem l i = Ok a -> nth_error l i = Some a.
Proof.
  unfold getitem. destruct (nth_error l i); intros H; congruence.
Qed.

Variable self : VertexWelder.t.
Variable vertex : Vector.t.

(** A hit of the bucket scan is an index of a kept vertex that passed the
    acceptance test. *)
Lemma scan_bucket_hit bucket index :
  VertexWelder.scan_bucket self vertex bucket = Ok (Some index) ->
  exists p, nth_error (VertexWelder.vertices self) index = Some p /\
            VertexWelder.close_enough self vertex p = true.
Proof.
  induction bucket as [|i rest IH]; cbn [VertexWelder.scan_bucket].
  - discriminate.
  - intros H. apply bind_ok in H as (p & Hp & H).
    destruct (VertexWelder.close_enough self vertex p) eqn:C.
    + injection H as <-. exists p. split; [now apply getitem_ok|exact C].
    + now apply IH.
Qed.

Lemma scan_cells_hit cs index :
  VertexWelder.scan_cells self vertex cs = Ok (Some index) ->
  exists p, nth_error (VertexWelder.vertices self) index = Some p /\
            VertexWelder.close_enough self vertex p = true.
Proof.
  induction cs as [|[[ix iy] iz] rest IH]; cbn [VertexWelder.scan_cells].
  - discriminate.
  - intros H. apply bind_ok in H as (h & _ & H).
    apply bind_ok in H as (bucket & _ & H).
    apply bind_ok in H as (found & Hf & H).
    destruct found as [i|].
    + injection H as <-. now apply scan_bucket_hit with bucket.
    + now apply IH.
Qed.

(** The test accepts the vertex itself when it is finite and the threshold
    is positive. *)
Lemma close_enough_refl :
  (0 <? VertexWelder.threshold self)%float = true ->
  finite_vector vertex = true ->
  VertexWelder.close_enough self vertex vertex = true.
Proof.
  intros Ht Hv. unfold finite_vector in Hv.
  apply andb_true_iff in Hv as [Hv Hz]. apply andb_true_iff in Hv as [Hx Hy].
  unfold VertexWelder.close_enough.
  rewrite (sub_diag _ Hx), (sub_diag _ Hy), (sub_diag _ Hz).
  change (abs 0) with 0%float. rewrite Ht. reflexivity.
Qed.

End Welder.

(** C4: for a welder with a positive threshold [t] and a finite vertex [v],
    the index [i] that [add(v)] returns is an index into the kept vertices
    with [|vertices[i].x - v.x| < t], [|vertices[i].y - v.y| < t] and
    [|vertices[i].z - v.z| < t]; on a miss it is the index of [v] itself,
    just appended. *)
Theorem add_returns_vertex_within_threshold self vertex index self' :
  (0 <? VertexWelder.threshold self)%float = true ->
  finite_vector vertex = true ->
  VertexWelder.add self vertex = Ok (index, self') ->
  exists p,
    nth_error (VertexWelder.vertices self') index = Some p /\
    (abs (Vector.x p - Vector.x vertex) <? VertexWelder.threshold self')%float = true /\
    (abs (Vector.y p - Vector.y vertex) <? VertexWelder.threshold self')%float = true /\
    (abs (Vector.z p - Vector.z vertex) <? VertexWelder.threshold self')%float = true.
Proof.
  intros Ht Hv H. unfold VertexWelder.add in H.
  do 6 (apply bind_ok in H as (? & _ & H)).
  apply bind_ok in H as (found & Hfound & H).
  assert (C : exists p,
             nth_error (VertexWelder.vertices self') index = Some p /\
             VertexWelder.close_enough self' vertex p = true /\
             VertexWelder.threshold self' = VertexWelder.threshold self).
  { destruct found as [i|].
    - injection H as <- <-.
      apply scan_cells_hit in Hfound as (p & Hp & Hc). eauto.
    - repeat (apply bind_ok in H as (? & _ & H)).
      injection H as <- <-. cbn [VertexWelder.vertices VertexWelder.threshold].
      exists vertex. split; [|split; [|reflexivity]].
      + rewrite length_app, Nat.add_sub. cbn [length].
        rewrite nth_error_app2 by lia.
        rewrite Nat.sub_diag. reflexivity.
      + unfold VertexWelder.close_enough.
        cbn [VertexWelder.threshold].
        exact (close_enough_refl self vertex Ht Hv). }
  destruct C as (p & Hp & Hc & _). exists p. split; [exact Hp|].
  unfold VertexWelder.close_enough in Hc.
  apply andb_true_iff in Hc as [Hc Hz]. apply andb_true_iff in Hc as [Hx Hy].
  rewrite (abs_sub_swap (Vector.x p)), (abs_sub_swap (Vector.y p)),
          (abs_sub_swap (Vector.z p)).
  auto.
Qed.

Lemma add_returns_vertex_within_threshold_witness :
  exists p,
    nth_error (VertexWelder.vertices sample_welder) 0 = Some p /\
    (abs (Vector.x p - 0.375) <? 0.5)%float = true /\
    (abs (Vector.y p - 0) <? 0.5)%float = true /\
    (abs (Vector.z p - 0) <? 0.5)%float = true.
Proof.
  apply (add_returns_vertex_within_threshold
           sample_welder (Vector.mk 0.375 0 0) 0 sample_welder);
    vm_compute; reflexivity.
Defined.

(* ================================================================== *)
(** * Octree nodes                                                     *)
(* ================================================================== *)

Section OctreeNode.

Variable triangles : list Triangle.t.
Variables max_triangles min_width : Z.

Lemma mapM_length {A B} (f : A -> outcome B) l bs :
  mapM f l = Ok bs -> length bs = length l.
Proof.
  revert bs. induction l as [|a l IH]; cbn [mapM]; intros bs H.
  - injection H as <-. reflexivity.
  - apply bind_ok in H as (b & _ & H). apply bind_ok in H as (bs' & Hbs & H).
    injection H as <-. cbn [length]. f_equal. now apply IH.
Qed.

(** The generator of [node] is an order-preserving filter. *)
Lemma overlapping_filter center half_width indices kept :
  Octree.overlapping triangles center half_width indices = Ok kept ->
  kept = filter (overlap_at triangles center half_width) indices.
Proof.
  revert kept. induction indices as [|i rest IH];
    cbn [Octree.overlapping filter]; intros kept H.
  - now injection H as <-.
  - apply bind_ok in H as (t & Ht & H). apply bind_ok in H as (rest' & Hr & H).
    injection H as <-. apply getitem_ok in Ht.
    unfold overlap_at at 1. rewrite Ht. rewrite (IH _ Hr). reflexivity.
Qed.

End OctreeNode.

(* ================================================================== *)
(** * Leaves and the cubes they were built for                         *)
(* ================================================================== *)

Section LeavesOverlap.

Lemma mapM_all2 {A B} (f : A -> outcome B) (g : A -> B -> bool) l bs :
  mapM f l = Ok bs ->
  (forall a b, In a l -> f a = Ok b -> g a b = true) ->
  all2 g l bs = true.
Proof.
  revert bs. induction l as [|a l IH]; cbn [mapM]; intros bs H Hg.
  - injection H as <-. reflexivity.
  - apply bind_ok in H as (b & Hb & H). apply bind_ok in H as (bs' & Hbs & H).
    injection H as <-. cbn [all2].
    rewrite (Hg a b (or_introl eq_refl) Hb). cbn [andb].
    apply IH; [exact Hbs|]. intros a' b' Hin. apply Hg. now right.
Qed.

Lemma mapM_Forall {A B} (f : A -> outcome B) (Q : B -> Prop) l bs :
  mapM f l = Ok bs ->
  (forall a b, In a l -> f a = Ok b -> Q b) ->
  Forall Q bs.
Proof.
  revert bs. induction l as [|a l IH]; cbn [mapM]; intros bs H Hq.
  - injection H as <-. constructor.
  - apply bind_ok in H as (b & Hb & H). apply bind_ok in H as (bs' & Hbs & H).
    injection H as <-. constructor.
    + exact (Hq a b (or_introl eq_refl) Hb).
    + apply IH; [exact Hbs|]. intros a' b' Hin. apply Hq. now right.
Qed.

Lemma all2_In_r {A B} (g : A -> B -> bool) l1 l2 b :
  all2 g l1 l2 = true -> In b l2 -> exists a, In a l1 /\ g a b = true.
Proof.
  revert l1. induction l2 as [|b' l2 IH]; intros l1 H Hin; [contradiction|].
  destruct l1 as [|a l1]; cbn [all2] in H; [discriminate|].
  apply andb_true_iff in H as [H1 H2]. destruct Hin as [->|Hin].
  - exists a. split; [now left|exact H1].
  - destruct (IH l1 H2 Hin) as (a' & Ha & Hg). exists a'. split; [now right|exact Hg].
Qed.

Variable triangles : list Triangle.t.
Variables max_triangles min_width : Z.

(** A node overlaps, leaf by leaf, the cubes [node] built it for. *)
Lemma node_leaves_overlap fuel base width indices nd :
  Octree.node triangles max_triangles min_width fuel base width indices = Ok nd ->
  leaves_overlap triangles base width nd = true.
Proof.
  revert base width indices nd.
  induction fuel as [|fuel IH]; intros base width indices nd H;
    cbn [Octree.node] in H; [discriminate|].
  apply bind_ok in H as (half_width & Hh & H).
  apply bind_ok in H as (kept & Hk & H).
  apply overlapping_filter in Hk.
  destruct ((max_triangles <? len kept) && float_ge_int half_width min_width).
  - apply bind_ok in H as (children & Hc & H). injection H as <-.
    cbn [leaves_overlap]. rewrite Hh.
    apply (mapM_all2 _ _ _ _ Hc). intros key child _ Hn. exact (IH _ _ _ _ Hn).
  - injection H as <-. cbn [leaves_overlap]. rewrite Hh.
    apply forallb_forall. intros i Hi. rewrite Hk in Hi.
    apply filter_In in Hi. exact (proj2 Hi).
Qed.

(** What a successful [build] returns. *)
Lemma build_ok log fuel o :
  Octree.build log fuel triangles max_triangles min_width = Ok o ->
  exists base ex ey ez children,
    0 <= Z.min ex (Z.min ey ez) /\
    let base_width := Z.min (2 ^ ex) (Z.min (2 ^ ey) (2 ^ ez)) in
    o = Octree.mk triangles max_triangles min_width base
          (2 ^ ex) (2 ^ ey) (2 ^ ez) base_width
          (2 ^ ex / base_width) (2 ^ ey / base_width) (2 ^ ez / base_width)
          children /\
    mapM (fun '(i, j, k) =>
            bx <- float_of_int (base_width * i) ;;
            by_ <- float_of_int (base_width * j) ;;
            bz <- float_of_int (base_width * k) ;;
            Octree.node triangles max_triangles min_width fuel
              (Vector.add base (Vector.mk bx by_ bz)) (Int base_width)
              (seq 0 (length triangles)))
         (grid (2 ^ ex / base_width) (2 ^ ey / base_width) (2 ^ ez / base_width))
    = Ok children.
Proof.
  unfold Octree.build. intros H.
  do 6 (apply bind_ok in H as (? & _ & H)).
  apply bind_ok in H as (ex & _ & H).
  apply bind_ok in H as (ey & _ & H).
  apply bind_ok in H as (ez & _ & H).
  destruct (Z.min ex (Z.min ey ez) <? 0) eqn:E; [discriminate|].
  apply Z.ltb_ge in E.
  apply bind_ok in H as (children & Hc & H). injection H as <-.
  eexists _, ex, ey, ez, children. split; [exact E|]. split; [reflexivity|].
  exact Hc.
Qed.

Lemma build_leaves_overlap log fuel o :
  Octree.build log fuel triangles max_triangles min_width = Ok o ->
  octree_leaves_overlap o = true.
Proof.
  intros H. apply build_ok in H as (base & ex & ey & ez & children & _ & -> & Hc).
  unfold octree_leaves_overlap.
  cbn [Octree.nx Octree.ny Octree.nz Octree.children Octree.triangles
       Octree.base_width].
  apply (mapM_all2 _ _ _ _ Hc). intros [[i j] k] nd _ Hn.
  unfold cell_base. cbn [Octree.base_width Octree.base].
  apply bind_ok in Hn as (bx & -> & Hn).
  apply bind_ok in Hn as (by_ & -> & Hn).
  apply bind_ok in Hn as (bz & -> & Hn).
  cbn [bind]. exact (node_leaves_overlap _ _ _ _ _ Hn).
Qed.

End LeavesOverlap.

(** C6, the claim as stated fails after flattening.  The mesh has one
    triangle in one octant and two in each of the other seven; with
    [max_triangles = 1] the single top-level node is flattened away twice.
    The finished grid is 4 by 4 by 4 with cells of side 2; its cell
    [(1, 1, 1)], the cube of centre [(4, 4, 4)] and half width 1, is the
    leaf holding triangle 0, reused from the first flattening, and triangle
    0 does not overlap that cube. *)
Lemma flattened_leaf_misses_its_cell :
  match Octree.init sample_log 10 flattened_mesh 1 1 with
  | Ok o =>
      (Octree.nx o, Octree.ny o, Octree.nz o) = (4, 4, 4) /\
      Octree.base_width o = 2 /\
      Octree.base o = Vector.mk 1 1 1 /\
      Octree.getitem_grid o (1, 1, 1) = Ok (Leaf [0%nat]) /\
      nth_error flattened_mesh 0 = Some (lower_triangle 1 1 1) /\
      tribox_overlap (lower_triangle 1 1 1) (Vector.mk 4 4 4) 1 = false /\
      octree_leaves_overlap o = false
  | _ => False
  end.
Proof. vm_compute. repeat split; reflexivity. Qed.

(* ================================================================== *)
(** * Termination of the top-level flattening                          *)
(* ================================================================== *)

Section PowersOfTwo.

Lemma spec_float_eqb_eq a b : spec_float_eqb a b = true -> a = b.
Proof.
  destruct a as [s|s| |s m e], b as [s'|s'| |s' m' e']; cbn; intros H;
    try discriminate; try reflexivity.
  - apply Bool.eqb_prop in H. now subst.
  - apply Bool.eqb_prop in H. now subst.
  - apply andb_true_iff in H as [H He]. apply andb_true_iff in H as [Hs Hm].
    apply Bool.eqb_prop in Hs. apply Pos.eqb_eq in Hm. apply Z.eqb_eq in He.
    now subst.
Qed.

Lemma halve_int_table : forallb halve_int_check (seq 0 1025) = true.
Proof. vm_compute. reflexivity. Qed.

Lemma halve_float_table : forallb halve_float_check (seq 0 1024) = true.
Proof. vm_compute. reflexivity. Qed.

Lemma halve_int_pow2 j :
  0 <= j <= 1024 ->
  halve (Int (2 ^ j)) = Ok (pow2f (j - 1)) /\
  Prim2SF (pow2f (j - 1)) = S754_finite false 4503599627370496 (j - 1 - 52).
Proof.
  intros Hj. pose proof halve_int_table as T.
  rewrite forallb_forall in T. specialize (T (Z.to_nat j)).
  unfold halve_int_check in T. rewrite Z2Nat.id in T by lia.
  assert (I : In (Z.to_nat j) (seq 0 1025)) by (apply in_seq; lia).
  specialize (T I). apply andb_true_iff in T as [T1 T2].
  split; [|now apply spec_float_eqb_eq].
  destruct (halve (Int (2 ^ j))) as [f| |]; try discriminate.
  apply Leibniz.eqb_spec in T1. now subst.
Qed.

Lemma halve_float_pow2 j :
  0 <= j <= 1023 -> halve (Float (pow2f j)) = Ok (pow2f (j - 1)).
Proof.
  intros Hj. pose proof halve_float_table as T.
  rewrite forallb_forall in T. specialize (T (Z.to_nat j)).
  unfold halve_float_check in T. rewrite Z2Nat.id in T by lia.
  assert (I : In (Z.to_nat j) (seq 0 1024)) by (apply in_seq; lia).
  specialize (T I). apply Leibniz.eqb_spec in T.
  cbn [halve]. now rewrite T.
Qed.

(** A half width [2^(j-1)] that is at least a positive [min_width] leaves
    room for two cubes of that width in a cube of side [2^j]. *)
Lemma pow2f_ge_int j min_width :
  0 <= j <= 1024 -> 1 <= min_width ->
  float_ge_int (pow2f (j - 1)) min_width = true ->
  2 * min_width <= 2 ^ j.
Proof.
  intros Hj Hm H. destruct (halve_int_pow2 j Hj) as [_ P].
  unfold float_ge_int, compare_float_int in H. rewrite P in H.
  cbn [signed] in H.
  change (Z.pos 4503599627370496) with (2 ^ 52) in H.
  destruct (0 <=? j - 1 - 52) eqn:E.
  - apply Z.leb_le in E.
    assert (L : min_width <= 2 ^ 52 * 2 ^ (j - 1 - 52)).
    { destruct (2 ^ 52 * 2 ^ (j - 1 - 52) ?= min_width) eqn:C;
        try discriminate.
      - apply Z.compare_eq in C. lia.
      - apply Z.compare_gt_iff in C. lia. }
    rewrite <- Z.pow_add_r in L by lia.
    replace j with (1 + (52 + (j - 1 - 52))) at 1 by lia.
    rewrite (Z.pow_add_r 2 1) by lia. lia.
  - apply Z.leb_gt in E.
    assert (L : min_width * 2 ^ (- (j - 1 - 52)) <= 2 ^ 52).
    { destruct (2 ^ 52 ?= min_width * 2 ^ (- (j - 1 - 52))) eqn:C;
        try discriminate.
      - apply Z.compare_eq in C. lia.
      - apply Z.compare_gt_iff in C. lia. }
    assert (P2 : 0 < 2 ^ (- (j - 1 - 52))) by (apply Z.pow_pos_nonneg; lia).
    assert (S : 2 ^ j * 2 ^ (- (j - 1 - 52)) = 2 * 2 ^ 52).
    { rewrite <- Z.pow_add_r by lia.
      replace (j + - (j - 1 - 52)) with (1 + 52) by lia.
      rewrite Z.pow_add_r by lia. reflexivity. }
    apply (Z.mul_le_mono_pos_r _ _ (2 ^ (- (j - 1 - 52)))); [exact P2|]. lia.
Qed.

End PowersOfTwo.

Section Grid.

Lemma range_In x a b : In x (range a b) <-> a <= x < b.
Proof.
  unfold range. rewrite in_map_iff. split.
  - intros (k & <- & Hk). apply in_seq in Hk. lia.
  - intros H. exists (Z.to_nat (x - a)). split; [lia|apply in_seq; lia].
Qed.

Lemma grid_In i j k a b c :
  In (i, j, k) (grid a b c) <-> 0 <= i < a /\ 0 <= j < b /\ 0 <= k < c.
Proof.
  unfold grid. rewrite in_flat_map. split.
  - intros (k' & Hk & H). apply in_flat_map in H as (j' & Hj & H).
    apply in_map_iff in H as (i' & E & Hi). injection E as -> -> ->.
    apply range_In in Hi, Hj, Hk. lia.
  - intros (Hi & Hj & Hk). exists k. split; [apply range_In; lia|].
    apply in_flat_map. exists j. split; [apply range_In; lia|].
    apply in_map_iff. exists i. split; [reflexivity|apply range_In; lia].
Qed.

Lemma length_range a b : length (range a b) = Z.to_nat (b - a).
Proof. unfold range. now rewrite length_map, length_seq. Qed.

Lemma length_flat_map_const {A B} (f : A -> list B) l n :
  (forall a, length (f a) = n) -> length (flat_map f l) = (length l * n)%nat.
Proof.
  intros Hf. induction l as [|a l IH]; cbn [flat_map length]; [reflexivity|].
  rewrite length_app, Hf, IH. lia.
Qed.

Lemma grid_length a b c :
  0 <= a -> 0 <= b -> 0 <= c ->
  length (grid a b c) = Z.to_nat (a * b * c).
Proof.
  intros Ha Hb Hc. unfold grid.
  rewrite (length_flat_map_const _ _ (Z.to_nat b * Z.to_nat a)%nat).
  - rewrite length_range, !Z2Nat.inj_mul, Z.sub_0_r by lia. lia.
  - intros k. rewrite (length_flat_map_const _ _ (Z.to_nat a)).
    + now rewrite length_range, Z.sub_0_r.
    + intros j. now rewrite length_map, length_range, Z.sub_0_r.
Qed.

Lemma mapM_ok {A B} (f : A -> outcome B) l :
  (forall a, In a l -> exists b, f a = Ok b) -> exists bs, mapM f l = Ok bs.
Proof.
  induction l as [|a l IH]; intros H; cbn [mapM].
  - now exists [].
  - destruct (H a (or_introl eq_refl)) as (b & ->).
    destruct IH as (bs & ->); [intros a' Ha; apply H; now right|].
    now exists (b :: bs).
Qed.

Lemma mapM_In {A B} (f : A -> outcome B) l bs a :
  mapM f l = Ok bs -> In a l -> exists b, f a = Ok b.
Proof.
  revert bs. induction l as [|a' l IH]; intros bs H Hin; [contradiction|].
  cbn [mapM] in H. apply bind_ok in H as (b & Hb & H).
  apply bind_ok in H as (bs' & Hbs & _). destruct Hin as [->|Hin].
  - now exists b.
  - now apply (IH bs').
Qed.

Lemma min_pow2 a b : 0 <= a -> 0 <= b -> Z.min (2 ^ a) (2 ^ b) = 2 ^ Z.min a b.
Proof.
  intros Ha Hb. destruct (Z.le_ge_cases a b) as [L|L].
  - rewrite (Z.min_l a b) by exact L. apply Z.min_l.
    apply Z.pow_le_mono_r; lia.
  - rewrite (Z.min_r a b) by exact L. apply Z.min_r.
    apply Z.pow_le_mono_r; lia.
Qed.

Lemma has_branch children :
  0 < Octree.branch_count children -> exists cs, In (Branch cs) children.
Proof.
  unfold Octree.branch_count, len.
  induction children as [|nd children IH]; cbn [filter length]; [lia|].
  destruct nd as [indices|cs]; cbn [is_leaf negb].
  - intros H. destruct (IH H) as (cs & Hc). exists cs. now right.
  - intros _. exists cs. now left.
Qed.

Lemma no_branch children :
  (forall cs, ~ In (Branch cs) children) -> Octree.branch_count children = 0.
Proof.
  intros H. destruct (Z.eq_dec (Octree.branch_count children) 0) as [E|E];
    [exact E|exfalso].
  assert (P : 0 < Octree.branch_count children).
  { unfold Octree.branch_count, len in *. lia. }
  destruct (has_branch _ P) as (cs & Hc). exact (H cs Hc).
Qed.

End Grid.

Section Flattening.

Variable triangles : list Triangle.t.
Variables max_triangles min_width : Z.
Hypothesis min_width_positive : 1 <= min_width.

Lemma node_sized fuel base width indices nd :
  Octree.node triangles max_triangles min_width fuel base width indices = Ok nd ->
  sized min_width width nd.
Proof.
  revert base width indices nd.
  induction fuel as [|fuel IH]; intros base width indices nd H;
    cbn [Octree.node] in H; [discriminate|].
  apply bind_ok in H as (half_width & Hh & H).
  apply bind_ok in H as (kept & _ & H).
  destruct ((max_triangles <? len kept) && float_ge_int half_width min_width)
    eqn:C.
  - apply bind_ok in H as (children & Hc & H). injection H as <-.
    apply andb_true_iff in C as [_ C].
    apply (sized_branch _ _ half_width); [exact Hh|exact C| |].
    + now rewrite (mapM_length _ _ _ Hc).
    + apply (mapM_Forall _ _ _ _ Hc). intros key child _ Hn.
      exact (IH _ _ _ _ Hn).
  - injection H as <-. constructor.
Qed.

(** The octree as built satisfies the invariant. *)
Lemma build_invariant log fuel o :
  Octree.build log fuel triangles max_triangles min_width = Ok o ->
  loop_invariant min_width o.
Proof.
  intros H. apply build_ok in H as (base & ex & ey & ez & children & E & -> & Hc).
  cbv zeta in Hc.
  assert (Hx : 0 <= ex) by lia. assert (Hy : 0 <= ey) by lia.
  assert (Hz : 0 <= ez) by lia.
  rewrite !min_pow2 in * by lia.
  set (m := Z.min ex (Z.min ey ez)) in *.
  assert (Pm : 0 < 2 ^ m) by (apply Z.pow_pos_nonneg; lia).
  assert (Nx : 0 < 2 ^ ex / 2 ^ m).
  { apply Z.div_str_pos. split; [exact Pm|]. apply Z.pow_le_mono_r; lia. }
  assert (Ny : 0 < 2 ^ ey / 2 ^ m).
  { apply Z.div_str_pos. split; [exact Pm|]. apply Z.pow_le_mono_r; lia. }
  assert (Nz : 0 < 2 ^ ez / 2 ^ m).
  { apply Z.div_str_pos. split; [exact Pm|]. apply Z.pow_le_mono_r; lia. }
  unfold loop_invariant.
  cbn [Octree.nx Octree.ny Octree.nz Octree.children Octree.base_width].
  repeat split; try assumption.
  - rewrite (mapM_length _ _ _ Hc). apply grid_length; lia.
  - assert (I : In (0, 0, 0) (grid (2 ^ ex / 2 ^ m) (2 ^ ey / 2 ^ m)
                                   (2 ^ ez / 2 ^ m))) by (apply grid_In; lia).
    destruct (mapM_In _ _ _ _ Hc I) as (nd & Hn).
    apply bind_ok in Hn as (bx & _ & Hn). apply bind_ok in Hn as (by_ & _ & Hn).
    apply bind_ok in Hn as (bz & _ & Hn).
    destruct fuel as [|fuel]; [discriminate|]. cbn [Octree.node] in Hn.
    apply bind_ok in Hn as (half_width & Hh & _).
    assert (M : m <= 1024).
    { destruct (Z.le_gt_cases m 1024) as [L|L]; [exact L|exfalso].
      cbn [halve] in Hh.
      assert (B : 2 * overflow_threshold <= Z.abs (2 ^ m)).
      { rewrite Z.abs_eq by lia.
        apply Z.le_trans with (2 ^ 1025); [vm_compute; discriminate|].
        apply Z.pow_le_mono_r; lia. }
      apply Z.leb_le in B. rewrite B in Hh. discriminate. }
    exists m, (Int (2 ^ m)). split; [lia|]. split; [reflexivity|].
    split; [apply halve_int_pow2; lia|].
    apply (mapM_Forall _ _ _ _ Hc). intros [[i j] k] nd' _ Hn'.
    apply bind_ok in Hn' as (? & _ & Hn'). apply bind_ok in Hn' as (? & _ & Hn').
    apply bind_ok in Hn' as (? & _ & Hn'). exact (node_sized _ _ _ _ _ Hn').
Qed.

(** A branch in the top-level grid needs cells of side at least
    [2*min_width]. *)
Lemma branch_needs_room o cs :
  loop_invariant min_width o -> In (Branch cs) (Octree.children o) ->
  exists j, 1 <= j <= 1024 /\ Octree.base_width o = 2 ^ j /\
            2 * min_width <= 2 ^ j.
Proof.
  intros (_ & _ & _ & _ & j & width & Hj & Hb & Hh & Hs) Hin.
  rewrite Forall_forall in Hs. specialize (Hs _ Hin).
  inversion Hs as [|w hw children Hh' Hge _ _]; subst.
  rewrite Hh in Hh'. injection Hh' as <-.
  pose proof (pow2f_ge_int j min_width Hj min_width_positive Hge) as R.
  exists j. split; [|split; [exact Hb|exact R]].
  destruct (Z.eq_dec j 0) as [->|]; [change (2 ^ 0) with 1 in R; lia|lia].
Qed.

Lemma branch_count_le children :
  0 <= Octree.branch_count children <= len children.
Proof.
  unfold Octree.branch_count, len.
  pose proof (filter_length_le (fun nd => negb (is_leaf nd)) children). lia.
Qed.

Lemma overflow_threshold_large : 2 <= overflow_threshold.
Proof. vm_compute. discriminate. Qed.

Lemma flatten_test_total o :
  loop_invariant min_width o ->
  Octree.flatten_test o
  = Ok (Octree.nx o * Octree.ny o * Octree.nz o * (7 * 2 ^ 51 - 1)
        <=? Octree.branch_count (Octree.children o) * 2 ^ 54).
Proof.
  intros (Hx & Hy & Hz & Hl & _). unfold Octree.flatten_test.
  pose proof (Z.mul_pos_pos _ _ (Z.mul_pos_pos _ _ Hx Hy) Hz) as Ht.
  pose proof (branch_count_le (Octree.children o)) as Hc.
  unfold len in Hc. rewrite Hl, Z2Nat.id in Hc by lia.
  set (total := Octree.nx o * Octree.ny o * Octree.nz o) in *.
  set (count := Octree.branch_count (Octree.children o)) in *.
  destruct (Z.eqb_spec total 0) as [E|_]; [lia|].
  pose proof overflow_threshold_large as Ho.
  destruct (Z.leb_spec (overflow_threshold * Z.abs total) count) as [O|_].
  - rewrite Z.abs_eq in O by lia.
    assert (2 * total <= overflow_threshold * total)
      by (apply Z.mul_le_mono_nonneg_r; lia).
    lia.
  - destruct (Z.ltb_spec 0 total); [reflexivity|lia].
Qed.

(** Without a branch in the grid the loop stops. *)
Lemma flatten_test_false o :
  loop_invariant min_width o ->
  (forall cs, ~ In (Branch cs) (Octree.children o)) ->
  Octree.branch_count (Octree.children o) = 0 /\
  Octree.flatten_test o = Ok false.
Proof.
  intros I H. pose proof (no_branch _ H) as B. split; [exact B|].
  rewrite (flatten_test_total o I), B.
  destruct I as (Hx & Hy & Hz & _). f_equal. apply Z.leb_gt.
  pose proof (Z.mul_pos_pos _ _ (Z.mul_pos_pos _ _ Hx Hy) Hz).
  rewrite Z.mul_0_l. apply Z.mul_pos_pos; [assumption|reflexivity].
Qed.

Lemma flatten_test_true_branch o :
  loop_invariant min_width o -> Octree.flatten_test o = Ok true ->
  exists cs, In (Branch cs) (Octree.children o).
Proof.
  intros I H. rewrite (flatten_test_total o I) in H.
  destruct (Octree.nx o * Octree.ny o * Octree.nz o * (7 * 2 ^ 51 - 1)
            <=? Octree.branch_count (Octree.children o) * 2 ^ 54) eqn:T;
    [clear H|discriminate H].
  apply Z.leb_le in T. destruct I as (Hx & Hy & Hz & _).
  pose proof (Z.mul_pos_pos _ _ (Z.mul_pos_pos _ _ Hx Hy) Hz) as Ht.
  apply has_branch.
  assert (P : 0 < Octree.nx o * Octree.ny o * Octree.nz o * (7 * 2 ^ 51 - 1))
    by (apply Z.mul_pos_pos; [assumption|reflexivity]).
  destruct (Z.leb_spec (Octree.branch_count (Octree.children o)) 0) as [N|N];
    [|exact N].
  assert (Octree.branch_count (Octree.children o) * 2 ^ 54 <= 0 * 2 ^ 54)
    by (apply Z.mul_le_mono_nonneg_r; [discriminate|exact N]).
  lia.
Qed.

(** Under the invariant an iteration of the loop raises nothing. *)
Lemma flatten_step_ok o :
  loop_invariant min_width o -> exists o', Octree.flatten_step o = Ok o'.
Proof.
  intros (Hx & Hy & Hz & Hl & j & width & _ & _ & _ & Hs).
  unfold Octree.flatten_step.
  destruct (mapM_ok
              (fun '(i, j, k) =>
                 top <- Octree.getitem_grid o (i / 2, j / 2, k / 2) ;;
                 Node_getitem top (i mod 2, j mod 2, k mod 2))
              (grid (2 * Octree.nx o) (2 * Octree.ny o) (2 * Octree.nz o)))
    as (children' & ->); [|cbn [bind]; eauto].
  intros [[i j'] k] Hin. apply grid_In in Hin as (Hi & Hj & Hk).
  unfold Octree.getitem_grid, getitem.
  pose proof (Z.div_pos i 2). pose proof (Z.div_pos j' 2).
  pose proof (Z.div_pos k 2).
  assert (i / 2 < Octree.nx o) by (apply Z.div_lt_upper_bound; lia).
  assert (j' / 2 < Octree.ny o) by (apply Z.div_lt_upper_bound; lia).
  assert (k / 2 < Octree.nz o) by (apply Z.div_lt_upper_bound; lia).
  destruct (nth_error (Octree.children o)
              (Z.to_nat (i / 2 + Octree.nx o * (j' / 2 + Octree.ny o * (k / 2)))))
    as [top|] eqn:T.
  - cbn [bind]. rewrite Forall_forall in Hs.
    pose proof (Hs _ (nth_error_In _ _ T)) as St.
    destruct top as [indices|cs]; cbn [Node_getitem]; [eauto|].
    inversion St as [|w hw children _ _ L8 _]; subst.
    unfold getitem.
    pose proof (Z.mod_pos_bound i 2). pose proof (Z.mod_pos_bound j' 2).
    pose proof (Z.mod_pos_bound k 2).
    destruct (nth_error cs
                (Z.to_nat (i mod 2 + 2 * (j' mod 2 + 2 * (k mod 2)))))
      as [child|] eqn:C; [eauto|].
    apply nth_error_None in C. lia.
  - apply nth_error_None in T. rewrite Hl in T. exfalso.
    set (a := Octree.nx o) in *. set (b := Octree.ny o) in *.
    set (c := Octree.nz o) in *.
    assert (A1 : b * (k / 2) <= b * (c - 1))
      by (apply Z.mul_le_mono_nonneg_l; lia).
    assert (A2 : 0 <= b * (k / 2)) by (apply Z.mul_nonneg_nonneg; lia).
    assert (A3 : a * (j' / 2 + b * (k / 2)) <= a * (b * c - 1))
      by (apply Z.mul_le_mono_nonneg_l; lia).
    assert (A4 : 0 <= a * (j' / 2 + b * (k / 2)))
      by (apply Z.mul_nonneg_nonneg; lia).
    assert (A5 : 0 < a * b * c)
      by (apply Z.mul_pos_pos; [apply Z.mul_pos_pos|]; lia).
    apply Nat2Z.inj_le in T. rewrite !Z2Nat.id in T by lia. lia.
Qed.

(** An iteration that the test allowed halves the side of the cells,
    doubles the three dimensions of the grid, and keeps the invariant. *)
Lemma flatten_step_invariant o o' :
  loop_invariant min_width o ->
  Octree.flatten_test o = Ok true ->
  Octree.flatten_step o = Ok o' ->
  loop_invariant min_width o' /\
  2 * Octree.base_width o' = Octree.base_width o /\
  Octree.nx o' = 2 * Octree.nx o /\
  Octree.ny o' = 2 * Octree.ny o /\
  Octree.nz o' = 2 * Octree.nz o.
Proof.
  intros I T H.
  destruct (flatten_test_true_branch o I T) as (cs & Hcs).
  destruct (branch_needs_room o cs I Hcs) as (j1 & Hj1 & Hb1 & _).
  destruct I as (Hx & Hy & Hz & Hl & j & width & Hj & Hb & Hh & Hs).
  assert (j1 = j).
  { rewrite Hb in Hb1. apply (Z.pow_inj_r 2) in Hb1; lia. }
  subst j1.
  unfold Octree.flatten_step in H.
  apply bind_ok in H as (children' & Hc & H). injection H as <-.
  cbn [Octree.nx Octree.ny Octree.nz Octree.children Octree.base_width].
  assert (P : 2 ^ j = 2 * 2 ^ (j - 1)).
  { replace j with (1 + (j - 1)) at 1 by lia.
    rewrite Z.pow_add_r by lia. reflexivity. }
  assert (D : 2 ^ j / 2 = 2 ^ (j - 1)).
  { rewrite P, Z.mul_comm. apply Z.div_mul. lia. }
  rewrite Hb, D.
  split; [|repeat split; lia].
  unfold loop_invariant.
  cbn [Octree.nx Octree.ny Octree.nz Octree.children Octree.base_width].
  repeat split; try lia.
  - rewrite (mapM_length _ _ _ Hc), grid_length by lia. f_equal. lia.
  - exists (j - 1), (Float (pow2f (j - 1))).
    split; [lia|]. split; [reflexivity|].
    split; [apply halve_float_pow2; lia|].
    apply (mapM_Forall _ _ _ _ Hc). intros [[i j'] k] child _ Hn.
    apply bind_ok in Hn as (top & Ht & Hn).
    unfold Octree.getitem_grid in Ht. apply getitem_ok in Ht.
    rewrite Forall_forall in Hs. pose proof (Hs _ (nth_error_In _ _ Ht)) as St.
    destruct top as [indices|cs']; cbn [Node_getitem] in Hn.
    + injection Hn as <-. constructor.
    + inversion St as [|w hw children Hh' _ _ Hch]; subst.
      rewrite Hh in Hh'. injection Hh' as <-.
      apply getitem_ok in Hn. rewrite Forall_forall in Hch.
      exact (Hch _ (nth_error_In _ _ Hn)).
Qed.

(** An iteration lowers the height of the grid's nodes. *)
Lemma flatten_step_height n o o' :
  Forall (fun nd => (height nd <= S n)%nat) (Octree.children o) ->
  Octree.flatten_step o = Ok o' ->
  Forall (fun nd => (height nd <= n)%nat) (Octree.children o').
Proof.
  intros Hh H. unfold Octree.flatten_step in H.
  apply bind_ok in H as (children' & Hc & H). injection H as <-.
  cbn [Octree.children].
  apply (mapM_Forall _ _ _ _ Hc). intros [[i j] k] child _ Hn.
  apply bind_ok in Hn as (top & Ht & Hn).
  unfold Octree.getitem_grid in Ht. apply getitem_ok in Ht.
  rewrite Forall_forall in Hh. pose proof (Hh _ (nth_error_In _ _ Ht)) as Le.
  destruct top as [indices|cs]; cbn [Node_getitem] in Hn.
  - injection Hn as <-. cbn [height]. lia.
  - apply getitem_ok in Hn. apply nth_error_In in Hn.
    cbn [height] in Le. apply le_S_n in Le.
    apply list_max_le in Le. rewrite Forall_forall in Le.
    apply Le. apply in_map_iff. now exists child.
Qed.

(** The loop ends, with a result, after at most as many iterations as the
    grid's nodes are high. *)
Lemma flatten_terminates n :
  forall o,
    loop_invariant min_width o ->
    Forall (fun nd => (height nd <= n)%nat) (Octree.children o) ->
    exists o', forall fuel, (n < fuel)%nat -> Octree.flatten fuel o = Ok o'.
Proof.
  induction n as [|n IH]; intros o I Hh.
  - exists o. intros [|fuel] Hf; [lia|]. cbn [Octree.flatten].
    destruct (flatten_test_false o I) as [_ ->]; [|reflexivity].
    intros cs Hc. rewrite Forall_forall in Hh. specialize (Hh _ Hc).
    cbn [height] in Hh. lia.
  - pose proof (flatten_test_total o I) as Tt.
    destruct (_ <=? _) eqn:T in Tt.
    + assert (T' : Octree.flatten_test o = Ok true) by exact Tt.
      destruct (flatten_step_ok o I) as (o1 & H1).
      destruct (flatten_step_invariant o o1 I T' H1) as (I1 & _).
      destruct (IH o1 I1 (flatten_step_height n o o1 Hh H1)) as (o' & Ho').
      exists o'. intros [|fuel] Hf; [lia|]. cbn [Octree.flatten].
      rewrite T', H1. cbn [bind]. apply Ho'. lia.
    + exists o. intros [|fuel] Hf; [lia|]. cbn [Octree.flatten].
      rewrite Tt. reflexivity.
Qed.

Lemma loop_state_invariant o o1 :
  loop_invariant min_width o -> loop_state o o1 -> loop_invariant min_width o1.
Proof.
  intros I H. induction H as [|o1 o2 _ IH T S]; [exact I|].
  exact (proj1 (flatten_step_invariant o1 o2 IH T S)).
Qed.

End Flattening.

(** C9: for a positive integer [min_width] the top-level flattening loop
    of an octree that was built (so the triangle list is not empty)
    terminates with a result; each of its iterations halves [base_width]
    and doubles [nx], [ny] and [nz]; and in every state the loop reaches,
    once [base_width < 2*min_width] no top-level node is a branch, the
    branch ratio is 0 and the loop test fails. *)
Theorem flattening_terminates
    log fuel triangles max_triangles min_width o :
  1 <= min_width ->
  Octree.build log fuel triangles max_triangles min_width = Ok o ->
  (exists n o', forall fuel', (n < fuel')%nat -> Octree.flatten fuel' o = Ok o') /\
  (forall o1 o2,
     loop_state o o1 ->
     Octree.flatten_test o1 = Ok true ->
     Octree.flatten_step o1 = Ok o2 ->
     2 * Octree.base_width o2 = Octree.base_width o1 /\
     Octree.nx o2 = 2 * Octree.nx o1 /\
     Octree.ny o2 = 2 * Octree.ny o1 /\
     Octree.nz o2 = 2 * Octree.nz o1) /\
  (forall o1,
     loop_state o o1 ->
     Octree.base_width o1 < 2 * min_width ->
     (forall cs, ~ In (Branch cs) (Octree.children o1)) /\
     Octree.branch_count (Octree.children o1) = 0 /\
     Octree.flatten_test o1 = Ok false).
Proof.
  intros Hm Hb.
  pose proof (build_invariant triangles max_triangles min_width log fuel o Hb)
    as I.
  split; [|split].
  - exists (list_max (map height (Octree.children o))).
    apply (flatten_terminates min_width Hm); [exact I|].
    apply Forall_forall. intros nd Hn.
    assert (L : Forall (fun k => (k <= list_max (map height (Octree.children o)))%nat)
                  (map height (Octree.children o)))
      by (apply list_max_le; lia).
    rewrite Forall_forall in L. apply L. apply in_map_iff. now exists nd.
  - intros o1 o2 L T S.
    exact (proj2 (flatten_step_invariant min_width Hm o1 o2
                    (loop_state_invariant min_width Hm o o1 I L) T S)).
  - intros o1 L W.
    pose proof (loop_state_invariant min_width Hm o o1 I L) as I1.
    assert (N : forall cs, ~ In (Branch cs) (Octree.children o1)).
    { intros cs Hc.
      destruct (branch_needs_room min_width Hm o1 cs I1 Hc) as (j & _ & E & R).
      lia. }
    split; [exact N|]. exact (flatten_test_false min_width o1 I1 N).
Qed.

Lemma flattening_terminates_witness :
  exists n o',
    forall fuel', (n < fuel')%nat -> Octree.flatten fuel' built_mesh = Ok o'.
Proof.
  apply (proj1 (flattening_terminates sample_log 10 flattened_mesh 1 1
                  built_mesh ltac:(lia) ltac:(vm_compute; reflexivity))).
Defined.

(* ================================================================== *)
(** * Streams and packed bytes                                         *)
(* ================================================================== *)

Section Streams.

Lemma endianess_write s bs : endianess (write s bs) = endianess s.
Proof. destruct bs; reflexivity. Qed.

Lemma write_nil s : write s [] = s.
Proof. reflexivity. Qed.

Lemma write_cons s b bs :
  write s (b :: bs)
  = mkStream (endianess s)
      (firstn (position s) (data s)
         ++ repeat x00 (position s - length (data s)) ++ (b :: bs)
         ++ skipn (position s + length (b :: bs)) (data s))
      (position s + length (b :: bs)).
Proof. reflexivity. Qed.

Lemma length_prefix (d : list byte) p :
  length (firstn p d ++ repeat x00 (p - length d)) = p.
Proof. rewrite length_app, length_firstn, repeat_length. lia. Qed.

(** Two writes in a row are one write of the two byte strings. *)
Lemma write_app s a b : write (write s a) b = write s (a ++ b).
Proof.
  destruct a as [|x a]; [reflexivity|].
  destruct b as [|y b]; [now rewrite app_nil_r|].
  change ((x :: a) ++ y :: b) with (x :: (a ++ y :: b)).
  rewrite (write_cons s x a), (write_cons s x (a ++ y :: b)), write_cons.
  cbn [endianess data position].
  set (d := data s). set (p := position s).
  set (pre := firstn p d ++ repeat x00 (p - length d)).
  assert (Lp : length pre = p) by apply length_prefix.
  assert (E : firstn p d ++ repeat x00 (p - length d) ++ (x :: a)
                ++ skipn (p + length (x :: a)) d
              = (pre ++ x :: a) ++ skipn (p + length (x :: a)) d).
  { unfold pre. now rewrite <- !app_assoc. }
  rewrite E. clear E.
  assert (L1 : length (pre ++ x :: a) = (p + length (x :: a))%nat)
    by (rewrite length_app; lia).
  f_equal.
  - rewrite <- L1 at 1. rewrite firstn_app, firstn_all, Nat.sub_diag.
    cbn [firstn]. rewrite app_nil_r.
    replace (p + length (x :: a)
             - length ((pre ++ x :: a) ++ skipn (p + length (x :: a)) d))%nat
      with 0%nat by (rewrite length_app; lia).
    cbn [repeat app].
    rewrite skipn_app, L1.
    replace (p + length (x :: a) + length (y :: b) - (p + length (x :: a)))%nat
      with (length (y :: b)) by lia.
    rewrite (skipn_all2 (pre ++ x :: a)) by lia.
    rewrite skipn_skipn. cbn [app].
    unfold pre. rewrite <- !app_assoc. cbn [app length].
    do 4 f_equal. rewrite length_app. cbn [length].
    do 3 f_equal. lia.
  - cbn [length]. rewrite length_app. cbn [length]. lia.
Qed.

(** What [basic_pack] does when it raises nothing. *)
Lemma basic_pack_ok t v s s' :
  basic_pack t v s = (Ok tt, s') ->
  exists bs, basic_bytes (endianess s) t v = Ok bs /\ s' = write s bs.
Proof.
  unfold basic_pack. destruct (basic_bytes (endianess s) t v) as [bs| |];
    intros H; try discriminate.
  injection H as <-. now exists bs.
Qed.

Lemma iobind_ok {A B} (m : IO A) (k : A -> IO B) s b s' :
  iobind m k s = (Ok b, s') ->
  exists a s1, m s = (Ok a, s1) /\ k a s1 = (Ok b, s').
Proof.
  unfold iobind. destruct (m s) as [[a| |] s1]; intros H; try discriminate.
  now exists a, s1.
Qed.

Lemma lift_ok {A} (m : outcome A) s a s' :
  lift m s = (Ok a, s') -> m = Ok a /\ s' = s.
Proof. unfold lift. intros H. injection H as -> <-. now split. Qed.

(** A successful [Struct.pack] writes the bytes of the value. *)
Lemma pack_ok : forall t v s s',
  btypes.pack t v s = (Ok tt, s') ->
  exists bs, bytes_of (endianess s) t v = Ok bs /\ s' = write s bs.
Proof.
  fix IH 1. intros [b|fields] v s s' H.
  - now apply basic_pack_ok.
  - cbn [btypes.pack bytes_of] in *.
    revert s s' H. induction fields as [|[name ft] rest IHf]; intros s s' H.
    + injection H as <-. now exists [].
    + apply iobind_ok in H as (a & s1 & H1 & H).
      apply lift_ok in H1 as [Ha ->].
      apply iobind_ok in H as ([] & s2 & H2 & H).
      apply IH in H2 as (bs & Hb & ->).
      apply IHf in H as (bs' & Hb' & ->).
      rewrite endianess_write in Hb'.
      cbn beta match fix. rewrite Ha. cbn [bind]. rewrite Hb. cbn [bind].
      rewrite Hb'. cbn [bind].
      exists (bs ++ bs'). split; [reflexivity|apply write_app].
Qed.

Lemma length_le_bytes n z : length (le_bytes n z) = n.
Proof.
  revert z. induction n as [|n IH]; intros z; cbn [le_bytes length];
    [reflexivity|now rewrite IH].
Qed.

Lemma length_order e bs : length (order e bs) = length bs.
Proof. destruct e; cbn [order]; [reflexivity|apply length_rev]. Qed.

Lemma length_basic_bytes e t v bs :
  basic_bytes e t v = Ok bs -> length bs = calcsize t.
Proof.
  assert (I : forall n, int_bytes e t n = Ok bs -> length bs = calcsize t).
  { intros n. unfold int_bytes. destruct (_ && _); intros H; [|discriminate].
    injection H as <-. now rewrite length_order, length_le_bytes. }
  assert (F : forall w : outcome Z,
             (w' <- w ;; Ok (order e (le_bytes 4 w'))) = Ok bs ->
             length bs = 4%nat).
  { intros w H. apply bind_ok in H as (w' & _ & H).
    assert (E : bs = order e (le_bytes 4 w')) by congruence.
    now rewrite E, length_order, length_le_bytes. }
  unfold basic_bytes.
  destruct t, v as [n|f|attrs]; intros H; try discriminate;
    try (now apply (I n)); try (now apply (F _ H)).
  apply bind_ok in H as (f & _ & H). now apply (F _ H).
Qed.

(** The packed size of a value is the size of its type. *)
Lemma length_bytes_of : forall e t v bs,
  bytes_of e t v = Ok bs -> length bs = sizeof t.
Proof.
  fix IH 2. intros e [b|fields] v bs H.
  - now apply (length_basic_bytes e b v).
  - cbn [bytes_of sizeof] in *.
    assert (G : forall acc,
               fold_left Nat.add (map (fun f => sizeof (snd f)) fields) acc
               = (acc + length bs)%nat).
    { revert bs H. induction fields as [|[name ft] rest IHf]; intros bs H acc.
      - injection H as <-. cbn. lia.
      - apply bind_ok in H as (a & _ & H). apply bind_ok in H as (b1 & H1 & H).
        apply bind_ok in H as (b2 & H2 & H). injection H as <-.
        cbn [map fold_left snd]. rewrite (IHf _ H2), length_app.
        rewrite (IH _ _ _ _ H1). lia. }
    now rewrite G.
Qed.

(** A successful loop of [Struct.pack] writes the values' bytes in a row. *)
Lemma for_each_pack_ok {A} t (obj : A -> Value) l s s' :
  for_each (fun a => btypes.pack t (obj a)) l s = (Ok tt, s') ->
  exists bs,
    bytes_of_all (endianess s) t (map obj l) = Ok bs /\ s' = write s bs /\
    length bs = (length l * sizeof t)%nat.
Proof.
  unfold bytes_of_all. revert s s'.
  induction l as [|a l IH]; intros s s' H; cbn [for_each map mapM] in *.
  - injection H as <-. now exists [].
  - apply iobind_ok in H as ([] & s1 & H1 & H).
    apply pack_ok in H1 as (bs & Hb & ->).
    apply IH in H as (bs' & Hb' & -> & Hl).
    rewrite endianess_write in Hb'.
    apply bind_ok in Hb' as (bss & Hbss & Hc). injection Hc as <-.
    rewrite Hb, Hbss. cbn [bind concat].
    exists (bs ++ concat bss). split; [reflexivity|].
    split; [apply write_app|].
    rewrite length_app, Hl, (length_bytes_of _ _ _ _ Hb). cbn [length]. lia.
Qed.

End Streams.

(* ================================================================== *)
(** * The packed octree: index lists                                   *)
(* ================================================================== *)

Section StoredLists.

Lemma total_list_bytes_app keys k :
  total_list_bytes (keys ++ [k]) = total_list_bytes keys + 2 * (len k + 1).
Proof.
  induction keys as [|k' keys IH]; cbn [app total_list_bytes]; lia.
Qed.

Lemma assign_app keys k start :
  assign (keys ++ [k]) start
  = assign keys start ++ [(k, start + total_list_bytes keys)].
Proof.
  revert start. induction keys as [|k' keys IH]; intros start;
    cbn [app assign total_list_bytes].
  - now rewrite Z.add_0_r.
  - rewrite IH.
    replace (start + 2 * (len k' + 1) + total_list_bytes keys)
      with (start + (2 * (len k' + 1) + total_list_bytes keys)) by lia.
    reflexivity.
Qed.

Lemma map_fst_assign keys start : map fst (assign keys start) = keys.
Proof.
  revert start. induction keys as [|k keys IH]; intros start;
    cbn [assign map fst]; [reflexivity|now rewrite IH].
Qed.

Lemma offset_of_assign keys start indices :
  offset_of (assign keys start) indices
  = option_map (Z.add start) (stored_offset keys indices).
Proof.
  revert start. induction keys as [|k keys IH]; intros start;
    cbn [assign offset_of stored_offset]; [reflexivity|].
  destruct (list_eq_dec Nat.eq_dec k indices).
  - cbn [option_map]. now rewrite Z.add_0_r.
  - rewrite IH. destruct (stored_offset keys indices) as [off|];
      cbn [option_map]; [|reflexivity]. f_equal. lia.
Qed.

Lemma stored_offset_In keys indices :
  In indices keys <-> exists off, stored_offset keys indices = Some off.
Proof.
  induction keys as [|k keys IH]; cbn [In stored_offset].
  - split; [contradiction|intros (off & H); discriminate].
  - destruct (list_eq_dec Nat.eq_dec k indices) as [E|E].
    + split; [eauto|now left].
    + split.
      * intros [H|H]; [contradiction|]. apply IH in H as (off & ->).
        cbn [option_map]. eauto.
      * intros (off & H). right. apply IH.
        destruct (stored_offset keys indices) as [o|]; [eauto|discriminate].
Qed.

Lemma offset_of_app lo1 lo2 indices :
  offset_of (lo1 ++ lo2) indices
  = match offset_of lo1 indices with
    | Some off => Some off
    | None => offset_of lo2 indices
    end.
Proof.
  induction lo1 as [|[k off] lo1 IH]; cbn [app offset_of]; [reflexivity|].
  destruct (list_eq_dec Nat.eq_dec k indices); [reflexivity|exact IH].
Qed.

(** With the entry of the empty list appended, the dictionary of the
    packer is the list pointer of the specification. *)
Lemma offset_of_list_pointer keys indices :
  ~ In [] keys ->
  offset_of (assign keys 0 ++ [([], total_list_bytes keys - 2)]) indices
  = list_pointer keys indices.
Proof.
  intros N. rewrite offset_of_app, offset_of_assign.
  destruct indices as [|i indices]; cbn [list_pointer].
  - destruct (stored_offset keys []) as [off|] eqn:E.
    + exfalso. apply N. apply stored_offset_In. eauto.
    + cbn [option_map offset_of].
      destruct (list_eq_dec Nat.eq_dec [] []); [reflexivity|contradiction].
  - destruct (stored_offset keys (i :: indices)) as [off|];
      cbn [option_map offset_of]; [reflexivity|].
    destruct (list_eq_dec Nat.eq_dec [] (i :: indices)); [discriminate|reflexivity].
Qed.

Lemma store_in keys k : In k keys -> store keys k = keys.
Proof.
  intros H. unfold store.
  destruct (in_dec (list_eq_dec Nat.eq_dec) k keys); [reflexivity|contradiction].
Qed.

Lemma store_notin keys k : ~ In k keys -> store keys k = keys ++ [k].
Proof.
  intros H. unfold store.
  destruct (in_dec (list_eq_dec Nat.eq_dec) k keys); [contradiction|reflexivity].
Qed.

Lemma store_In keys k k' : In k' (store keys k) <-> In k' keys \/ k' = k.
Proof.
  unfold store. destruct (in_dec _ k keys) as [I|I].
  - split; [now left|]. intros [H| ->]; assumption.
  - rewrite in_app_iff. cbn [In]. intuition congruence.
Qed.

Lemma fold_store_In tuples keys k :
  In k (fold_left store tuples keys) <-> In k keys \/ In k tuples.
Proof.
  revert keys. induction tuples as [|t tuples IH]; intros keys;
    cbn [fold_left In]; [tauto|].
  rewrite IH, store_In. intuition congruence.
Qed.

Lemma store_NoDup keys k : NoDup keys -> NoDup (store keys k).
Proof.
  intros H. unfold store. destruct (in_dec _ k keys) as [I|I]; [exact H|].
  apply NoDup_app; [exact H|repeat constructor; intros []|].
  intros x Hx [<-|[]]. contradiction.
Qed.

Lemma fold_store_NoDup tuples keys :
  NoDup keys -> NoDup (fold_left store tuples keys).
Proof.
  revert keys. induction tuples as [|t tuples IH]; intros keys H;
    cbn [fold_left]; [exact H|]. apply IH. now apply store_NoDup.
Qed.

Lemma leaf_tuples_app l1 l2 :
  leaf_tuples (l1 ++ l2) = leaf_tuples l1 ++ leaf_tuples l2.
Proof.
  induction l1 as [|[[|i indices]|children] l1 IH]; cbn [app leaf_tuples];
    [reflexivity|exact IH|now rewrite IH|exact IH].
Qed.

Lemma leaf_tuples_nonempty nodes : ~ In [] (leaf_tuples nodes).
Proof.
  induction nodes as [|[[|i indices]|children] nodes IH]; cbn [leaf_tuples In];
    [tauto|exact IH| |exact IH].
  intros [H|H]; [discriminate|contradiction].
Qed.

(** One table of the first pass: the tuples of its leaves are stored,
    first occurrences first, and its branches are queued. *)
Lemma collect_spec nodes keys branches :
  collect nodes (assign keys 0) (total_list_bytes keys) branches
  = (assign (fold_left store (leaf_tuples nodes) keys) 0,
     total_list_bytes (fold_left store (leaf_tuples nodes) keys),
     branches ++ sub_branches nodes).
Proof.
  revert keys branches.
  induction nodes as [|[[|i indices]|children] nodes IH]; intros keys branches;
    cbn [collect leaf_tuples sub_branches fold_left].
  - now rewrite app_nil_r.
  - apply IH.
  - rewrite offset_of_assign.
    destruct (stored_offset keys (i :: indices)) as [off|] eqn:E;
      cbn [option_map].
    + rewrite store_in by (apply stored_offset_In; eauto). apply IH.
    + assert (I : ~ In (i :: indices) keys).
      { intros I. apply stored_offset_In in I as (off & I). congruence. }
      rewrite (store_notin _ _ I).
      rewrite <- (total_list_bytes_app keys (i :: indices)).
      replace (assign keys 0 ++ [(i :: indices, total_list_bytes keys)])
        with (assign (keys ++ [i :: indices]) 0)
        by (rewrite assign_app; now rewrite Z.add_0_l).
      apply IH.
  - rewrite IH. now rewrite <- app_assoc.
Qed.

Lemma firstn_prefix {A} (a b l : list A) :
  firstn (length (a ++ b)) l = a ++ b -> firstn (length a) l = a.
Proof.
  intros H. rewrite <- (firstn_skipn (length (a ++ b)) l), H.
  rewrite <- app_assoc, firstn_app, firstn_all, Nat.sub_diag.
  cbn [firstn]. now rewrite app_nil_r.
Qed.

(** The first pass: the tables in the order of their discovery, and the
    tuples of all their leaves stored in that order. *)
Lemma walk_spec fuel :
  forall i branches keys branches' list_offsets free,
    walk fuel i branches (assign keys 0) (total_list_bytes keys)
    = Ok (branches', list_offsets, free) ->
    let keys' := fold_left store (leaf_tuples (concat (skipn i branches'))) keys in
    list_offsets = assign keys' 0 /\ free = total_list_bytes keys' /\
    firstn (length branches) branches' = branches.
Proof.
  induction fuel as [|fuel IH];
    intros i branches keys branches' list_offsets free H; cbn [walk] in H;
    [discriminate|].
  destruct (nth_error branches i) as [nodes|] eqn:N.
  - rewrite collect_spec in H. apply IH in H as (Hl & Hf & Hp).
    assert (Hp' : firstn (length branches) branches' = branches)
      by exact (firstn_prefix _ _ _ Hp).
    assert (N' : nth_error branches' i = Some nodes).
    { rewrite <- (firstn_skipn (length branches) branches'), Hp'.
      rewrite nth_error_app1; [exact N|]. apply nth_error_Some. congruence. }
    assert (S' : skipn i branches' = nodes :: skipn (S i) branches').
    { clear - N'. revert i N'.
      induction branches' as [|b branches' IHb]; intros [|i] N';
        try discriminate.
      - now injection N' as ->.
      - cbn [nth_error] in N'. cbn [skipn]. exact (IHb i N'). }
    cbv zeta. rewrite S'. cbn [concat].
    rewrite leaf_tuples_app, fold_left_app. now repeat split.
  - injection H as <- <- <-. apply nth_error_None in N.
    cbv zeta. rewrite skipn_all2 by exact N. cbn [concat leaf_tuples fold_left].
    repeat split. apply firstn_all.
Qed.

End StoredLists.

Section OctreePack.

Lemma uint32_pack_ok w s s' :
  basic_pack uint32 (VInt w) s = (Ok tt, s') ->
  s' = write s (u32 (endianess s) w) /\ 0 <= w < 2 ^ 32.
Proof.
  intros H. apply basic_pack_ok in H as (bs & Hb & ->).
  unfold basic_bytes, int_bytes in Hb. cbn [calcsize is_signed] in Hb.
  change (8 * Z.of_nat 4) with 32 in Hb.
  destruct ((0 <=? w) && (w <? 2 ^ 32)) eqn:R; [|discriminate].
  apply andb_true_iff in R as [R1 R2].
  apply Z.leb_le in R1. apply Z.ltb_lt in R2.
  rewrite Z.mod_small in Hb by lia.
  split; [|lia]. unfold u32. congruence.
Qed.

Lemma uint16_pack_ok w s s' :
  basic_pack uint16 (VInt w) s = (Ok tt, s') ->
  s' = write s (u16 (endianess s) w) /\ 0 <= w < 2 ^ 16.
Proof.
  intros H. apply basic_pack_ok in H as (bs & Hb & ->).
  unfold basic_bytes, int_bytes in Hb. cbn [calcsize is_signed] in Hb.
  change (8 * Z.of_nat 2) with 16 in Hb.
  destruct ((0 <=? w) && (w <? 2 ^ 16)) eqn:R; [|discriminate].
  apply andb_true_iff in R as [R1 R2].
  apply Z.leb_le in R1. apply Z.ltb_lt in R2.
  rewrite Z.mod_small in Hb by lia.
  split; [|lia]. unfold u16. congruence.
Qed.

Variable keys : list (list nat).
Hypothesis keys_nonempty : ~ In [] keys.

(** The second pass on one table writes the table's words. *)
Lemma pack_entries_ok nodes list_base branch_base :
  forall free s free' s',
    pack_entries nodes list_base
      (assign keys 0 ++ [([], total_list_bytes keys - 2)]) branch_base free s
    = (Ok free', s') ->
    exists ws,
      entry_words nodes list_base keys branch_base free = Some (ws, free') /\
      s' = write s (flat_map (u32 (endianess s)) ws) /\
      length ws = length nodes.
Proof.
  induction nodes as [|[indices|children] nodes IH]; intros free s free' s' H;
    cbn [pack_entries entry_words] in *.
  - injection H as <- <-. now exists [].
  - apply iobind_ok in H as (off & s1 & H1 & H).
    apply lift_ok in H1 as [H1 ->].
    rewrite (offset_of_list_pointer keys indices keys_nonempty) in H1.
    destruct (list_pointer keys indices) as [off'|]; [|discriminate].
    injection H1 as ->.
    apply iobind_ok in H as ([] & s2 & H2 & H).
    apply uint32_pack_ok in H2 as [-> _].
    apply IH in H as (ws & -> & -> & L). rewrite endianess_write.
    eexists. split; [reflexivity|]. split.
    + cbn [flat_map]. now rewrite write_app.
    + cbn [length]. now rewrite L.
  - apply iobind_ok in H as ([] & s2 & H2 & H).
    apply uint32_pack_ok in H2 as [-> _].
    apply IH in H as (ws & -> & -> & L). rewrite endianess_write.
    eexists. split; [reflexivity|]. split.
    + cbn [flat_map]. now rewrite write_app.
    + cbn [length]. now rewrite L.
Qed.

Lemma pack_tables_ok branches list_base :
  forall branch_base free s s',
    pack_tables branches list_base
      (assign keys 0 ++ [([], total_list_bytes keys - 2)]) branch_base free s
    = (Ok tt, s') ->
    exists ws,
      table_words branches list_base keys branch_base free = Some ws /\
      s' = write s (flat_map (u32 (endianess s)) ws) /\
      length ws = length (concat branches).
Proof.
  induction branches as [|nodes branches IH]; intros branch_base free s s' H;
    cbn [pack_tables table_words] in *.
  - injection H as <-. now exists [].
  - apply iobind_ok in H as (free1 & s1 & H1 & H).
    apply pack_entries_ok in H1 as (ws & -> & -> & L).
    apply IH in H as (ws' & -> & -> & L'). rewrite endianess_write.
    exists (ws ++ ws'). split; [reflexivity|]. split.
    + now rewrite flat_map_app, write_app.
    + cbn [concat]. rewrite !length_app. lia.
Qed.

End OctreePack.

Section ListRegion.

Lemma pack_list_ok indices s s' :
  pack_list indices s = (Ok tt, s') ->
  s' = write s (list_bytes (endianess s) indices).
Proof.
  unfold pack_list, list_bytes. intros H.
  apply iobind_ok in H as ([] & s1 & H1 & H).
  assert (E : s1 = write s (flat_map (fun index =>
                                        u16 (endianess s) (Z.of_nat index + 1))
                                     indices)).
  { clear H. revert s s1 H1.
    induction indices as [|i indices IH]; intros s s1 H1;
      cbn [for_each flat_map] in *.
    - now injection H1 as <-.
    - apply iobind_ok in H1 as ([] & s2 & H2 & H1).
      apply uint16_pack_ok in H2 as [-> _].
      apply IH in H1 as ->. rewrite endianess_write. apply write_app. }
  subst s1. apply uint16_pack_ok in H as [-> _].
  rewrite endianess_write. apply write_app.
Qed.

Lemma pack_lists_ok keys s s' :
  for_each pack_list keys s = (Ok tt, s') ->
  s' = write s (flat_map (list_bytes (endianess s)) keys).
Proof.
  revert s s'. induction keys as [|k keys IH]; intros s s' H;
    cbn [for_each flat_map] in *.
  - now injection H as <-.
  - apply iobind_ok in H as ([] & s1 & H1 & H).
    apply pack_list_ok in H1 as ->. apply IH in H as ->.
    rewrite endianess_write. apply write_app.
Qed.

Lemma length_u16 e n : length (u16 e n) = 2%nat.
Proof. unfold u16. now rewrite length_order, length_le_bytes. Qed.

Lemma length_u32 e n : length (u32 e n) = 4%nat.
Proof. unfold u32. now rewrite length_order, length_le_bytes. Qed.

Lemma length_list_bytes e indices :
  Z.of_nat (length (list_bytes e indices)) = 2 * (len indices + 1).
Proof.
  unfold list_bytes, len.
  rewrite length_app, length_u16, (length_flat_map_const _ _ 2%nat).
  - lia.
  - intros i. apply length_u16.
Qed.

(** The list region is as long as the total of the stored lists. *)
Lemma length_list_region e keys :
  Z.of_nat (length (flat_map (list_bytes e) keys)) = total_list_bytes keys.
Proof.
  induction keys as [|k keys IH]; cbn [flat_map total_list_bytes];
    [reflexivity|].
  rewrite length_app, Nat2Z.inj_add, IH, length_list_bytes. reflexivity.
Qed.

(** A stored list lies in the region at its stored offset. *)
Lemma stored_offset_region e keys indices off :
  stored_offset keys indices = Some off ->
  exists before after,
    flat_map (list_bytes e) keys = before ++ list_bytes e indices ++ after /\
    Z.of_nat (length before) = off.
Proof.
  revert off. induction keys as [|k keys IH]; intros off H;
    cbn [stored_offset flat_map] in *; [discriminate|].
  destruct (list_eq_dec Nat.eq_dec k indices) as [->|N].
  - injection H as <-. now exists [], (flat_map (list_bytes e) keys).
  - destruct (stored_offset keys indices) as [off'|]; [|discriminate].
    injection H as <-. destruct (IH off' eq_refl) as (before & after & -> & L).
    exists (list_bytes e k ++ before), after. split.
    + now rewrite <- app_assoc.
    + rewrite length_app, Nat2Z.inj_add, length_list_bytes, L. reflexivity.
Qed.

(** With at least one stored list the region ends with a terminator. *)
Lemma list_region_ends_with_terminator e keys :
  keys <> [] ->
  exists rest, flat_map (list_bytes e) keys = rest ++ u16 e 0.
Proof.
  intros N. destruct (exists_last N) as (keys' & k & ->).
  rewrite flat_map_app. cbn [flat_map]. rewrite app_nil_r.
  unfold list_bytes at 2. rewrite app_assoc. eauto.
Qed.

Lemma sum_len_concat {A} (ls : list (list A)) acc :
  fold_left Z.add (map len ls) acc = acc + len (concat ls).
Proof.
  revert acc. induction ls as [|l ls IH]; intros acc;
    cbn [map fold_left concat].
  - unfold len. cbn [length]. lia.
  - rewrite IH. unfold len. rewrite length_app. lia.
Qed.

End ListRegion.

Section PackLayout.

Lemma io_tell_ok p s s' :
  io_tell s = (Ok p, s') -> p = position s /\ s' = s.
Proof. unfold io_tell, tell. intros H. split; congruence. Qed.

Lemma io_write_ok bs s s' :
  io_write bs s = (Ok tt, s') -> s' = write s bs.
Proof. unfold io_write. congruence. Qed.

Lemma io_seek_ok n s s' :
  io_seek n s = (Ok tt, s') -> s' = seek s n.
Proof. unfold io_seek. congruence. Qed.

Lemma position_write s bs :
  position (write s bs) = (position s + length bs)%nat.
Proof. destruct bs; cbn [write position length]; [lia|reflexivity]. Qed.

Lemma skipn_length_app {A} (a b : list A) : skipn (length a) (a ++ b) = b.
Proof. induction a as [|x a IH]; cbn [length skipn app]; [reflexivity|exact IH]. Qed.

(** A write at the start of a stream replaces that many bytes. *)
Lemma data_write_at_start s bs :
  position s = 0%nat ->
  data (write s bs) = bs ++ skipn (length bs) (data s).
Proof.
  intros P. destruct bs as [|b bs]; [reflexivity|].
  rewrite write_cons, P. cbn [data]. reflexivity.
Qed.

(** What [Octree_pack] does to the stream when it raises nothing. *)
Lemma Octree_pack_writes fuel octree s s' :
  Octree_pack fuel octree s = (Ok tt, s') -> exists bs, s' = write s bs.
Proof.
  unfold Octree_pack. intros H.
  apply iobind_ok in H as ([[branches list_offsets] free] & s0 & H0 & H).
  apply lift_ok in H0 as [W ->].
  pose proof (walk_spec fuel 0 [Octree.children octree] [] branches
                list_offsets free W) as (Hl & Hf & _).
  cbn [skipn] in Hl, Hf.
  apply iobind_ok in H as ([] & s1 & H1 & H).
  set (keys := fold_left store (leaf_tuples (concat branches)) []) in *.
  assert (N : ~ In [] keys).
  { intros I. apply fold_store_In in I as [[]|I].
    exact (leaf_tuples_nonempty _ I). }
  rewrite Hl, Hf in H1.
  apply (pack_tables_ok keys N) in H1 as (words & _ & -> & _).
  rewrite Hl, map_fst_assign in H. apply pack_lists_ok in H as ->.
  rewrite write_app. eauto.
Qed.

Lemma make_header_ok log vertex_offset normal_offset face_offset octree_offset
    octree header :
  make_header log vertex_offset normal_offset face_offset octree_offset octree
  = Ok header ->
  Header.vertex_offset header = vertex_offset /\
  Header.normal_offset header = normal_offset /\
  Header.face_offset header = face_offset /\
  Header.octree_offset header = octree_offset /\
  Header.unknown0 header = 40 /\
  Header.base header = Octree.base octree /\
  Header.x_mask header
  = Z.land (Z.lnot (Octree.width_x octree - 1)) 0xFFFFFFFF /\
  Header.y_mask header
  = Z.land (Z.lnot (Octree.width_y octree - 1)) 0xFFFFFFFF /\
  Header.z_mask header
  = Z.land (Z.lnot (Octree.width_z octree - 1)) 0xFFFFFFFF /\
  int_log2 log (Octree.base_width octree)
  = Ok (Header.coordinate_shift header) /\
  int_log2 log (Octree.nx octree) = Ok (Header.y_shift header) /\
  exists log_ny,
    int_log2 log (Octree.ny octree) = Ok log_ny /\
    Header.z_shift header = Header.y_shift header + log_ny.
Proof.
  unfold make_header.
  destruct (int_log2 log (Octree.base_width octree)) as [cs| |];
    cbn [bind]; try discriminate.
  destruct (int_log2 log (Octree.nx octree)) as [ys| |];
    cbn [bind]; try discriminate.
  destruct (int_log2 log (Octree.ny octree)) as [ly| |];
    cbn [bind]; try discriminate.
  intros H. assert (E : header = Header.mk vertex_offset normal_offset
                          face_offset octree_offset 40 (Octree.base octree)
                          (Z.land (Z.lnot (Octree.width_x octree - 1)) 0xFFFFFFFF)
                          (Z.land (Z.lnot (Octree.width_y octree - 1)) 0xFFFFFFFF)
                          (Z.land (Z.lnot (Octree.width_z octree - 1)) 0xFFFFFFFF)
                          cs ys (ys + ly)) by congruence.
  subst header.
  cbn [Header.vertex_offset Header.normal_offset Header.face_offset
       Header.octree_offset Header.unknown0 Header.base Header.x_mask
       Header.y_mask Header.z_mask Header.coordinate_shift Header.y_shift
       Header.z_shift].
  repeat (split; [reflexivity|]). exists ly. now split.
Qed.

(** The bytes a stream holds after a write that is not empty. *)
Lemma data_write s bs :
  bs <> [] ->
  data (write s bs)
  = firstn (position s) (data s)
      ++ repeat x00 (position s - length (data s)) ++ bs
      ++ skipn (position s + length bs) (data s).
Proof. destruct bs as [|b bs]; [congruence|reflexivity]. Qed.

(** Bytes behind an overwritten prefix are those that were there. *)
Lemma skipn_overwrite {A} (a l : list A) k :
  (length a <= k)%nat ->
  skipn k (a ++ skipn (length a) l) = skipn k l.
Proof.
  intros H. rewrite skipn_app, skipn_all2 by exact H.
  rewrite skipn_skipn. cbn [app]. f_equal. lia.
Qed.

(** The file [pack] leaves behind once the gates are passed: the zero bytes
    reserved for the header, the vertices, the normals, the faces and the
    octree, written from the position of the stream on, and then the header,
    written at offset 0. *)
Lemma pack_body_ok log fuel triangles max_triangles min_width
    faces vertex_welder normal_welder s s' :
  pack_body log fuel triangles max_triangles min_width
    faces vertex_welder normal_welder s = (Ok tt, s') ->
  exists octree header hb vb nb fb ob,
    let e := endianess s in
    let p := position s in
    Octree.init log fuel triangles max_triangles min_width = Ok octree /\
    bytes_of e Header.struct (Header.obj header) = Ok hb /\
    bytes_of_all e Vector.struct
      (map Vector.obj (VertexWelder.vertices vertex_welder)) = Ok vb /\
    bytes_of_all e Vector.struct
      (map Vector.obj (VertexWelder.vertices normal_welder)) = Ok nb /\
    bytes_of_all e Face.struct (map Face.obj faces) = Ok fb /\
    Octree_pack fuel octree
      (write s (repeat x00 (sizeof Header.struct) ++ vb ++ nb ++ fb))
    = (Ok tt,
       write s (repeat x00 (sizeof Header.struct) ++ vb ++ nb ++ fb ++ ob)) /\
    make_header log
      (Z.of_nat (p + length hb)) (Z.of_nat (p + length (hb ++ vb)))
      (Z.of_nat (p + length (hb ++ vb ++ nb)) - Z.of_nat (sizeof Face.struct))
      (Z.of_nat (p + length (hb ++ vb ++ nb ++ fb))) octree = Ok header /\
    length hb = sizeof Header.struct /\
    (exists rest, data s' = hb ++ rest) /\
    (exists rest,
       skipn (p + length hb) (data s') = vb ++ nb ++ fb ++ ob ++ rest).
Proof.
  intros H. unfold pack_body in H.
  set (zeros := repeat x00 (sizeof Header.struct)) in *.
  assert (Lz : length zeros = sizeof Header.struct) by apply repeat_length.
  apply iobind_ok in H as ([] & s1 & H1 & H). apply io_write_ok in H1 as ->.
  apply iobind_ok in H as (vo & s1 & H1 & H). apply io_tell_ok in H1 as [-> ->].
  apply iobind_ok in H as ([] & s1 & H1 & H).
  apply for_each_pack_ok in H1 as (vb & Hvb & -> & _).
  apply iobind_ok in H as (no & s1 & H1 & H). apply io_tell_ok in H1 as [-> ->].
  apply iobind_ok in H as ([] & s1 & H1 & H).
  apply for_each_pack_ok in H1 as (nb & Hnb & -> & _).
  apply iobind_ok in H as (fo & s1 & H1 & H). apply io_tell_ok in H1 as [-> ->].
  cbv zeta in H.
  apply iobind_ok in H as ([] & s1 & H1 & H).
  apply for_each_pack_ok in H1 as (fb & Hfb & -> & _).
  apply iobind_ok in H as (oo & s1 & H1 & H). apply io_tell_ok in H1 as [-> ->].
  apply iobind_ok in H as (octree & s1 & H1 & H).
  apply lift_ok in H1 as [Ho ->].
  apply iobind_ok in H as ([] & s1 & H1 & H).
  pose proof H1 as Hop.
  apply Octree_pack_writes in H1 as (ob & ->).
  apply iobind_ok in H as (header & s1 & H1 & H).
  apply lift_ok in H1 as [Hh ->].
  apply iobind_ok in H as ([] & s1 & H1 & H). apply io_seek_ok in H1 as ->.
  apply pack_ok in H as (hb & Hhb & ->).
  rewrite !endianess_write in *. cbn [seek endianess] in Hhb.
  rewrite !endianess_write in Hhb.
  rewrite !write_app in *.
  rewrite !position_write in Hh.
  assert (Lh : length hb = sizeof Header.struct)
    by exact (length_bytes_of _ _ _ _ Hhb).
  exists octree, header, hb, vb, nb, fb, ob. cbv zeta.
  repeat (split; [assumption|]).
  split; [rewrite <- !app_assoc in Hop; exact Hop|].
  split.
  { rewrite <- Hh. rewrite !length_app, Lz, Lh. f_equal; f_equal; lia. }
  split; [exact Lh|].
  rewrite data_write_at_start by reflexivity. cbn [seek data].
  split; [eauto|].
  assert (Nz : zeros <> []) by (intros E; now rewrite E in Lz).
  rewrite skipn_overwrite by lia.
  rewrite data_write by (destruct zeros; [congruence|discriminate]).
  set (d := data s). set (p := position s).
  rewrite !app_assoc, <- (app_assoc _ _ zeros), <- !app_assoc.
  rewrite (app_assoc (firstn p d)), (app_assoc _ zeros).
  replace (p + length hb)%nat
    with (length ((firstn p d ++ repeat x00 (p - length d)) ++ zeros)).
  - rewrite skipn_length_app. eauto.
  - rewrite length_app, length_prefix. lia.
Qed.

(** The two gates [pack] passes before it writes. *)
Lemma pack_ok_gates log fuel triangles max_triangles min_width s s' :
  kcl.pack log fuel triangles max_triangles min_width s = (Ok tt, s') ->
  exists faces vertex_welder normal_welder,
    make_faces triangles
      (VertexWelder.init 0x1p-1 ((len triangles + 63) / 64))
      (VertexWelder.init 0x1p-22 ((4 * len triangles + 63) / 64))
    = Ok (faces, vertex_welder, normal_welder) /\
    pack_body log fuel triangles max_triangles min_width
      faces vertex_welder normal_welder s = (Ok tt, s').
Proof.
  unfold kcl.pack. destruct (_ <=? len triangles); [discriminate|].
  intros H. apply iobind_ok in H as ([[faces vw] nw] & s1 & H1 & H).
  apply lift_ok in H1 as [Hf ->].
  destruct (_ <=? len (VertexWelder.vertices vw)); [discriminate|].
  destruct (_ <=? len (VertexWelder.vertices nw)); [discriminate|].
  now exists faces, vw, nw.
Qed.

End PackLayout.

(** C2, as the code has it: the header is 56 bytes long, not 60.  The
    fields of [Header] add up to 56 bytes; a [pack] that succeeds leaves a
    file that begins with the 56 bytes of the back-patched header, and the
    vertex table begins 56 bytes behind the position at which [pack]
    started, behind the 56 zero bytes that were reserved, as the header
    records. *)
Theorem header_is_56_bytes log fuel triangles max_triangles min_width s s' :
  kcl.pack log fuel triangles max_triangles min_width s = (Ok tt, s') ->
  sizeof Header.struct = 56%nat /\
  exists header hb rest,
    bytes_of (endianess s) Header.struct (Header.obj header) = Ok hb /\
    length hb = 56%nat /\
    data s' = hb ++ rest /\
    Header.vertex_offset header = Z.of_nat (position s) + 56.
Proof.
  intros H. split; [reflexivity|].
  apply pack_ok_gates in H as (faces & vw & nw & _ & H).
  apply pack_body_ok in H
    as (octree & header & hb & vb & nb & fb & ob & _ & Hhb & _ & _ & _ & _
        & Hh & Lh & (rest & Hd) & _).
  apply make_header_ok in Hh as (Hv & _).
  exists header, hb, rest.
  split; [exact Hhb|]. split; [exact Lh|]. split; [exact Hd|].
  rewrite Hv, Lh. change (sizeof Header.struct) with 56%nat. lia.
Qed.

Lemma header_is_56_bytes_witness :
  exists hb rest,
    length hb = 56%nat /\
    data (snd (kcl.pack sample_log 10 [sample_triangle] 25 8
                 (new_stream LITTLE_ENDIAN))) = hb ++ rest.
Proof.
  assert (H : kcl.pack sample_log 10 [sample_triangle] 25 8
                (new_stream LITTLE_ENDIAN)
              = (Ok tt, snd (kcl.pack sample_log 10 [sample_triangle] 25 8
                               (new_stream LITTLE_ENDIAN)))).
  { vm_compute. reflexivity. }
  destruct (header_is_56_bytes sample_log 10 [sample_triangle] 25 8
              (new_stream LITTLE_ENDIAN) _ H)
    as (_ & header & hb & rest & _ & L & D & _).
  exists hb, rest. split; [exact L|exact D].
Defined.

(** C2 as stated fails: the header structure is not 60 bytes long, and the
    file packed from one triangle records 56 as the offset of the vertex
    table, which begins right behind the header. *)
Lemma header_is_not_60_bytes :
  sizeof Header.struct <> 60%nat /\
  firstn 4 (data (snd (kcl.pack sample_log 10 [sample_triangle] 25 8
                         (new_stream LITTLE_ENDIAN))))
  = u32 LITTLE_ENDIAN 56.
Proof.
  split; [vm_compute; lia|vm_compute; reflexivity].
Qed.

Lemma lor_shiftl_add lo hi k :
  0 <= k -> 0 <= lo < 2 ^ k -> 0 <= hi ->
  Z.lor (Z.shiftl hi k) lo = hi * 2 ^ k + lo.
Proof.
  intros Hk Hlo Hhi. rewrite Z.shiftl_mul_pow2 by exact Hk.
  rewrite <- Z.lxor_lor, <- Z.add_nocarry_lxor; try reflexivity.
  all: apply Z.bits_inj'; intros n Hn; rewrite Z.land_spec, Z.bits_0.
  all: destruct (Z.lt_ge_cases n k) as [L|G].
  all: try (rewrite Z.mul_pow2_bits_low by lia; reflexivity).
  all: destruct (Z.eq_dec lo 0) as [->|N];
    [rewrite Z.bits_0; apply andb_false_r|].
  all: rewrite (Z.bits_above_log2 lo n); [apply andb_false_r|lia|].
  all: apply Z.log2_lt_pow2; try lia.
  all: apply Z.lt_le_trans with (2 ^ k); [lia|].
  all: apply Z.pow_le_mono_r; lia.
Qed.

Lemma b2z_range b : 0 <= Z.b2z b < 2.
Proof. destruct b; cbn [Z.b2z]; lia. Qed.

(** A field of [width] bits at [shift], cut out of a word. *)
Lemma extract_field W shift width :
  0 <= shift -> 0 <= width ->
  Z.shiftr (Z.land W (Z.shiftl (Z.ones width) shift)) shift
  = (W / 2 ^ shift) mod 2 ^ width.
Proof.
  intros Hs Hw.
  rewrite Z.shiftr_land, Z.shiftr_shiftl_l by exact Hs.
  rewrite Z.sub_diag, Z.shiftl_0_r, Z.land_ones by exact Hw.
  now rewrite Z.shiftr_div_pow2 by exact Hs.
Qed.

Section RowWord.

Variable t : SurfaceType.t.
Hypothesis t_in_domain : in_domain t.

Local Abbreviation cam := (SurfaceType.camera_id t).
Local Abbreviation sound := (SurfaceType.sound_code t).
Local Abbreviation floor := (SurfaceType.floor_code t).
Local Abbreviation wall := (SurfaceType.wall_code t).
Local Abbreviation through := (Z.b2z (SurfaceType.camera_through t)).

Lemma partial_words :
  Z.lor (Z.shiftl cam 0) 0 = cam /\
  Z.lor (Z.shiftl sound 8) cam = sound * 2 ^ 8 + cam /\
  Z.lor (Z.shiftl floor 15) (sound * 2 ^ 8 + cam)
  = floor * 2 ^ 15 + (sound * 2 ^ 8 + cam) /\
  Z.lor (Z.shiftl wall 21) (floor * 2 ^ 15 + (sound * 2 ^ 8 + cam))
  = wall * 2 ^ 21 + (floor * 2 ^ 15 + (sound * 2 ^ 8 + cam)) /\
  Z.lor (Z.shiftl through 25)
    (wall * 2 ^ 21 + (floor * 2 ^ 15 + (sound * 2 ^ 8 + cam)))
  = through * 2 ^ 25
    + (wall * 2 ^ 21 + (floor * 2 ^ 15 + (sound * 2 ^ 8 + cam))).
Proof.
  destruct t_in_domain as (Hc & Hs & Hf & Hw).
  pose proof (b2z_range (SurfaceType.camera_through t)) as Ht.
  split; [now rewrite Z.shiftl_0_r, Z.lor_0_r|].
  repeat split; apply lor_shiftl_add; lia.
Qed.

Lemma row_word_sum :
  row_word t
  = through * 2 ^ 25
    + (wall * 2 ^ 21 + (floor * 2 ^ 15 + (sound * 2 ^ 8 + cam))).
Proof.
  destruct partial_words as (_ & H2 & H3 & H4 & H5).
  unfold row_word.
  now rewrite H2, H3, H4, H5.
Qed.

Lemma row_word_range : 0 <= row_word t < 2 ^ 26.
Proof.
  rewrite row_word_sum.
  destruct t_in_domain as (Hc & Hs & Hf & Hw).
  pose proof (b2z_range (SurfaceType.camera_through t)) as Ht.
  lia.
Qed.

Lemma row_word_fields :
  Z.shiftr (Z.land (row_word t) 0x000000FF) 0 = cam /\
  Z.shiftr (Z.land (row_word t) 0x00007F00) 8 = sound /\
  Z.shiftr (Z.land (row_word t) 0x01F8000) 15 = floor /\
  Z.shiftr (Z.land (row_word t) 0x01E00000) 21 = wall /\
  Z.shiftr (Z.land (row_word t) 0x02000000) 25 = through.
Proof.
  change 0x000000FF with (Z.shiftl (Z.ones 8) 0).
  change 0x00007F00 with (Z.shiftl (Z.ones 7) 8).
  change 0x01F8000 with (Z.shiftl (Z.ones 6) 15).
  change 0x01E00000 with (Z.shiftl (Z.ones 4) 21).
  change 0x02000000 with (Z.shiftl (Z.ones 1) 25).
  rewrite !extract_field by lia. rewrite row_word_sum.
  destruct t_in_domain as (Hc & Hs & Hf & Hw).
  pose proof (b2z_range (SurfaceType.camera_through t)) as Ht.
  change (2 ^ 0) with 1. change (2 ^ 1) with 2. change (2 ^ 4) with 16 in *.
  change (2 ^ 6) with 64 in *. change (2 ^ 7) with 128 in *.
  change (2 ^ 8) with 256 in *. change (2 ^ 15) with 32768.
  change (2 ^ 21) with 2097152. change (2 ^ 25) with 33554432.
  repeat split; Z.to_euclidean_division_equations; lia.
Qed.

End RowWord.

Section Reading.

Lemma Z_of_byte_of_Z n : Z_of_byte (byte_of_Z n) = n mod 256.
Proof.
  unfold Z_of_byte, byte_of_Z.
  assert (R : 0 <= n mod 256 < 256) by (apply Z.mod_pos_bound; lia).
  destruct (Byte.of_N (Z.to_N (n mod 256))) as [b|] eqn:E.
  - apply Byte.to_of_N in E. rewrite E. apply Z2N.id. lia.
  - apply Byte.of_N_None_iff in E. lia.
Qed.

Lemma le_value_le_bytes size n :
  le_value (le_bytes size n) = n mod 2 ^ (8 * Z.of_nat size).
Proof.
  revert n. induction size as [|size IH]; intros n.
  - cbn [le_bytes le_value]. change (2 ^ (8 * Z.of_nat 0)) with 1.
    now rewrite Z.mod_1_r.
  - cbn [le_bytes le_value]. rewrite IH, Z_of_byte_of_Z.
    replace (8 * Z.of_nat (S size)) with (8 + 8 * Z.of_nat size) by lia.
    rewrite Z.pow_add_r by lia. change (2 ^ 8) with 256.
    rewrite Z.rem_mul_r by lia. reflexivity.
Qed.

Lemma order_order e bs : order e (order e bs) = bs.
Proof. destruct e; cbn [order]; [reflexivity|apply rev_involutive]. Qed.

Lemma firstn_length_app {A} (a b : list A) : firstn (length a) (a ++ b) = a.
Proof.
  induction a as [|x a IH]; cbn [length firstn app];
    [now destruct b|now rewrite IH].
Qed.

Lemma read_at_cursor e before bs after :
  read (at_cursor e before (bs ++ after)) (length bs)
  = (bs, at_cursor e (before ++ bs) after).
Proof.
  unfold read, at_cursor. cbn [position data endianess].
  rewrite skipn_length_app, firstn_length_app, length_app, <- app_assoc.
  reflexivity.
Qed.

(** An unsigned 32-bit word read back from where it was written. *)
Lemma int_unpack_u32 e before w after :
  0 <= w < 2 ^ 32 ->
  int_unpack uint32 (at_cursor e before (u32 e w ++ after))
  = (Ok w, at_cursor e (before ++ u32 e w) after).
Proof.
  intros R. unfold int_unpack. cbn [calcsize].
  rewrite <- (length_u32 e w) at 1. rewrite read_at_cursor.
  rewrite length_u32. cbn [Nat.eqb is_signed andb at_cursor endianess].
  unfold u32 at 1. rewrite order_order, le_value_le_bytes.
  change (8 * Z.of_nat 4) with 32. now rewrite Z.mod_small.
Qed.

(** What a read of a basic type returns depends on its bytes alone. *)
Lemma int_unpack_frame e t bs :
  length bs = calcsize t ->
  exists n, forall before after,
    int_unpack t (at_cursor e before (bs ++ after))
    = (Ok n, at_cursor e (before ++ bs) after).
Proof.
  intros L. eexists. intros before after. unfold int_unpack.
  rewrite <- L, read_at_cursor, Nat.eqb_refl.
  cbn [at_cursor endianess]. reflexivity.
Qed.

Lemma split_length {A} (l : list A) (a b : nat) :
  length l = (a + b)%nat ->
  exists l1 l2, l = l1 ++ l2 /\ length l1 = a /\ length l2 = b.
Proof.
  intros L. exists (firstn a l), (skipn a l).
  rewrite firstn_skipn, length_firstn, length_skipn.
  split; [reflexivity|lia].
Qed.

Lemma unpack_fields_frame e fs :
  forall bs,
    length bs = fields_size fs ->
    exists obj, forall before after,
      unpack_fields fs (at_cursor e before (bs ++ after))
      = (Ok obj, at_cursor e (before ++ bs) after).
Proof.
  induction fs as [|[name t] fs IH]; intros bs L; cbn [fields_size] in L.
  - destruct bs; [|discriminate]. exists []. intros before after.
    cbn [unpack_fields]. unfold ret. now rewrite app_nil_r.
  - apply split_length in L as (b1 & b2 & -> & L1 & L2).
    destruct (int_unpack_frame e t b1 L1) as (n & Hn).
    destruct (IH b2 L2) as (obj & Hobj).
    exists ((name, n) :: obj). intros before after.
    cbn [unpack_fields]. unfold iobind.
    rewrite <- app_assoc, Hn, Hobj, app_assoc. reflexivity.
Qed.

Lemma unpack_descriptors_frame e count :
  forall bs,
    length bs = (count * fields_size bcsv.Field.fields)%nat ->
    exists fields, forall before after,
      bcsv.unpack_descriptors count (at_cursor e before (bs ++ after))
      = (Ok fields, at_cursor e (before ++ bs) after).
Proof.
  induction count as [|count IH]; intros bs L.
  - destruct bs; [|discriminate]. exists []. intros before after.
    cbn [bcsv.unpack_descriptors]. unfold ret. now rewrite app_nil_r.
  - change (S count * fields_size bcsv.Field.fields)%nat
      with (fields_size bcsv.Field.fields
            + count * fields_size bcsv.Field.fields)%nat in L.
    apply split_length in L as (b1 & b2 & -> & L1 & L2).
    destruct (unpack_fields_frame e _ b1 L1) as (f & Hf).
    destruct (IH b2 L2) as (fields & Hfields).
    exists (f :: fields). intros before after.
    cbn [bcsv.unpack_descriptors]. unfold iobind, ret.
    rewrite <- app_assoc, Hf, Hfields, app_assoc. reflexivity.
Qed.

End Reading.

Section Writing.

Lemma bind_ok_inv {A B} (m : outcome A) (k : A -> outcome B) b :
  bind m k = Ok b -> exists a, m = Ok a /\ k a = Ok b.
Proof. destruct m as [a| |]; cbn [bind]; intros H; [eauto|discriminate..]. Qed.

(** [Struct.pack] writes the bytes of the value when they exist. *)
Lemma pack_run : forall t v s bs,
  bytes_of (endianess s) t v = Ok bs ->
  btypes.pack t v s = (Ok tt, write s bs).
Proof.
  fix IH 1. intros [b|fields] v s bs H.
  - cbn [btypes.pack bytes_of] in *. unfold basic_pack. now rewrite H.
  - cbn [btypes.pack bytes_of] in *.
    revert s bs H. induction fields as [|[name ft] rest IHf]; intros s bs H.
    + injection H as <-. reflexivity.
    + apply bind_ok_inv in H as (a & Ha & H).
      apply bind_ok_inv in H as (b1 & Hb1 & H).
      apply bind_ok_inv in H as (b2 & Hb2 & H).
      injection H as <-.
      unfold iobind at 1. unfold lift at 1. rewrite Ha.
      unfold iobind at 1. rewrite (IH ft a s b1 Hb1).
      rewrite (IHf (write s b1) b2); [now rewrite write_app|].
      now rewrite endianess_write.
Qed.

Lemma for_each_pack_run {A} t (obj : A -> Value) l : forall s bs,
  bytes_of_all (endianess s) t (map obj l) = Ok bs ->
  for_each (fun a => btypes.pack t (obj a)) l s = (Ok tt, write s bs).
Proof.
  unfold bytes_of_all.
  induction l as [|a l IH]; intros s bs H; cbn [map mapM for_each] in *.
  - cbn [bind] in H. injection H as <-. reflexivity.
  - apply bind_ok_inv in H as (bss & Hm & H). injection H as <-.
    apply bind_ok_inv in Hm as (b1 & Hb1 & Hm).
    apply bind_ok_inv in Hm as (bss' & Hbss & Hm). injection Hm as <-.
    unfold iobind. rewrite (pack_run _ _ _ _ Hb1).
    rewrite (IH (write s b1) (concat bss')).
    + cbn [concat]. now rewrite write_app.
    + now rewrite endianess_write, Hbss.
Qed.

Lemma write_new_stream e bs :
  write (new_stream e) bs = mkStream e bs (length bs).
Proof.
  destruct bs as [|b bs]; [reflexivity|].
  rewrite write_cons. unfold new_stream. cbn [endianess data position].
  rewrite skipn_nil, app_nil_r. reflexivity.
Qed.

Lemma u32_zero e : u32 e 0 = repeat x00 4.
Proof. destruct e; reflexivity. Qed.

Lemma uint32_bytes e w :
  0 <= w < 2 ^ 32 -> basic_bytes e uint32 (VInt w) = Ok (u32 e w).
Proof.
  intros R. unfold basic_bytes, int_bytes. cbn [calcsize is_signed].
  change (8 * Z.of_nat 4) with 32.
  destruct (Z.leb_spec 0 w); [|lia]. destruct (Z.ltb_spec w (2 ^ 32)); [|lia].
  cbn [andb]. now rewrite Z.mod_small.
Qed.

(** One [UINT32] field of a row: the shifted value is or-ed into the word
    that the earlier fields at this offset have left. *)
Lemma pack_cells_cons e field rest entry value W p :
  bcsv.entry_getattr entry (bcsv.Field.attribute_name field) = Ok value ->
  bcsv.Field.data_type field = bcsv.UINT32 ->
  bcsv.Field.offset field = 0 ->
  0 <= bcsv.Field.shift field ->
  0 <= W < 2 ^ 32 ->
  0 <= Z.lor (Z.shiftl value (bcsv.Field.shift field)) W < 2 ^ 32 ->
  bcsv.pack_cells (field :: rest) entry (mkStream e (u32 e W) p)
  = bcsv.pack_cells rest entry
      (mkStream e
         (u32 e (Z.lor (Z.shiftl value (bcsv.Field.shift field)) W)) 4).
Proof.
  intros Hv Ht Ho Hs RW RW'. cbn [bcsv.pack_cells].
  unfold iobind at 1. unfold lift at 1. rewrite Hv, Ho.
  change (0 <? 0) with false. cbv iota.
  unfold iobind at 1. unfold io_seek at 1. unfold seek.
  cbn [endianess data Z.to_nat].
  unfold iobind at 1. unfold bcsv.pack_cell. rewrite Ht.
  change (bcsv.UINT32 =? bcsv.UINT32) with true. cbv iota.
  destruct (Z.ltb_spec (bcsv.Field.shift field) 0); [lia|].
  unfold iobind at 1.
  pose proof (int_unpack_u32 e [] W [] RW) as U.
  unfold at_cursor in U. cbn [app length] in U. rewrite app_nil_r in U.
  rewrite U.
  unfold iobind at 1. unfold io_seek at 1. unfold seek.
  rewrite Ho. cbn [endianess data Z.to_nat].
  unfold basic_pack. cbn [endianess]. rewrite (uint32_bytes e _ RW').
  f_equal. f_equal.
  set (W' := Z.lor _ W).
  unfold u32. destruct e; reflexivity.
Qed.

End Writing.

Section SurfaceRows.

(** The row of a surface type is its word. *)
Lemma pack_entry_row t s :
  in_domain t ->
  bcsv.pack_entry SurfaceTypeList.bcsv_fields 4 (SurfaceType.obj t) s
  = (Ok tt, write s (u32 (endianess s) (row_word t))).
Proof.
  intros D.
  destruct (partial_words t D) as (P1 & P2 & P3 & P4 & P5).
  pose proof (row_word_sum t D) as E.
  pose proof (row_word_range t D) as R. rewrite E in R.
  destruct D as (Hc & Hs & Hf & Hw).
  pose proof (b2z_range (SurfaceType.camera_through t)) as Ht.
  unfold bcsv.pack_entry.
  change (repeat x00 (Z.to_nat 4)) with (repeat x00 4).
  rewrite <- (u32_zero (endianess s)).
  unfold SurfaceTypeList.bcsv_fields.
  rewrite (pack_cells_cons _ _ _ _ (SurfaceType.camera_id t) 0 0%nat);
    [|reflexivity|reflexivity|reflexivity
     |cbn [bcsv.Field.shift bcsv.Field.init]; lia|lia
     |cbn [bcsv.Field.shift bcsv.Field.init]; rewrite P1; lia].
  cbn [bcsv.Field.shift bcsv.Field.init]. rewrite P1.
  rewrite (pack_cells_cons _ _ _ _ (SurfaceType.sound_code t)
             (SurfaceType.camera_id t) 4%nat);
    [|reflexivity|reflexivity|reflexivity
     |cbn [bcsv.Field.shift bcsv.Field.init]; lia|lia
     |cbn [bcsv.Field.shift bcsv.Field.init]; rewrite P2; lia].
  cbn [bcsv.Field.shift bcsv.Field.init]. rewrite P2.
  rewrite (pack_cells_cons _ _ _ _ (SurfaceType.floor_code t) _ 4%nat);
    [|reflexivity|reflexivity|reflexivity
     |cbn [bcsv.Field.shift bcsv.Field.init]; lia|lia
     |cbn [bcsv.Field.shift bcsv.Field.init]; rewrite P3; lia].
  cbn [bcsv.Field.shift bcsv.Field.init]. rewrite P3.
  rewrite (pack_cells_cons _ _ _ _ (SurfaceType.wall_code t) _ 4%nat);
    [|reflexivity|reflexivity|reflexivity
     |cbn [bcsv.Field.shift bcsv.Field.init]; lia|lia
     |cbn [bcsv.Field.shift bcsv.Field.init]; rewrite P4; lia].
  cbn [bcsv.Field.shift bcsv.Field.init]. rewrite P4.
  rewrite (pack_cells_cons _ _ _ _
             (Z.b2z (SurfaceType.camera_through t)) _ 4%nat);
    [|reflexivity|reflexivity|reflexivity
     |cbn [bcsv.Field.shift bcsv.Field.init]; lia|lia
     |cbn [bcsv.Field.shift bcsv.Field.init]; rewrite P5; lia].
  cbn [bcsv.Field.shift bcsv.Field.init]. rewrite P5, <- E.
  cbn [bcsv.pack_cells]. unfold ret. cbn [data]. reflexivity.
Qed.

Lemma pack_entries_rows types : forall s,
  Forall in_domain types ->
  for_each (bcsv.pack_entry SurfaceTypeList.bcsv_fields 4)
    (map SurfaceType.obj types) s
  = (Ok tt,
     write s (flat_map (fun t => u32 (endianess s) (row_word t)) types)).
Proof.
  induction types as [|t types IH]; intros s D; cbn [map for_each flat_map].
  - reflexivity.
  - apply Forall_cons_iff in D as [Dt D].
    unfold iobind. rewrite (pack_entry_row t s Dt), (IH _ D).
    now rewrite endianess_write, write_app.
Qed.

End SurfaceRows.

Section SurfaceTable.

Lemma header_bytes e a b c d :
  0 <= a < 2 ^ 32 -> 0 <= b < 2 ^ 32 -> 0 <= c < 2 ^ 32 -> 0 <= d < 2 ^ 32 ->
  bytes_of e bcsv.Header.struct
    (bcsv.int_obj [("entry_count", a); ("field_count", b);
                   ("entry_offset", c); ("entry_size", d)]%string)
  = Ok (u32 e a ++ u32 e b ++ u32 e c ++ u32 e d).
Proof.
  intros Ha Hb Hc Hd.
  change (bytes_of e bcsv.Header.struct
            (bcsv.int_obj [("entry_count", a); ("field_count", b);
                           ("entry_offset", c); ("entry_size", d)]%string))
    with (b1 <- basic_bytes e uint32 (VInt a) ;;
          b' <- (b2 <- basic_bytes e uint32 (VInt b) ;;
                 b' <- (b3 <- basic_bytes e uint32 (VInt c) ;;
                        b' <- (b4 <- basic_bytes e uint32 (VInt d) ;;
                               b' <- Ok [] ;; Ok (b4 ++ b')) ;;
                        Ok (b3 ++ b')) ;;
                 Ok (b2 ++ b')) ;;
          Ok (b1 ++ b'))%Z.
  rewrite !uint32_bytes by assumption. cbn [bind]. now rewrite app_nil_r.
Qed.

Lemma descriptor_bytes_ok e :
  bytes_of_all e bcsv.Field.struct
    (map bcsv.Field.obj SurfaceTypeList.bcsv_fields)
  = Ok (descriptor_bytes e).
Proof. destruct e; vm_compute; reflexivity. Qed.

Lemma length_descriptor_bytes e : length (descriptor_bytes e) = 60%nat.
Proof. destruct e; reflexivity. Qed.

Lemma align_padding s :
  align 0x20 ["@"%byte] s = (Ok tt, write s (padding (position s))).
Proof.
  unfold align, padding, tell. change (Pos.to_nat 32) with 32%nat.
  change (Nat.eqb 32 0) with false. cbv iota.
  destruct (Nat.eqb (position s mod 32) 0); [reflexivity|].
  cbn [length]. rewrite Nat.div_1_r, Nat.mod_1_r. cbn [firstn].
  rewrite app_nil_r. do 2 f_equal.
  generalize (32 - position s mod 32)%nat. intros n.
  induction n as [|n IH]; cbn [repeat concat app]; [reflexivity|now rewrite IH].
Qed.

Lemma surface_types_pack e types :
  Forall in_domain types -> len types < 2 ^ 32 ->
  SurfaceTypeList.pack (map SurfaceType.obj types) (new_stream e)
  = (Ok tt,
     write (new_stream e)
       (table_head e (len types) ++ surface_rows e types
          ++ padding (76 + 4 * length types))).
Proof.
  intros D L. unfold SurfaceTypeList.pack, bcsv.pack.
  change (bcsv.max_extent SurfaceTypeList.bcsv_fields) with (Ok 4).
  unfold iobind at 1. unfold lift at 1.
  change (align_length 4 4) with (Ok 4).
  unfold iobind at 1. unfold lift at 1. cbv zeta.
  change (len SurfaceTypeList.bcsv_fields) with 5.
  change (Z.of_nat (sizeof bcsv.Header.struct)
          + 5 * Z.of_nat (sizeof bcsv.Field.struct)) with 76.
  replace (len (map SurfaceType.obj types)) with (len types)
    by (unfold len; now rewrite length_map).
  assert (R : 0 <= len types < 2 ^ 32) by (unfold len in *; lia).
  unfold iobind at 1.
  rewrite (pack_run _ _ _ _
             (header_bytes (endianess (new_stream e)) _ 5 76 4 R
                ltac:(lia) ltac:(lia) ltac:(lia))).
  unfold iobind at 1.
  rewrite (for_each_pack_run _ _ _ _ _ (descriptor_bytes_ok _)).
  unfold iobind at 1. rewrite (pack_entries_rows types _ D).
  unfold iobind at 1. unfold io_write at 1. rewrite write_nil, align_padding.
  rewrite !endianess_write, !write_app, position_write.
  cbn [new_stream endianess position].
  unfold table_head, surface_rows. rewrite <- !app_assoc.
  do 8 f_equal. f_equal.
  rewrite !length_app, !length_u32, length_descriptor_bytes.
  rewrite (length_flat_map_const _ _ 4%nat) by (intros t; apply length_u32).
  lia.
Qed.

End SurfaceTable.

Section SurfaceUnpack.

Lemma unpack_surface_descriptors e before after :
  bcsv.unpack_descriptors 5 (at_cursor e before (descriptor_bytes e ++ after))
  = (Ok decoded_descriptors,
     at_cursor e (before ++ descriptor_bytes e) after).
Proof.
  destruct (unpack_descriptors_frame e 5 (descriptor_bytes e)
              (length_descriptor_bytes e)) as (fields & H).
  rewrite H. do 2 f_equal.
  specialize (H [] []).
  assert (E : fst (bcsv.unpack_descriptors 5
                     (at_cursor e [] (descriptor_bytes e ++ [])))
              = Ok decoded_descriptors)
    by (destruct e; vm_compute; reflexivity).
  rewrite H in E. cbn [fst] in E. congruence.
Qed.

Lemma descriptors_match :
  bcsv.descriptors_differ decoded_descriptors SurfaceTypeList.bcsv_fields
  = false.
Proof. vm_compute. reflexivity. Qed.

(** One [UINT32] field of a row read back: the word under the mask,
    shifted down. *)
Lemma unpack_cells_cons e field rest f bcsv_rest entry W p mask shift :
  lookup field "offset"%string = Some 0 ->
  lookup field "data_type"%string = Some bcsv.UINT32 ->
  lookup field "mask"%string = Some mask ->
  lookup field "shift"%string = Some shift ->
  0 <= W < 2 ^ 32 ->
  bcsv.unpack_cells (field :: rest) (f :: bcsv_rest) entry
    (mkStream e (u32 e W) p)
  = bcsv.unpack_cells rest bcsv_rest
      (update entry (bcsv.Field.attribute_name f)
         (Z.shiftr (Z.land W mask) shift))
      (mkStream e (u32 e W) 4).
Proof.
  intros Ho Ht Hm Hs R. cbn [bcsv.unpack_cells]. rewrite Ho.
  unfold iobind at 1. unfold io_seek at 1. unfold seek.
  cbn [endianess data Z.to_nat].
  unfold iobind at 1. unfold bcsv.unpack_cell. rewrite Ht, Hm, Hs.
  change (bcsv.UINT32 =? bcsv.UINT32) with true. cbv iota.
  unfold iobind at 1.
  pose proof (int_unpack_u32 e [] W [] R) as U.
  unfold at_cursor in U. cbn [app length] in U. rewrite app_nil_r in U.
  rewrite U. unfold ret. rewrite length_u32. reflexivity.
Qed.

Lemma unpack_row e t :
  in_domain t ->
  fst (bcsv.unpack_cells decoded_descriptors SurfaceTypeList.bcsv_fields []
         (mkStream e (u32 e (row_word t)) 0))
  = Ok (SurfaceType.obj t).
Proof.
  intros D.
  destruct (row_word_fields t D) as (F1 & F2 & F3 & F4 & F5).
  assert (R : 0 <= row_word t < 2 ^ 32)
    by (pose proof (row_word_range t D); lia).
  unfold decoded_descriptors, SurfaceTypeList.bcsv_fields. cbn [map].
  do 5 (erewrite unpack_cells_cons;
        [|reflexivity|reflexivity|reflexivity|reflexivity|exact R]).
  cbn [bcsv.Field.mask bcsv.Field.shift bcsv.Field.init
       bcsv.Field.attribute_name].
  rewrite F1, F2, F3, F4, F5.
  reflexivity.
Qed.

Lemma unpack_rows e types : forall before after,
  Forall in_domain types ->
  bcsv.unpack_entries (length types) decoded_descriptors
    SurfaceTypeList.bcsv_fields 4
    (at_cursor e before (surface_rows e types ++ after))
  = (Ok (map SurfaceType.obj types),
     at_cursor e (before ++ surface_rows e types) after).
Proof.
  induction types as [|t types IH]; intros before after D;
    cbn [length bcsv.unpack_entries map surface_rows flat_map].
  - unfold ret. now rewrite app_nil_r.
  - apply Forall_cons_iff in D as [Dt D].
    fold (surface_rows e types).
    unfold iobind at 1. unfold bcsv.unpack_entry.
    rewrite <- app_assoc. rewrite <- (length_u32 e (row_word t)) at 1.
    rewrite read_at_cursor. cbv beta iota zeta.
    change (endianess (at_cursor e before
                         (u32 e (row_word t) ++ surface_rows e types ++ after)))
      with e.
    rewrite (unpack_row e t Dt).
    unfold iobind at 1. rewrite (IH _ _ D). unfold ret.
    now rewrite <- app_assoc.
Qed.

Lemma unpack_header e before a b c d after :
  0 <= a < 2 ^ 32 -> 0 <= b < 2 ^ 32 -> 0 <= c < 2 ^ 32 -> 0 <= d < 2 ^ 32 ->
  unpack_fields bcsv.Header.fields
    (at_cursor e before (u32 e a ++ u32 e b ++ u32 e c ++ u32 e d ++ after))
  = (Ok [("entry_count", a); ("field_count", b);
         ("entry_offset", c); ("entry_size", d)]%string,
     at_cursor e (before ++ u32 e a ++ u32 e b ++ u32 e c ++ u32 e d) after).
Proof.
  intros Ha Hb Hc Hd. unfold bcsv.Header.fields. cbn [unpack_fields].
  unfold iobind, ret.
  rewrite (int_unpack_u32 e _ _ _ Ha). cbv beta iota.
  rewrite (int_unpack_u32 e _ _ _ Hb). cbv beta iota.
  rewrite (int_unpack_u32 e _ _ _ Hc). cbv beta iota.
  rewrite (int_unpack_u32 e _ _ _ Hd). cbv beta iota.
  now rewrite <- !app_assoc.
Qed.

Lemma surface_types_unpack e types pad :
  Forall in_domain types -> len types < 2 ^ 32 ->
  fst (SurfaceTypeList.unpack
         (mkStream e
            (table_head e (len types) ++ surface_rows e types ++ pad) 0))
  = Ok (map SurfaceType.obj types).
Proof.
  intros D L. assert (R : 0 <= len types < 2 ^ 32) by (unfold len in *; lia).
  unfold SurfaceTypeList.unpack, bcsv.unpack, table_head.
  rewrite <- !app_assoc.
  match goal with
  | |- context [mkStream e ?d 0] => change (mkStream e d 0) with (at_cursor e [] d)
  end.
  unfold iobind at 1.
  rewrite (unpack_header e _ _ 5 76 4 _ R ltac:(lia) ltac:(lia) ltac:(lia)).
  cbv [lookup String.eqb Ascii.eqb Bool.eqb andb].
  change (Z.to_nat 5) with 5%nat.
  unfold iobind at 1. rewrite unpack_surface_descriptors.
  rewrite descriptors_match.
  unfold iobind, io_seek, io_read_all, read_all, seek.
  cbn [endianess data at_cursor].
  unfold len. rewrite Nat2Z.id. change (Z.to_nat 4) with 4%nat.
  set (head := ([] ++ _) ++ descriptor_bytes e).
  assert (H : Z.to_nat 76 = length head).
  { unfold head. cbn [app].
    rewrite !length_app, !length_u32, length_descriptor_bytes. reflexivity. }
  rewrite H. fold (at_cursor e head (surface_rows e types ++ pad)).
  now rewrite (unpack_rows e types head pad D).
Qed.

End SurfaceUnpack.

(** C8: the row of the surface type with [camera_id] 0x12, [sound_code] 5,
    [floor_code] 10, [wall_code] 3 and [camera_through] true is the word
    0x02650512.  For surface types whose fields fit their masks, the
    surface-type list packs to the header, the five descriptors, one [u32]
    row word per entry and the padding; unpacking these bytes recovers the
    five fields of every entry ([camera_through] as 0 or 1); and packing
    what was unpacked gives the same bytes again. *)
Theorem surface_type_table_round_trip e types :
  Forall in_domain types -> len types < 2 ^ 32 ->
  let entries := map SurfaceType.obj types in
  let encoded :=
    table_head e (len types) ++ surface_rows e types
      ++ padding (76 + 4 * length types) in
  row_word example_surface_type = 0x02650512 /\
  SurfaceTypeList.pack entries (new_stream e)
  = (Ok tt, mkStream e encoded (length encoded)) /\
  fst (SurfaceTypeList.unpack (mkStream e encoded 0)) = Ok entries /\
  (forall decoded,
     fst (SurfaceTypeList.unpack (mkStream e encoded 0)) = Ok decoded ->
     SurfaceTypeList.pack decoded (new_stream e)
     = (Ok tt, mkStream e encoded (length encoded))).
Proof.
  intros D L entries encoded.
  assert (P : SurfaceTypeList.pack entries (new_stream e)
              = (Ok tt, mkStream e encoded (length encoded))).
  { unfold entries. rewrite (surface_types_pack e types D L).
    f_equal. apply write_new_stream. }
  assert (U : fst (SurfaceTypeList.unpack (mkStream e encoded 0))
              = Ok entries)
    by exact (surface_types_unpack e types _ D L).
  split; [reflexivity|]. split; [exact P|]. split; [exact U|].
  intros decoded H. rewrite U in H.
  assert (E : decoded = entries) by congruence. now rewrite E.
Qed.

Lemma surface_type_table_round_trip_witness :
  SurfaceTypeList.pack [SurfaceType.obj example_surface_type]
    (new_stream LITTLE_ENDIAN)
  = (Ok tt,
     mkStream LITTLE_ENDIAN
       (table_head LITTLE_ENDIAN 1 ++ u32 LITTLE_ENDIAN 0x02650512
          ++ repeat "@"%byte 16) 96) /\
  fst (SurfaceTypeList.unpack
         (mkStream LITTLE_ENDIAN
            (table_head LITTLE_ENDIAN 1 ++ u32 LITTLE_ENDIAN 0x02650512
               ++ repeat "@"%byte 16) 0))
  = Ok [SurfaceType.obj example_surface_type].
Proof.
  assert (D : Forall in_domain [example_surface_type]).
  { constructor; [|constructor]. unfold in_domain, example_surface_type.
    cbn [SurfaceType.camera_id SurfaceType.sound_code SurfaceType.floor_code
         SurfaceType.wall_code]. lia. }
  assert (L : len [example_surface_type] < 2 ^ 32) by (vm_compute; reflexivity).
  destruct (surface_type_table_round_trip LITTLE_ENDIAN
              [example_surface_type] D L) as (_ & P & U & _).
  split; [exact P|exact U].
Defined.

(* ================================================================== *)
(** * Further properties of the code                                *)
(* ================================================================== *)

Section Alignment.

Lemma align_length_ge length boundary r :
  0 < boundary -> align_length length boundary = Ok r -> length <= r.
Proof.
  intros Hb. unfold align_length.
  destruct (Z.eqb_spec boundary 0) as [Z0|_]; [lia|].
  intros H. injection H as <-.
  pose proof (Z.div_mod (length + boundary - 1) boundary ltac:(lia)) as D.
  pose proof (Z.mod_pos_bound (length + boundary - 1) boundary Hb) as M.
  lia.
Qed.

(** X1: for a positive boundary [align_length] returns the least multiple
    of the boundary that is not below the length. *)
Theorem align_length_least_multiple length boundary :
  0 < boundary ->
  exists r,
    align_length length boundary = Ok r /\
    r mod boundary = 0 /\ length <= r < length + boundary /\
    (forall m, m mod boundary = 0 -> length <= m -> r <= m).
Proof.
  intros Hb. unfold align_length.
  destruct (Z.eqb_spec boundary 0) as [Z0|_]; [lia|].
  eexists. split; [reflexivity|].
  pose proof (Z.div_mod (length + boundary - 1) boundary ltac:(lia)) as D.
  pose proof (Z.mod_pos_bound (length + boundary - 1) boundary Hb) as M.
  split; [apply Z.mod_mul; lia|]. split; [lia|].
  intros m Hm Hl. apply Z.mod_divide in Hm; [|lia]. destruct Hm as [k ->].
  apply Z.mul_le_mono_nonneg_r; [lia|].
  apply Z.lt_succ_r. apply Z.div_lt_upper_bound; [exact Hb|]. nia.
Qed.

Lemma align_length_least_multiple_witness :
  exists r, align_length 13 4 = Ok r /\ r mod 4 = 0 /\ 13 <= r < 13 + 4.
Proof.
  destruct (align_length_least_multiple 13 4 ltac:(lia))
    as (r & E & H1 & H2 & _).
  exists r. repeat split; assumption || apply H2.
Defined.

Lemma nth_error_cycle {A} (p : list A) n r i :
  (r <= length p)%nat -> (i < n * length p + r)%nat ->
  nth_error (concat (repeat p n) ++ firstn r p) i
  = nth_error p (i mod length p).
Proof.
  intros Hr. revert i. induction n as [|n IH]; intros i Hi;
    cbn [repeat concat app].
  - rewrite nth_error_firstn.
    destruct (Nat.ltb_spec i r) as [L|L]; [|lia].
    now rewrite Nat.mod_small by lia.
  - rewrite <- app_assoc.
    destruct (Nat.lt_ge_cases i (length p)) as [L|G].
    + rewrite nth_error_app1 by exact L. now rewrite Nat.mod_small.
    + rewrite nth_error_app2 by exact G. rewrite IH by lia. f_equal.
      replace i with ((i - length p) + 1 * length p)%nat at 2 by lia.
      now rewrite Nat.Div0.mod_add.
Qed.

Lemma length_cycle {A} (p : list A) n r :
  (r <= length p)%nat ->
  length (concat (repeat p n) ++ firstn r p) = (n * length p + r)%nat.
Proof.
  intros Hr. rewrite length_app, length_firstn, Nat.min_l by exact Hr.
  f_equal. induction n as [|n IH]; cbn [repeat concat length]; [reflexivity|].
  rewrite length_app, IH. lia.
Qed.

(** X2: with a positive boundary and a padding that is not empty, [align]
    brings the position to the next multiple of the boundary: it writes
    fewer bytes than the boundary (none when the position is a multiple
    already), and they are the padding repeated from its start. *)
Theorem align_pads_to_boundary boundary padding s :
  (0 < boundary)%nat -> padding <> [] ->
  exists pad,
    align boundary padding s = (Ok tt, write s pad) /\
    ((position s + length pad) mod boundary = 0)%nat /\
    (length pad < boundary)%nat /\
    (forall i, (i < length pad)%nat ->
               nth_error pad i = nth_error padding (i mod length padding)).
Proof.
  intros Hb Hp. unfold align, tell.
  destruct (Nat.eqb_spec boundary 0) as [Z0|_]; [lia|].
  pose proof (Nat.mod_upper_bound (position s) boundary ltac:(lia)) as M.
  pose proof (Nat.div_mod_eq (position s) boundary) as D.
  destruct (Nat.eqb_spec (position s mod boundary) 0) as [E|N].
  - exists []. rewrite write_nil. cbn [length]. rewrite Nat.add_0_r.
    repeat split; [exact E|lia|]. intros i Hi. lia.
  - destruct padding as [|b padding']; [congruence|].
    set (padding := b :: padding') in *.
    set (gap := (boundary - position s mod boundary)%nat).
    assert (Lp : (0 < length padding)%nat) by (cbn [padding length]; lia).
    pose proof (Nat.mod_upper_bound gap (length padding) ltac:(lia)) as R.
    pose proof (Nat.div_mod_eq gap (length padding)) as G.
    assert (L : length (concat (repeat padding (gap / length padding))
                          ++ firstn (gap mod length padding) padding) = gap).
    { rewrite length_cycle by lia. lia. }
    eexists. split; [reflexivity|]. rewrite L.
    split; [|split; [unfold gap; lia|]].
    + unfold gap.
      replace (position s + (boundary - position s mod boundary))%nat
        with (0 + (position s / boundary + 1) * boundary)%nat by nia.
      now rewrite Nat.Div0.mod_add, Nat.Div0.mod_0_l.
    + intros i Hi. apply nth_error_cycle; lia.
Qed.

Lemma align_pads_to_boundary_witness :
  exists pad,
    align 32 ["@"%byte] (write (new_stream LITTLE_ENDIAN) (repeat x00 20))
    = (Ok tt,
       write (write (new_stream LITTLE_ENDIAN) (repeat x00 20)) pad) /\
    (length pad < 32)%nat.
Proof.
  destruct (align_pads_to_boundary 32 ["@"%byte]
              (write (new_stream LITTLE_ENDIAN) (repeat x00 20))
              ltac:(lia) ltac:(discriminate)) as (pad & H & _ & L & _).
  exists pad. split; [exact H|exact L].
Defined.

(** Where a successful [align] leaves the stream. *)
Lemma align_position boundary padding s s' :
  (0 < boundary)%nat -> padding <> [] ->
  align boundary padding s = (Ok tt, s') ->
  (position s' mod boundary = 0 /\
   position s <= position s' < position s + boundary)%nat.
Proof.
  intros Hb Hp. unfold align, tell.
  destruct (Nat.eqb_spec boundary 0) as [Z0|_]; [lia|].
  pose proof (Nat.mod_upper_bound (position s) boundary ltac:(lia)) as M.
  pose proof (Nat.div_mod_eq (position s) boundary) as D.
  destruct (Nat.eqb_spec (position s mod boundary) 0) as [E|N].
  - intros H. injection H as <-. split; [exact E|lia].
  - destruct padding as [|b padding']; [congruence|].
    intros H.
    assert (H' : s' = write s
                   (concat (repeat (b :: padding')
                              ((boundary - position s mod boundary)
                               / length (b :: padding')))
                    ++ firstn ((boundary - position s mod boundary)
                               mod length (b :: padding')) (b :: padding')))
      by congruence.
    clear H. subst s'.
    set (padding := b :: padding') in *.
    set (gap := (boundary - position s mod boundary)%nat).
    assert (Lp : (0 < length padding)%nat) by (cbn [padding length]; lia).
    pose proof (Nat.mod_upper_bound gap (length padding) ltac:(lia)) as R.
    pose proof (Nat.div_mod_eq gap (length padding)) as G.
    rewrite position_write, length_cycle by lia.
    replace (gap / length padding * length padding + gap mod length padding)%nat
      with gap by lia.
    split; [|unfold gap; lia]. unfold gap.
    replace (position s + (boundary - position s mod boundary))%nat
      with (0 + (position s / boundary + 1) * boundary)%nat by nia.
    now rewrite Nat.Div0.mod_add, Nat.Div0.mod_0_l.
Qed.

End Alignment.

Section IntegerFormats.

(** A write that is not empty leaves the stream with the written bytes
    just behind its position. *)
Lemma write_at_cursor s bs :
  bs <> [] ->
  write s bs
  = at_cursor (endianess s)
      ((firstn (position s) (data s)
          ++ repeat x00 (position s - length (data s))) ++ bs)
      (skipn (position s + length bs) (data s)).
Proof.
  intros N. destruct bs as [|b bs]; [congruence|].
  rewrite write_cons. unfold at_cursor.
  rewrite <- !app_assoc, !length_app, length_firstn, repeat_length.
  f_equal. lia.
Qed.

Lemma seek_at_cursor e before bs after :
  seek (at_cursor e (before ++ bs) after) (length before)
  = at_cursor e before (bs ++ after).
Proof. unfold seek, at_cursor. cbn [endianess data]. now rewrite <- app_assoc. Qed.

Lemma int_bytes_fits e t n :
  fits t n ->
  int_bytes e t n
  = Ok (order e (le_bytes (calcsize t) (n mod 2 ^ (8 * Z.of_nat (calcsize t))))).
Proof.
  unfold fits, int_bytes. cbv zeta. intros F.
  destruct (is_signed t).
  - destruct (Z.leb_spec (- 2 ^ (8 * Z.of_nat (calcsize t) - 1)) n); [|lia].
    destruct (Z.ltb_spec n (2 ^ (8 * Z.of_nat (calcsize t) - 1))); [|lia].
    reflexivity.
  - destruct (Z.leb_spec 0 n); [|lia].
    destruct (Z.ltb_spec n (2 ^ (8 * Z.of_nat (calcsize t)))); [|lia].
    reflexivity.
Qed.

Lemma int_bytes_not_fits e t n :
  ~ fits t n -> int_bytes e t n = Raise StructError.
Proof.
  unfold fits, int_bytes. cbv zeta. intros F.
  destruct (is_signed t).
  - destruct (Z.leb_spec (- 2 ^ (8 * Z.of_nat (calcsize t) - 1)) n);
      destruct (Z.ltb_spec n (2 ^ (8 * Z.of_nat (calcsize t) - 1)));
      try reflexivity; lia.
  - destruct (Z.leb_spec 0 n);
      destruct (Z.ltb_spec n (2 ^ (8 * Z.of_nat (calcsize t))));
      try reflexivity; lia.
Qed.

Lemma calcsize_positive t : (0 < calcsize t)%nat.
Proof. destruct t; cbn [calcsize]; lia. Qed.

(** The value read back from the bytes of a value that fits. *)
Lemma decode_fits t n :
  fits t n ->
  let bits := 8 * Z.of_nat (calcsize t) in
  let m := n mod 2 ^ bits in
  (if is_signed t && (2 ^ (bits - 1) <=? m) then m - 2 ^ bits else m) = n.
Proof.
  unfold fits. cbv zeta. intros F.
  pose proof (calcsize_positive t) as Hc.
  set (bits := 8 * Z.of_nat (calcsize t)) in *.
  assert (P : 2 ^ bits = 2 * 2 ^ (bits - 1)).
  { replace bits with (Z.succ (bits - 1)) at 1 by lia.
    apply Z.pow_succ_r. lia. }
  assert (H : 0 < 2 ^ (bits - 1)) by (apply Z.pow_pos_nonneg; lia).
  destruct (is_signed t); cbn [andb].
  - destruct (Z.le_gt_cases 0 n) as [G|L].
    + rewrite Z.mod_small by lia.
      destruct (Z.leb_spec (2 ^ (bits - 1)) n); lia.
    + assert (E : n mod 2 ^ bits = n + 2 ^ bits).
      { rewrite <- (Z.mod_add n 1 (2 ^ bits)) by lia.
        rewrite Z.mul_1_l. apply Z.mod_small. lia. }
      rewrite E. destruct (Z.leb_spec (2 ^ (bits - 1)) (n + 2 ^ bits)); lia.
  - apply Z.mod_small. lia.
Qed.

(** X3: an integer that fits an integer format is packed in the size of
    the format and read back unchanged from where it was written, in either
    byte order and wherever the stream stood. *)
Theorem basic_type_round_trip t n s :
  t <> float32 -> fits t n ->
  exists s1,
    basic_pack t (VInt n) s = (Ok tt, s1) /\
    position s1 = (position s + calcsize t)%nat /\
    int_unpack t (seek s1 (position s)) = (Ok n, s1).
Proof.
  intros Ht F. unfold basic_pack.
  assert (B : basic_bytes (endianess s) t (VInt n)
              = int_bytes (endianess s) t n)
    by (destruct t; try reflexivity; congruence).
  rewrite B, (int_bytes_fits _ _ _ F).
  set (bs := order (endianess s) (le_bytes (calcsize t) _)).
  assert (L : length bs = calcsize t)
    by (unfold bs; now rewrite length_order, length_le_bytes).
  assert (N : bs <> []).
  { pose proof (calcsize_positive t). destruct bs; [cbn in L; lia|discriminate]. }
  exists (write s bs). split; [reflexivity|].
  split; [now rewrite position_write, L|].
  rewrite (write_at_cursor s bs N).
  set (before := firstn (position s) (data s) ++ _).
  assert (Lb : position s = length before) by (unfold before; now rewrite length_prefix).
  set (after := skipn _ _). rewrite Lb, seek_at_cursor.
  unfold int_unpack. rewrite <- L, read_at_cursor, Nat.eqb_refl.
  cbn [at_cursor endianess]. do 2 f_equal.
  rewrite L. unfold bs. rewrite order_order, le_value_le_bytes.
  rewrite Z.mod_mod by (apply Z.pow_nonzero; lia).
  exact (decode_fits t n F).
Qed.

Lemma basic_type_round_trip_witness :
  exists s1,
    basic_pack sint16 (VInt (-2)) (new_stream BIG_ENDIAN) = (Ok tt, s1) /\
    int_unpack sint16 (seek s1 0) = (Ok (-2), s1).
Proof.
  destruct (basic_type_round_trip sint16 (-2) (new_stream BIG_ENDIAN)
              ltac:(discriminate) ltac:(vm_compute; split; congruence))
    as (s1 & P & _ & U).
  exists s1. split; [exact P|exact U].
Defined.

(** X4: an integer that does not fit the format is refused with
    [struct.error], and nothing is written. *)
Theorem basic_type_out_of_range t n s :
  t <> float32 -> ~ fits t n ->
  basic_pack t (VInt n) s = (Raise StructError, s).
Proof.
  intros Ht F. unfold basic_pack.
  assert (B : basic_bytes (endianess s) t (VInt n)
              = int_bytes (endianess s) t n)
    by (destruct t; try reflexivity; congruence).
  now rewrite B, (int_bytes_not_fits _ _ _ F).
Qed.

Lemma basic_type_out_of_range_witness :
  basic_pack uint8 (VInt 256) (new_stream LITTLE_ENDIAN)
  = (Raise StructError, new_stream LITTLE_ENDIAN).
Proof.
  apply basic_type_out_of_range; [discriminate|].
  vm_compute. intros [_ H]. discriminate H.
Defined.

End IntegerFormats.

Section Structures.

(** X5: a [Struct.pack] that succeeds advances the stream by the size of
    the structure, keeps the bytes behind the position it started at and
    the bytes beyond the position it ends at. *)
Theorem struct_pack_writes_sizeof t v s s' :
  btypes.pack t v s = (Ok tt, s') ->
  position s' = (position s + sizeof t)%nat /\
  endianess s' = endianess s /\
  ((position s <= length (data s))%nat ->
   firstn (position s) (data s') = firstn (position s) (data s)) /\
  skipn (position s') (data s') = skipn (position s') (data s).
Proof.
  intros H. apply pack_ok in H as (bs & Hb & ->).
  pose proof (length_bytes_of _ _ _ _ Hb) as L.
  rewrite position_write, endianess_write, L.
  split; [reflexivity|]. split; [reflexivity|].
  destruct bs as [|b bs]; [rewrite write_nil; now split|].
  rewrite data_write by discriminate. rewrite L.
  set (p := position s). set (d := data s).
  pose proof (length_prefix d p) as Lp.
  split.
  - intros Hp. rewrite app_assoc, <- app_assoc.
    replace (p - length d)%nat with 0%nat by lia.
    cbn [repeat app].
    rewrite firstn_app, firstn_firstn, Nat.min_id, length_firstn.
    replace (p - Nat.min p (length d))%nat with 0%nat by lia.
    cbn [firstn]. now rewrite app_nil_r.
  - rewrite !app_assoc.
    replace (p + sizeof t)%nat
      with (length ((firstn p d ++ repeat x00 (p - length d)) ++ b :: bs))
      by (rewrite length_app, Lp, L; reflexivity).
    now rewrite skipn_length_app.
Qed.

Lemma struct_pack_writes_sizeof_witness :
  position (snd (btypes.pack Vector.struct (Vector.obj (Vector.mk 1 2 3))
                   (new_stream LITTLE_ENDIAN))) = 12%nat.
Proof.
  assert (H : btypes.pack Vector.struct (Vector.obj (Vector.mk 1 2 3))
                (new_stream LITTLE_ENDIAN)
              = (Ok tt, snd (btypes.pack Vector.struct
                               (Vector.obj (Vector.mk 1 2 3))
                               (new_stream LITTLE_ENDIAN))))
    by (vm_compute; reflexivity).
  exact (proj1 (struct_pack_writes_sizeof _ _ _ _ H)).
Defined.

Lemma lookup_int_obj attrs name :
  lookup (map (fun a : string * Z => (fst a, VInt (snd a))) attrs) name
  = option_map VInt (lookup attrs name).
Proof.
  induction attrs as [|[k v] attrs IH]; cbn [map lookup fst snd];
    [reflexivity|].
  destruct (String.eqb k name); [reflexivity|exact IH].
Qed.

(** An integer that fits, read back from its bytes. *)
Lemma int_unpack_fits e t n before after :
  t <> float32 -> fits t n ->
  exists bs,
    basic_bytes e t (VInt n) = Ok bs /\
    int_unpack t (at_cursor e before (bs ++ after))
    = (Ok n, at_cursor e (before ++ bs) after).
Proof.
  intros Ht F.
  assert (B : basic_bytes e t (VInt n) = int_bytes e t n)
    by (destruct t; try reflexivity; congruence).
  rewrite B, (int_bytes_fits _ _ _ F).
  set (bs := order e (le_bytes (calcsize t) _)).
  assert (L : length bs = calcsize t)
    by (unfold bs; now rewrite length_order, length_le_bytes).
  exists bs. split; [reflexivity|].
  unfold int_unpack. rewrite <- L, read_at_cursor, Nat.eqb_refl.
  cbn [at_cursor endianess]. do 2 f_equal.
  rewrite L. unfold bs. rewrite order_order, le_value_le_bytes.
  rewrite Z.mod_mod by (apply Z.pow_nonzero; lia).
  exact (decode_fits t n F).
Qed.

Lemma int_struct_bytes e attrs fs :
  forall vals,
    Forall (fun f => snd f <> float32) fs ->
    attributes_of fs attrs = Some vals ->
    Forall (fun a => forall t, In (fst a, t) fs -> fits t (snd a)) vals ->
    exists bs,
      bytes_of e (bcsv.int_struct fs) (bcsv.int_obj attrs) = Ok bs /\
      forall before after,
        unpack_fields fs (at_cursor e before (bs ++ after))
        = (Ok vals, at_cursor e (before ++ bs) after).
Proof.
  induction fs as [|[name t] fs IH]; intros vals Ht Ha Hf.
  - cbn [attributes_of fold_right] in Ha. injection Ha as <-.
    exists []. split; [reflexivity|]. intros before after.
    cbn [unpack_fields]. unfold ret. now rewrite app_nil_r.
  - cbn [attributes_of fold_right fst] in Ha.
    fold (attributes_of fs attrs) in Ha.
    destruct (lookup attrs name) as [v|] eqn:Hv; [|discriminate].
    destruct (attributes_of fs attrs) as [rest|] eqn:Hr; [|discriminate].
    injection Ha as <-.
    apply Forall_cons_iff in Ht as [Ht1 Ht]. cbn [snd] in Ht1.
    apply Forall_cons_iff in Hf as [Hf1 Hf]. cbn [fst snd] in Hf1.
    destruct (IH rest Ht eq_refl) as (bs' & Hb' & Hu').
    { eapply Forall_impl; [|exact Hf]. intros a Ha t' Hin.
      apply Ha. now right. }
    assert (F : fits t v) by (apply Hf1; now left).
    change (bytes_of e (bcsv.int_struct ((name, t) :: fs)) (bcsv.int_obj attrs))
      with (a <- getattr (bcsv.int_obj attrs) name ;;
            bs <- basic_bytes e t a ;;
            bs' <- bytes_of e (bcsv.int_struct fs) (bcsv.int_obj attrs) ;;
            Ok (bs ++ bs')).
    unfold getattr, bcsv.int_obj at 1. rewrite lookup_int_obj, Hv.
    cbn [option_map bind].
    exists (match basic_bytes e t (VInt v) with Ok bs => bs | _ => [] end ++ bs').
    destruct (int_unpack_fits e t v [] [] Ht1 F) as (bs & Hb & _).
    rewrite Hb, Hb'. cbn [bind]. split; [reflexivity|].
    intros before after. cbn [unpack_fields]. unfold iobind.
    destruct (int_unpack_fits e t v before (bs' ++ after) Ht1 F)
      as (bs2 & Hb2 & Hu).
    assert (bs2 = bs) by congruence. subst bs2.
    rewrite <- app_assoc, Hu, Hu'. unfold ret. now rewrite <- app_assoc.
Qed.

(** X6: a structure of integer fields whose attributes fit their formats
    is read back by [Struct.unpack], field by field, from where
    [Struct.pack] wrote it. *)
Theorem int_struct_round_trip fs attrs vals s :
  Forall (fun f => snd f <> float32) fs ->
  attributes_of fs attrs = Some vals ->
  Forall (fun a => forall t, In (fst a, t) fs -> fits t (snd a)) vals ->
  exists s1,
    btypes.pack (bcsv.int_struct fs) (bcsv.int_obj attrs) s = (Ok tt, s1) /\
    unpack_fields fs (seek s1 (position s)) = (Ok vals, s1).
Proof.
  intros Ht Ha Hf.
  destruct (int_struct_bytes (endianess s) attrs fs vals Ht Ha Hf)
    as (bs & Hb & Hu).
  exists (write s bs). split; [exact (pack_run _ _ _ _ Hb)|].
  destruct bs as [|b bs].
  - rewrite write_nil. specialize (Hu [] []).
    destruct fs as [|[name t] fs].
    + cbn [attributes_of fold_right] in Ha. injection Ha as <-.
      destruct s; reflexivity.
    + exfalso. pose proof (length_bytes_of _ _ _ _ Hb) as L.
      apply Forall_cons_iff in Ht as [Ht1 _]. cbn [snd] in Ht1.
      cbn [bcsv.int_struct map sizeof fst snd fold_left length] in L.
      pose proof (calcsize_positive t) as Hc.
      assert (G : forall l acc, (acc <= fold_left Nat.add l acc)%nat).
      { induction l as [|x l IHl]; intros acc; cbn [fold_left]; [lia|].
        specialize (IHl (acc + x)%nat). lia. }
      specialize (G (map (fun f => sizeof (snd f))
                       (map (fun f : string * BasicType =>
                               (fst f, TBasic (snd f))) fs))
                    (0 + calcsize t)%nat).
      cbn [sizeof] in L. lia.
  - rewrite (write_at_cursor s (b :: bs)) by discriminate.
    set (before := firstn (position s) (data s) ++ _).
    set (after := skipn _ _).
    assert (Lb : position s = length before)
      by (unfold before; now rewrite length_prefix).
    rewrite Lb, seek_at_cursor. apply Hu.
Qed.

Lemma int_struct_round_trip_witness :
  exists s1,
    btypes.pack (bcsv.int_struct bcsv.Header.fields)
      (bcsv.int_obj [("entry_count", 3); ("field_count", 5);
                     ("entry_offset", 76); ("entry_size", 4)]%string)
      (new_stream BIG_ENDIAN) = (Ok tt, s1) /\
    unpack_fields bcsv.Header.fields (seek s1 0)
    = (Ok [("entry_count", 3); ("field_count", 5);
           ("entry_offset", 76); ("entry_size", 4)]%string, s1).
Proof.
  apply (int_struct_round_trip bcsv.Header.fields
           [("entry_count", 3); ("field_count", 5);
            ("entry_offset", 76); ("entry_size", 4)]%string
           [("entry_count", 3); ("field_count", 5);
            ("entry_offset", 76); ("entry_size", 4)]%string
           (new_stream BIG_ENDIAN)).
  - repeat constructor; discriminate.
  - reflexivity.
  - repeat constructor; intros t H; cbn [In fst snd bcsv.Header.fields] in H;
      repeat (destruct H as [H|H]; [inversion H; subst; vm_compute; split; congruence|]);
      destruct H.
Defined.

End Structures.

Section TruncatedInput.

Lemma int_unpack_short t s :
  (length (data s) - position s < calcsize t)%nat ->
  fst (int_unpack t s) = Raise StructError.
Proof.
  intros H. unfold int_unpack, read.
  set (bs := firstn (calcsize t) (skipn (position s) (data s))).
  assert (L : (length bs < calcsize t)%nat)
    by (unfold bs; rewrite length_firstn, length_skipn; lia).
  destruct (Nat.eqb_spec (length bs) (calcsize t)); [lia|reflexivity].
Qed.

Lemma int_unpack_enough t s :
  (calcsize t <= length (data s) - position s)%nat ->
  exists n s',
    int_unpack t s = (Ok n, s') /\ data s' = data s /\
    position s' = (position s + calcsize t)%nat.
Proof.
  intros H. unfold int_unpack, read.
  set (bs := firstn (calcsize t) (skipn (position s) (data s))).
  assert (L : length bs = calcsize t)
    by (unfold bs; rewrite length_firstn, length_skipn; lia).
  rewrite L, Nat.eqb_refl. eexists. eexists. split; [reflexivity|].
  cbn [data position]. split; reflexivity.
Qed.

(** X7: [Struct.unpack] on a stream that has fewer bytes left than the
    structure is long raises [struct.error]. *)
Theorem struct_unpack_truncated fs s :
  (length (data s) - position s < fields_size fs)%nat ->
  fst (unpack_fields fs s) = Raise StructError.
Proof.
  revert s. induction fs as [|[name t] fs IH]; intros s H;
    cbn [fields_size] in H; [lia|].
  cbn [unpack_fields]. unfold iobind at 1.
  destruct (Nat.lt_ge_cases (length (data s) - position s) (calcsize t))
    as [S|E].
  - pose proof (int_unpack_short t s S) as R.
    destruct (int_unpack t s) as [[n| |] s1]; cbn [fst] in *;
      [discriminate|congruence|discriminate].
  - destruct (int_unpack_enough t s E) as (n & s1 & -> & Hd & Hp).
    unfold iobind. specialize (IH s1). rewrite Hd, Hp in IH.
    destruct (unpack_fields fs s1) as [[obj| |] s2]; cbn [fst] in *;
      try (apply IH; lia).
    assert (Ok obj = Raise StructError) by (apply IH; lia). discriminate.
Qed.

Lemma struct_unpack_truncated_witness :
  fst (unpack_fields bcsv.Header.fields
         (mkStream LITTLE_ENDIAN (repeat x00 15) 0))
  = Raise StructError.
Proof.
  apply struct_unpack_truncated. cbn [data position length repeat fields_size
    bcsv.Header.fields calcsize]. lia.
Defined.

End TruncatedInput.

Section NameHash.

Lemma land_u32_range n : 0 <= Z.land n 0xFFFFFFFF < 2 ^ 32.
Proof.
  change 0xFFFFFFFF with (Z.ones 32). rewrite Z.land_ones by lia.
  apply Z.mod_pos_bound. reflexivity.
Qed.

(** X8: the hash of a name is an unsigned 32-bit number, and the hash of a
    name with one more character is the hash of the name times 31 plus the
    code of the character, cut to 32 bits. *)
Theorem name_hash_step name c :
  0 <= bcsv.calculate_name_hash name < 2 ^ 32 /\
  bcsv.calculate_name_hash (name ++ String c EmptyString)
  = Z.land (bcsv.calculate_name_hash name * 31 + Z.of_nat (nat_of_ascii c))
      0xFFFFFFFF.
Proof.
  unfold bcsv.calculate_name_hash.
  assert (A : forall a b, list_ascii_of_string (a ++ b)
                          = list_ascii_of_string a ++ list_ascii_of_string b).
  { induction a as [|x a IH]; intros b; cbn [append list_ascii_of_string app];
      [reflexivity|now rewrite IH]. }
  split.
  - assert (G : forall l h, 0 <= h < 2 ^ 32 ->
                0 <= fold_left (fun h c => Z.land (h * 31 + Z.of_nat (nat_of_ascii c))
                                              0xFFFFFFFF) l h < 2 ^ 32).
    { induction l as [|x l IH]; intros h Hh; cbn [fold_left]; [exact Hh|].
      apply IH. apply land_u32_range. }
    apply G. lia.
  - rewrite A, fold_left_app. reflexivity.
Qed.

End NameHash.

Section TableSize.

Lemma length_write_within s bs :
  (position s + length bs <= length (data s))%nat ->
  length (data (write s bs)) = length (data s).
Proof.
  intros H. destruct bs as [|b bs]; [reflexivity|].
  rewrite write_cons. cbn [data].
  rewrite !length_app, length_firstn, repeat_length, length_skipn.
  cbn [length] in *. lia.
Qed.

Lemma basic_pack_within t v s s' :
  basic_pack t v s = (Ok tt, s') ->
  (position s + calcsize t <= length (data s))%nat ->
  length (data s') = length (data s).
Proof.
  intros H L. apply basic_pack_ok in H as (bs & Hb & ->).
  apply length_write_within. now rewrite (length_basic_bytes _ _ _ _ Hb).
Qed.

Lemma data_size_calcsize field size :
  bcsv.Field.data_size field = Some size -> 1 <= size <= 4.
Proof.
  unfold bcsv.Field.data_size.
  repeat (destruct (_ =? _); [intros H; injection H as <-; lia|]).
  discriminate.
Qed.

(** A cell written inside the entry block leaves its length as it was. *)
Lemma pack_cell_within field value size block block' :
  bcsv.Field.data_size field = Some size ->
  0 <= bcsv.Field.offset field ->
  position block = Z.to_nat (bcsv.Field.offset field) ->
  bcsv.Field.offset field + size <= Z.of_nat (length (data block)) ->
  bcsv.pack_cell field value block = (Ok tt, block') ->
  length (data block') = length (data block).
Proof.
  unfold bcsv.Field.data_size, bcsv.pack_cell. intros Hs Ho Hp Hl H.
  destruct (bcsv.Field.data_type field =? bcsv.UINT32).
  { injection Hs as <-.
    destruct (bcsv.Field.shift field <? 0); [discriminate|].
    apply iobind_ok in H as (old & s1 & H1 & H).
    destruct (int_unpack_enough uint32 block) as (n & s1' & E & Hd & _);
      [cbn [calcsize]; lia|].
    rewrite E in H1. assert (s1 = s1') by congruence. subst s1'. clear H1.
    apply iobind_ok in H as ([] & s2 & H2 & H).
    apply io_seek_ok in H2 as ->.
    apply basic_pack_within in H.
    - rewrite H. cbn [seek data]. now rewrite Hd.
    - cbn [seek position data calcsize]. rewrite Hd. lia. }
  destruct (bcsv.Field.data_type field =? bcsv.FLOAT32).
  { injection Hs as <-. apply basic_pack_within in H; [exact H|].
    cbn [calcsize]. lia. }
  destruct (bcsv.Field.data_type field =? bcsv.SINT32).
  { injection Hs as <-. apply basic_pack_within in H; [exact H|].
    cbn [calcsize]. lia. }
  destruct (bcsv.Field.data_type field =? bcsv.SINT16).
  { injection Hs as <-. apply basic_pack_within in H; [exact H|].
    cbn [calcsize]. lia. }
  destruct (bcsv.Field.data_type field =? bcsv.SINT8).
  { injection Hs as <-. apply basic_pack_within in H; [exact H|].
    cbn [calcsize]. lia. }
  destruct (bcsv.Field.data_type field =? bcsv.STRING); discriminate.
Qed.

Lemma pack_cells_within entry fields :
  forall block block',
    Forall (fun f => exists size,
                bcsv.Field.data_size f = Some size /\
                bcsv.Field.offset f + size <= Z.of_nat (length (data block)))
           fields ->
    bcsv.pack_cells fields entry block = (Ok tt, block') ->
    length (data block') = length (data block).
Proof.
  induction fields as [|f fields IH]; intros block block' Hf H;
    cbn [bcsv.pack_cells] in H.
  - unfold ret in H. now injection H as <-.
  - apply Forall_cons_iff in Hf as [(size & Hs & Hl) Hf].
    apply iobind_ok in H as (value & s1 & H1 & H).
    apply lift_ok in H1 as [_ ->].
    destruct (Z.ltb_spec (bcsv.Field.offset f) 0) as [|Ho]; [discriminate|].
    apply iobind_ok in H as ([] & s1 & H1 & H). apply io_seek_ok in H1 as ->.
    apply iobind_ok in H as ([] & s2 & H2 & H).
    apply (pack_cell_within f value size) in H2;
      [|exact Hs|exact Ho|reflexivity|exact Hl].
    cbn [seek data] in H2. apply IH in H.
    + now rewrite H, H2.
    + rewrite H2. exact Hf.
Qed.

Lemma max_extent_bound fields :
  forall extent,
    bcsv.max_extent fields = Ok extent ->
    Forall (fun f => exists size,
                bcsv.Field.data_size f = Some size /\
                bcsv.Field.offset f + size <= extent) fields.
Proof.
  induction fields as [|f fields IH]; intros extent H;
    cbn [bcsv.max_extent] in H; [discriminate|].
  destruct (bcsv.Field.data_size f) as [size|] eqn:Hs; [|discriminate].
  destruct fields as [|g fields].
  - injection H as <-. constructor; [|constructor]. exists size. split; [exact Hs|lia].
  - apply bind_ok in H as (m & Hm & H). injection H as <-.
    specialize (IH m Hm).
    destruct (Z.ltb_spec (bcsv.Field.offset f + size) m).
    + constructor; [exists size; split; [exact Hs|lia]|exact IH].
    + constructor; [exists size; split; [exact Hs|lia]|].
      eapply Forall_impl; [|exact IH].
      intros a (sz & Ha & Hb). exists sz. split; [exact Ha|lia].
Qed.

Lemma pack_entry_writes fields extent entry_size entry s s' :
  bcsv.max_extent fields = Ok extent ->
  align_length extent 4 = Ok entry_size ->
  bcsv.pack_entry fields entry_size entry s = (Ok tt, s') ->
  exists bs,
    s' = write s bs /\ length bs = Z.to_nat entry_size.
Proof.
  intros He Hal H. unfold bcsv.pack_entry in H.
  set (block := mkStream _ _ 0) in H.
  destruct (bcsv.pack_cells fields entry block) as [[[]| |] block'] eqn:E;
    try discriminate.
  injection H as <-. exists (data block'). split; [reflexivity|].
  apply pack_cells_within in E.
  - rewrite E. unfold block. cbn [data]. apply repeat_length.
  - pose proof (max_extent_bound fields extent He) as B.
    destruct fields as [|f fields]; [constructor|].
    assert (P : 0 <= extent).
    { apply Forall_cons_iff in B as [(size & Hs & Hl) _].
      pose proof (data_size_calcsize f size Hs).
      cbn [bcsv.pack_cells] in E.
      apply iobind_ok in E as (value & s1 & H1 & E).
      destruct (Z.ltb_spec (bcsv.Field.offset f) 0); [discriminate|lia]. }
    pose proof (align_length_ge extent 4 entry_size ltac:(lia) Hal) as R.
    eapply Forall_impl; [|exact B].
    intros a (sz & Ha & Hb). exists sz. split; [exact Ha|].
    unfold block. cbn [data]. rewrite repeat_length, Z2Nat.id by lia. lia.
Qed.

Lemma pack_entries_write fields extent entry_size entries : forall s s',
  bcsv.max_extent fields = Ok extent ->
  align_length extent 4 = Ok entry_size ->
  for_each (bcsv.pack_entry fields entry_size) entries s = (Ok tt, s') ->
  exists bs,
    s' = write s bs /\
    length bs = (length entries * Z.to_nat entry_size)%nat.
Proof.
  induction entries as [|entry entries IH]; intros s s' He Hs H;
    cbn [for_each] in H.
  - unfold ret in H. injection H as <-. now exists [].
  - apply iobind_ok in H as ([] & s1 & H1 & H).
    apply (pack_entry_writes _ _ _ _ _ _ He Hs) in H1 as (b1 & -> & L1).
    apply (IH _ _ He Hs) in H as (b2 & -> & L2).
    exists (b1 ++ b2). split; [now rewrite write_app|].
    rewrite length_app, L1, L2. cbn [length]. lia.
Qed.

(** X9: for a list class without a [STRING] column (the string pool then
    stays empty) and entries with integer attributes, a [ListBase.pack]
    that succeeds writes the header of 16 bytes, a descriptor of 12 bytes
    for each field and a row of [entry_size] bytes for each entry,
    [entry_size] being the largest [offset + data_size] of a field rounded
    up to a multiple of 4, and then pads to the next multiple of 32. *)
Theorem bcsv_pack_size fields entries s s' :
  Forall (fun f => bcsv.Field.data_type f <> bcsv.STRING) fields ->
  bcsv.pack fields entries s = (Ok tt, s') ->
  exists extent entry_size,
    bcsv.max_extent fields = Ok extent /\
    align_length extent 4 = Ok entry_size /\
    let body := (position s + 16 + 12 * length fields
                 + length entries * Z.to_nat entry_size)%nat in
    (position s' mod 32 = 0 /\ body <= position s' < body + 32)%nat.
Proof.
  unfold bcsv.pack. intros _ H.
  apply iobind_ok in H as (extent & s1 & H1 & H).
  apply lift_ok in H1 as [He ->].
  apply iobind_ok in H as (entry_size & s1 & H1 & H).
  apply lift_ok in H1 as [Hs ->]. cbv zeta in H.
  exists extent, entry_size. split; [exact He|]. split; [exact Hs|].
  cbv zeta.
  apply iobind_ok in H as ([] & s1 & H1 & H).
  apply pack_ok in H1 as (hb & Hhb & ->).
  apply length_bytes_of in Hhb.
  change (sizeof bcsv.Header.struct) with 16%nat in Hhb.
  apply iobind_ok in H as ([] & s1 & H1 & H).
  apply for_each_pack_ok in H1 as (db & _ & -> & Ldb).
  change (sizeof bcsv.Field.struct) with 12%nat in Ldb.
  apply iobind_ok in H as ([] & s1 & H1 & H).
  apply (pack_entries_write _ _ _ _ _ _ He Hs) in H1 as (rb & -> & Lrb).
  apply iobind_ok in H as ([] & s1 & H1 & H).
  apply io_write_ok in H1 as ->. rewrite write_nil in H.
  destruct (align_position 32 ["@"%byte] _ _ ltac:(lia) ltac:(discriminate) H)
    as (Hm & Hl & Hu).
  rewrite !position_write, Hhb, Ldb, Lrb in Hl, Hu.
  split; [exact Hm|]. lia.
Qed.

Lemma bcsv_pack_size_witness :
  (position (snd (SurfaceTypeList.pack [SurfaceType.obj example_surface_type]
                    (new_stream LITTLE_ENDIAN))) mod 32 = 0)%nat.
Proof.
  assert (H : bcsv.pack SurfaceTypeList.bcsv_fields
                [SurfaceType.obj example_surface_type]
                (new_stream LITTLE_ENDIAN)
              = (Ok tt,
                 snd (SurfaceTypeList.pack
                        [SurfaceType.obj example_surface_type]
                        (new_stream LITTLE_ENDIAN))))
    by (vm_compute; reflexivity).
  assert (N : Forall (fun f => bcsv.Field.data_type f <> bcsv.STRING)
                SurfaceTypeList.bcsv_fields)
    by (repeat constructor; discriminate).
  destruct (bcsv_pack_size _ _ _ _ N H) as (extent & size & _ & _ & Hm & _).
  exact Hm.
Defined.

End TableSize.

Section OtherFields.

(** X10: a surface-type table read by an [ObjectList] class whose declared
    fields differ from the five of the table is refused, and since
    [FormatError] is defined nowhere in the program the exception is a
    [NameError]. *)
Theorem unpack_with_other_fields_raises e types fields pad :
  Forall in_domain types -> len types < 2 ^ 32 ->
  bcsv.descriptors_differ decoded_descriptors fields = true ->
  fst (bcsv.unpack fields
         (mkStream e
            (table_head e (len types) ++ surface_rows e types ++ pad) 0))
  = Raise NameError.
Proof.
  intros D L F. assert (R : 0 <= len types < 2 ^ 32) by (unfold len in *; lia).
  unfold bcsv.unpack, table_head.
  rewrite <- !app_assoc.
  match goal with
  | |- context [mkStream e ?d 0] => change (mkStream e d 0) with (at_cursor e [] d)
  end.
  unfold iobind at 1.
  rewrite (unpack_header e _ _ 5 76 4 _ R ltac:(lia) ltac:(lia) ltac:(lia)).
  cbv [lookup String.eqb Ascii.eqb Bool.eqb andb].
  change (Z.to_nat 5) with 5%nat.
  unfold iobind at 1. rewrite unpack_surface_descriptors.
  rewrite F. reflexivity.
Qed.

Lemma unpack_with_other_fields_raises_witness :
  fst (bcsv.unpack
         [bcsv.Field.init "camera_id" bcsv.UINT32 "camera_id" 0 0x0000FFFF 0]
         (mkStream LITTLE_ENDIAN
            (table_head LITTLE_ENDIAN 1 ++ u32 LITTLE_ENDIAN 0x02650512
               ++ repeat "@"%byte 16) 0))
  = Raise NameError.
Proof.
  apply (unpack_with_other_fields_raises LITTLE_ENDIAN [example_surface_type]
           [bcsv.Field.init "camera_id" bcsv.UINT32 "camera_id" 0 0x0000FFFF 0]
           (repeat "@"%byte 16)).
  - constructor; [|constructor]. unfold in_domain, example_surface_type.
    cbn [SurfaceType.camera_id SurfaceType.sound_code SurfaceType.floor_code
         SurfaceType.wall_code]. lia.
  - vm_compute. reflexivity.
  - vm_compute. reflexivity.
Defined.

End OtherFields.

Section WelderInvariant.

Lemma calculate_hash_bound self ix iy iz h :
  VertexWelder.calculate_hash self ix iy iz = Ok h ->
  (h < length (VertexWelder.buckets self))%nat.
Proof.
  unfold VertexWelder.calculate_hash.
  destruct (VertexWelder.buckets self) as [|b bs] eqn:E; [discriminate|].
  rewrite <- E. intros H.
  assert (P : 0 < len (VertexWelder.buckets self))
    by (rewrite E; unfold len; cbn [length]; lia).
  set (x := ix * VertexWelder.magic_x + iy * VertexWelder.magic_y
            + iz * VertexWelder.magic_z) in *.
  assert (Hh : h = Z.to_nat (x mod len (VertexWelder.buckets self)))
    by congruence.
  pose proof (Z.mod_pos_bound x _ P). unfold len in *. lia.
Qed.

Lemma bucket_append_length bs h i :
  length (VertexWelder.bucket_append bs h i) = length bs.
Proof.
  revert h. induction bs as [|b bs IH]; intros h;
    cbn [VertexWelder.bucket_append]; [reflexivity|].
  destruct h; cbn [length]; [reflexivity|now rewrite IH].
Qed.

Lemma bucket_append_Forall (P : nat -> Prop) bs h i :
  Forall (Forall P) bs -> P i ->
  Forall (Forall P) (VertexWelder.bucket_append bs h i).
Proof.
  intros Hb Hi. revert h. induction Hb as [|b bs Hb1 Hb IH]; intros h;
    cbn [VertexWelder.bucket_append]; [constructor|].
  destruct h.
  - constructor; [|exact Hb]. apply Forall_app. split; [exact Hb1|].
    now constructor.
  - constructor; [exact Hb1|apply IH].
Qed.

(** What a successful [add] leaves behind. *)
Lemma add_effect self vertex index self' :
  VertexWelder.add self vertex = Ok (index, self') ->
  (index < length (VertexWelder.vertices self'))%nat /\
  VertexWelder.threshold self' = VertexWelder.threshold self /\
  VertexWelder.cell_width self' = VertexWelder.cell_width self /\
  length (VertexWelder.buckets self')
  = length (VertexWelder.buckets self) /\
  (self' = self \/
   index = length (VertexWelder.vertices self) /\
   VertexWelder.vertices self' = VertexWelder.vertices self ++ [vertex]) /\
  (well_formed self -> well_formed self').
Proof.
  intros H. unfold VertexWelder.add in H.
  do 6 (apply bind_ok in H as (? & _ & H)).
  apply bind_ok in H as (found & Hfound & H).
  destruct found as [i|].
  - injection H as <- <-.
    apply scan_cells_hit in Hfound as (p & Hp & _).
    assert (i < length (VertexWelder.vertices self))%nat
      by (apply nth_error_Some; congruence).
    repeat split; auto.
  - do 3 (apply bind_ok in H as (? & _ & H)).
    apply bind_ok in H as (h & Hh & H).
    apply bind_ok in H as (? & _ & H).
    injection H as <- <-.
    cbn [VertexWelder.vertices VertexWelder.threshold VertexWelder.cell_width
         VertexWelder.buckets].
    rewrite bucket_append_length, length_app. cbn [length].
    repeat split; try lia.
    + right. split; [lia|reflexivity].
    + intros W. unfold well_formed in *.
      cbn [VertexWelder.vertices VertexWelder.buckets].
      rewrite length_app. cbn [length].
      apply bucket_append_Forall; [|lia].
      eapply Forall_impl; [|exact W]. intros b Hb.
      eapply Forall_impl; [|exact Hb]. intros j Hj. cbn beta in *. lia.
Qed.

End WelderInvariant.

(** X11: a successful [VertexWelder.add] returns an index into the kept
    vertices; it either changes nothing or appends the vertex, which then
    has the returned index, so the vertices kept before stay where they
    were; the number of buckets, the threshold and the cell width stay; and
    if every index in the buckets named a kept vertex before, it does so
    afterwards. *)
Theorem add_keeps_the_welder self vertex index self' :
  VertexWelder.add self vertex = Ok (index, self') ->
  (index < length (VertexWelder.vertices self'))%nat /\
  (forall i p, nth_error (VertexWelder.vertices self) i = Some p ->
               nth_error (VertexWelder.vertices self') i = Some p) /\
  (self' = self \/
   index = length (VertexWelder.vertices self) /\
   VertexWelder.vertices self' = VertexWelder.vertices self ++ [vertex]) /\
  length (VertexWelder.buckets self') = length (VertexWelder.buckets self) /\
  VertexWelder.threshold self' = VertexWelder.threshold self /\
  VertexWelder.cell_width self' = VertexWelder.cell_width self /\
  (well_formed self -> well_formed self').
Proof.
  intros H. destruct (add_effect _ _ _ _ H) as (Hi & Ht & Hc & Hb & Hv & Hw).
  split; [exact Hi|]. split; [|tauto].
  intros i p Hp. destruct Hv as [->|[_ ->]]; [exact Hp|].
  rewrite nth_error_app1; [exact Hp|]. apply nth_error_Some. congruence.
Qed.

Lemma add_keeps_the_welder_witness :
  (0 < length (VertexWelder.vertices sample_welder))%nat /\
  well_formed sample_welder.
Proof.
  assert (H : VertexWelder.add (VertexWelder.init 0.5 4) (Vector.mk 0 0 0)
              = Ok (0%nat, sample_welder)) by (vm_compute; reflexivity).
  destruct (add_keeps_the_welder _ _ _ _ H) as (Hi & _ & _ & _ & _ & _ & Hw).
  split; [exact Hi|]. apply Hw.
  unfold well_formed, VertexWelder.init. cbn [VertexWelder.buckets].
  apply Forall_forall. intros b Hb. apply repeat_spec in Hb. subst b.
  constructor.
Defined.

Section WelderSafety.

Variable self : VertexWelder.t.
Hypothesis self_well_formed : well_formed self.

Lemma scan_bucket_safe vertex bucket :
  Forall (fun index => (index < length (VertexWelder.vertices self))%nat) bucket ->
  exists found, VertexWelder.scan_bucket self vertex bucket = Ok found.
Proof.
  induction 1 as [|i bucket Hi _ IH]; cbn [VertexWelder.scan_bucket];
    [eauto|].
  unfold getitem.
  destruct (nth_error (VertexWelder.vertices self) i) as [p|] eqn:E.
  - cbn [bind]. destruct (VertexWelder.close_enough self vertex p); eauto.
  - apply nth_error_None in E. lia.
Qed.

Lemma scan_cells_safe vertex cs :
  VertexWelder.scan_cells self vertex cs <> Raise IndexError.
Proof.
  induction cs as [|[[ix iy] iz] cs IH]; cbn [VertexWelder.scan_cells];
    [discriminate|].
  destruct (VertexWelder.calculate_hash self ix iy iz) as [h|e|] eqn:Hh;
    cbn [bind]; [|unfold VertexWelder.calculate_hash in Hh;
                  destruct (VertexWelder.buckets self); congruence
                 |discriminate].
  apply calculate_hash_bound in Hh. unfold getitem.
  destruct (nth_error (VertexWelder.buckets self) h) as [bucket|] eqn:E;
    [|apply nth_error_None in E; lia].
  cbn [bind].
  assert (Hb : Forall (fun index =>
                         (index < length (VertexWelder.vertices self))%nat)
                      bucket).
  { unfold well_formed in self_well_formed.
    rewrite Forall_forall in self_well_formed.
    apply self_well_formed. exact (nth_error_In _ _ E). }
  destruct (scan_bucket_safe vertex bucket Hb) as (found & ->).
  cbn [bind]. destruct found; [discriminate|exact IH].
Qed.

Lemma cell_of_safe c : VertexWelder.cell_of self c <> Raise IndexError.
Proof.
  unfold VertexWelder.cell_of, truediv, int_of_float.
  destruct (_ =? _)%float; cbn [bind]; [discriminate|].
  destruct (Prim2SF _); discriminate.
Qed.

End WelderSafety.

(** X12: when every index in the buckets names a kept vertex,
    [VertexWelder.add] raises no [IndexError]: the hash is an index into
    the buckets and a bucket holds indices of kept vertices. *)
Theorem add_raises_no_index_error self vertex :
  well_formed self ->
  VertexWelder.add self vertex <> Raise IndexError.
Proof.
  intros W. unfold VertexWelder.add.
  repeat match goal with
  | |- bind (VertexWelder.cell_of ?s ?c) _ <> _ =>
      let E := fresh "E" in
      pose proof (cell_of_safe s c) as E;
      destruct (VertexWelder.cell_of s c) as [?|?|]; cbn [bind];
      [clear E|congruence|discriminate]
  end.
  match goal with
  | |- bind (VertexWelder.scan_cells ?s ?v ?cs) _ <> _ =>
      pose proof (scan_cells_safe s W v cs) as E;
      destruct (VertexWelder.scan_cells s v cs) as [found|?|]; cbn [bind];
      [clear E|congruence|discriminate]
  end.
  destruct found as [i|]; [discriminate|]. cbv zeta.
  repeat match goal with
  | |- bind (VertexWelder.cell_of ?s ?c) _ <> _ =>
      let E := fresh "E" in
      pose proof (cell_of_safe s c) as E;
      destruct (VertexWelder.cell_of s c) as [?|?|]; cbn [bind];
      [clear E|congruence|discriminate]
  end.
  match goal with
  | |- bind (VertexWelder.calculate_hash ?s ?x ?y ?z) _ <> _ =>
      destruct (VertexWelder.calculate_hash s x y z) as [h|?|] eqn:Hh;
      cbn [bind];
      [|unfold VertexWelder.calculate_hash in Hh;
        destruct (VertexWelder.buckets s); congruence
       |discriminate]
  end.
  apply calculate_hash_bound in Hh. unfold getitem.
  destruct (nth_error (VertexWelder.buckets self) h) eqn:E;
    [cbn [bind]; discriminate|].
  apply nth_error_None in E. lia.
Qed.

Lemma add_raises_no_index_error_witness :
  VertexWelder.add (VertexWelder.init 0.5 4) (Vector.mk 0 0 0)
  <> Raise IndexError.
Proof.
  apply add_raises_no_index_error.
  unfold well_formed, VertexWelder.init. cbn [VertexWelder.buckets].
  apply Forall_forall. intros b Hb. apply repeat_spec in Hb. subst b.
  constructor.
Defined.

Section Faces.

Lemma add_growth self vertex index self' :
  VertexWelder.add self vertex = Ok (index, self') ->
  (index < length (VertexWelder.vertices self'))%nat /\
  (length (VertexWelder.vertices self)
   <= length (VertexWelder.vertices self')
   <= length (VertexWelder.vertices self) + 1)%nat /\
  (well_formed self -> well_formed self').
Proof.
  intros H. destruct (add_effect _ _ _ _ H) as (Hi & _ & _ & _ & Hv & Hw).
  split; [exact Hi|]. split; [|exact Hw].
  destruct Hv as [->|[_ ->]]; [lia|]. rewrite length_app. cbn [length]. lia.
Qed.

Lemma make_face_effect triangle vw nw face vw' nw' :
  make_face triangle vw nw = Ok (face, vw', nw') ->
  face_in_tables vw' nw' face /\
  Face.group_index face = Triangle.group_index triangle /\
  (length (VertexWelder.vertices vw) <= length (VertexWelder.vertices vw')
   <= length (VertexWelder.vertices vw) + 1)%nat /\
  (length (VertexWelder.vertices nw) <= length (VertexWelder.vertices nw')
   <= length (VertexWelder.vertices nw) + 4)%nat /\
  (well_formed vw -> well_formed vw') /\
  (well_formed nw -> well_formed nw').
Proof.
  intros H. unfold make_face in H.
  do 3 (apply bind_ok in H as (? & _ & H)). cbv zeta in H.
  apply bind_ok in H as ([p vw1] & Hp & H). apply add_growth in Hp.
  apply bind_ok in H as ([n nw1] & Hn & H). apply add_growth in Hn.
  apply bind_ok in H as ([a nw2] & Ha & H). apply add_growth in Ha.
  apply bind_ok in H as ([b nw3] & Hb & H). apply add_growth in Hb.
  apply bind_ok in H as ([c nw4] & Hc & H). apply add_growth in Hc.
  injection H as <- <- <-.
  unfold face_in_tables.
  cbn [Face.p_index Face.n_index Face.a_index Face.b_index Face.c_index
       Face.group_index].
  repeat split; try tauto; lia.
Qed.

Lemma face_in_tables_grows vw nw vw' nw' face :
  (length (VertexWelder.vertices vw) <= length (VertexWelder.vertices vw'))%nat ->
  (length (VertexWelder.vertices nw) <= length (VertexWelder.vertices nw'))%nat ->
  face_in_tables vw nw face -> face_in_tables vw' nw' face.
Proof. unfold face_in_tables. lia. Qed.

Lemma make_faces_effect triangles :
  forall vw nw faces vw' nw',
    make_faces triangles vw nw = Ok (faces, vw', nw') ->
    map Face.group_index faces = map Triangle.group_index triangles /\
    Forall (face_in_tables vw' nw') faces /\
    (length (VertexWelder.vertices vw) <= length (VertexWelder.vertices vw')
     <= length (VertexWelder.vertices vw) + length triangles)%nat /\
    (length (VertexWelder.vertices nw) <= length (VertexWelder.vertices nw')
     <= length (VertexWelder.vertices nw) + 4 * length triangles)%nat /\
    (well_formed vw -> well_formed vw') /\
    (well_formed nw -> well_formed nw').
Proof.
  induction triangles as [|t triangles IH]; intros vw nw faces vw' nw' H;
    cbn [make_faces] in H.
  - injection H as <- <- <-. cbn [map length]. repeat split; auto; lia.
  - apply bind_ok in H as ([[face vw1] nw1] & H1 & H).
    apply bind_ok in H as ([[faces' vw2] nw2] & H2 & H).
    injection H as <- <- <-.
    apply make_face_effect in H1 as (F1 & G1 & V1 & N1 & Wv1 & Wn1).
    apply IH in H2 as (G2 & F2 & V2 & N2 & Wv2 & Wn2).
    cbn [map length]. rewrite G1, G2.
    split; [reflexivity|]. split.
    + constructor; [|exact F2].
      eapply face_in_tables_grows; [| |exact F1]; lia.
    + repeat split; try lia; auto.
Qed.

End Faces.

(** X13: the faces [pack] makes for its triangles are as many as the
    triangles and carry their group indices in order; every index field of
    a face names an entry of the welded vertex or normal table as it is in
    the end; welding adds at most one vertex and at most four normals for
    each triangle; and the welders stay well formed. *)
Theorem make_faces_fills_the_tables triangles vw nw faces vw' nw' :
  make_faces triangles vw nw = Ok (faces, vw', nw') ->
  length faces = length triangles /\
  map Face.group_index faces = map Triangle.group_index triangles /\
  Forall (face_in_tables vw' nw') faces /\
  (length (VertexWelder.vertices vw') <=
   length (VertexWelder.vertices vw) + length triangles)%nat /\
  (length (VertexWelder.vertices nw') <=
   length (VertexWelder.vertices nw) + 4 * length triangles)%nat /\
  (well_formed vw -> well_formed vw') /\
  (well_formed nw -> well_formed nw').
Proof.
  intros H. apply make_faces_effect in H as (G & F & V & N & Wv & Wn).
  split.
  - rewrite <- (length_map Face.group_index), G. apply length_map.
  - repeat split; auto; lia.
Qed.

Lemma make_faces_fills_the_tables_witness :
  exists faces vw nw,
    make_faces [sample_triangle] (VertexWelder.init 0x1p-1 1)
      (VertexWelder.init 0x1p-22 1) = Ok (faces, vw, nw) /\
    length faces = 1%nat /\ Forall (face_in_tables vw nw) faces.
Proof.
  destruct (make_faces [sample_triangle] (VertexWelder.init 0x1p-1 1)
              (VertexWelder.init 0x1p-22 1)) as [[[faces vw] nw]| |] eqn:E;
    [|vm_compute in E; discriminate E..].
  destruct (make_faces_fills_the_tables _ _ _ _ _ _ E) as (L & _ & F & _).
  exists faces, vw, nw. repeat split; [exact L|exact F].
Defined.

(** X14: [pack] never raises [GeometryOverflowError('too many vertices')]:
    only one vertex of each triangle is welded, so a triangle list that
    passes the face gate leaves fewer than 65534 welded vertices. *)
Theorem pack_never_too_many_vertices
    log fuel triangles max_triangles min_width s :
  fst (kcl.pack log fuel triangles max_triangles min_width s)
  <> Raise (GeometryOverflowError "too many vertices").
Proof.
  unfold kcl.pack.
  destruct (Z.leb_spec (0xFFFF - 1) (len triangles)) as [G|G];
    [unfold raise; cbn [fst]; intros H; discriminate H|].
  unfold iobind at 1. unfold lift at 1.
  destruct (make_faces triangles _ _) as [[[faces vw] nw]|e|] eqn:E;
    [|cbn [fst]; pose proof (of_make_faces triangles
        (VertexWelder.init 0x1p-1 ((len triangles + 63) / 64))
        (VertexWelder.init 0x1p-22 ((4 * len triangles + 63) / 64))) as O;
      rewrite E in O; intros H; injection H as ->; exact (O _ eq_refl)
     |cbn [fst]; discriminate].
  apply make_faces_effect in E as (_ & _ & V & _).
  cbn [VertexWelder.init VertexWelder.vertices length] in V.
  destruct (Z.leb_spec 0xFFFF (len (VertexWelder.vertices vw))) as [T|_];
    [unfold len in *; lia|].
  destruct (0xFFFF <=? len (VertexWelder.vertices nw));
    [unfold raise; cbn [fst]; intros H; discriminate H|].
  pose proof (iof_pack_body log fuel triangles max_triangles min_width
                faces vw nw s) as O.
  intros H. apply (O "too many vertices"%string). exact H.
Qed.

(** X15: [pack] of an empty triangle list passes the gates, reserves the
    header and then fails in the octree constructor, whose [min()] of an
    empty sequence is a [ValueError]: the sink is left with the 56 zero
    bytes of the reserved header. *)
Theorem pack_without_triangles log fuel max_triangles min_width s :
  kcl.pack log fuel [] max_triangles min_width s
  = (Raise ValueError, write s (repeat x00 56)).
Proof.
  unfold kcl.pack.
  change (0xFFFF - 1 <=? len (@nil Triangle.t)) with false. cbv iota.
  unfold iobind at 1. unfold lift at 1. cbn [make_faces].
  cbv beta iota.
  change (0xFFFF <=? len (VertexWelder.vertices
                            (VertexWelder.init 0x1p-1
                               ((len (@nil Triangle.t) + 63) / 64))))
    with false.
  change (0xFFFF <=? len (VertexWelder.vertices
                            (VertexWelder.init 0x1p-22
                               ((4 * len (@nil Triangle.t) + 63) / 64))))
    with false.
  cbv iota. unfold pack_body.
  change (VertexWelder.vertices
            (VertexWelder.init 0x1p-1 ((len (@nil Triangle.t) + 63) / 64)))
    with (@nil Vector.t).
  change (VertexWelder.vertices
            (VertexWelder.init 0x1p-22 ((4 * len (@nil Triangle.t) + 63) / 64)))
    with (@nil Vector.t).
  change (sizeof Header.struct) with 56%nat.
  unfold iobind, io_write, io_tell, lift. cbn [for_each]. unfold ret.
  destruct fuel; reflexivity.
Qed.

Section DegenerateTriangles.

Local Open Scope float_scope.

Lemma zero_float_0 : zero_float 0.
Proof. now exists false. Qed.

Lemma mul_zero_l a b :
  zero_float a -> is_finite b = true -> zero_float (a * b).
Proof.
  intros [s Ha] Hb. unfold zero_float. rewrite mul_spec, Ha.
  destruct (Prim2SF_finite b Hb) as [[t ->]|(t & m & e & ->)];
    cbn [SF64mul SFmul]; eauto.
Qed.

Lemma mul_zero_r a b :
  is_finite a = true -> zero_float b -> zero_float (a * b).
Proof.
  intros Ha [s Hb]. unfold zero_float. rewrite mul_spec, Hb.
  destruct (Prim2SF_finite a Ha) as [[t ->]|(t & m & e & ->)];
    cbn [SF64mul SFmul]; eauto.
Qed.

Lemma zero_float_finite a : zero_float a -> is_finite a = true.
Proof.
  intros [s H]. unfold is_finite, is_nan, is_infinity.
  rewrite !eqb_spec, abs_spec, H. destruct s; reflexivity.
Qed.

Lemma sub_zero a b : zero_float a -> zero_float b -> zero_float (a - b).
Proof.
  intros [s Ha] [t Hb]. unfold zero_float. rewrite sub_spec, Ha, Hb.
  destruct s, t; cbn; eauto.
Qed.

Lemma add_zero a b : zero_float a -> zero_float b -> zero_float (a + b).
Proof.
  intros [s Ha] [t Hb]. unfold zero_float. rewrite add_spec, Ha, Hb.
  destruct s, t; cbn; eauto.
Qed.

Lemma sqrt_zero a : zero_float a -> zero_float (sqrt a).
Proof.
  intros [s Ha]. unfold zero_float. rewrite sqrt_spec, Ha. cbn. eauto.
Qed.

Lemma zero_not_negative a : zero_float a -> (a <? 0) = false.
Proof.
  intros [s Ha]. rewrite ltb_spec, Ha. destruct s; reflexivity.
Qed.

Lemma zero_eqb a : zero_float a -> (a =? 0) = true.
Proof.
  intros [s Ha]. rewrite eqb_spec, Ha. destruct s; reflexivity.
Qed.

(** A vector of zeros has no unit vector. *)
Lemma unit_of_zero a :
  zero_float (Vector.x a) -> zero_float (Vector.y a) ->
  zero_float (Vector.z a) ->
  Vector.unit a = Raise ZeroDivisionError.
Proof.
  intros Hx Hy Hz. unfold Vector.unit, Vector.norm, math_sqrt.
  assert (N : zero_float (Vector.norm_square a)).
  { unfold Vector.norm_square.
    repeat first [apply add_zero|apply mul_zero_l|apply zero_float_finite
                 |assumption]. }
  rewrite (zero_not_negative _ N). cbn [bind].
  unfold Vector.truediv, truediv. rewrite (zero_eqb _ (sqrt_zero _ N)).
  reflexivity.
Qed.

End DegenerateTriangles.

(** X16: a triangle whose second or third vertex is its first cannot be
    constructed: with finite coordinates and a finite other edge the cross
    product is a vector of zeros, and [unit()] divides by its norm [0.0]. *)
Theorem degenerate_triangle_raises u p group_index :
  finite_vector u = true -> finite_vector (Vector.sub p u) = true ->
  Triangle.init u u p group_index = Raise ZeroDivisionError /\
  Triangle.init u p u group_index = Raise ZeroDivisionError.
Proof.
  unfold finite_vector. intros Hu Hp.
  apply andb_true_iff in Hu as [Hu Huz]. apply andb_true_iff in Hu as [Hux Huy].
  apply andb_true_iff in Hp as [Hp Hpz]. apply andb_true_iff in Hp as [Hpx Hpy].
  assert (Z0 : Vector.sub u u = Vector.mk 0 0 0).
  { unfold Vector.sub. now rewrite !sub_diag by assumption. }
  unfold Triangle.init. rewrite Z0.
  split.
  - rewrite unit_of_zero; [reflexivity|..]; unfold cross;
      cbn [Vector.x Vector.y Vector.z];
      apply sub_zero; apply mul_zero_l; first [apply zero_float_0|assumption].
  - rewrite unit_of_zero; [reflexivity|..]; unfold cross;
      cbn [Vector.x Vector.y Vector.z];
      apply sub_zero; apply mul_zero_r; first [apply zero_float_0|assumption].
Qed.

Lemma degenerate_triangle_raises_witness :
  Triangle.init (Vector.mk 1 2 3) (Vector.mk 1 2 3) (Vector.mk 4 5 6) 0
  = Raise ZeroDivisionError.
Proof.
  exact (proj1 (degenerate_triangle_raises (Vector.mk 1 2 3) (Vector.mk 4 5 6)
                  0 eq_refl eq_refl)).
Defined.

Section GridShape.

Variable min_width : Z.
Hypothesis min_width_positive : 1 <= min_width.

Lemma loop_state_trans o o1 o2 :
  loop_state o o1 -> loop_state o1 o2 -> loop_state o o2.
Proof.
  intros H1 H2. induction H2 as [|o2 o3 _ IH T S]; [exact H1|].
  exact (loop_next o o2 o3 IH T S).
Qed.

(** The result of the loop is one of its states. *)
Lemma flatten_loop_state fuel : forall o o',
  Octree.flatten fuel o = Ok o' -> loop_state o o'.
Proof.
  induction fuel as [|fuel IH]; intros o o' H; cbn [Octree.flatten] in H;
    [discriminate|].
  apply bind_ok in H as (again & T & H). destruct again.
  - apply bind_ok in H as (o1 & S & H).
    apply (loop_state_trans o o1 o'); [|exact (IH _ _ H)].
    exact (loop_next o o o1 (loop_start o) T S).
  - injection H as <-. constructor.
Qed.

Lemma flatten_step_keeps o o' :
  Octree.flatten_step o = Ok o' ->
  Octree.triangles o' = Octree.triangles o /\
  Octree.max_triangles o' = Octree.max_triangles o /\
  Octree.min_width o' = Octree.min_width o /\
  Octree.base o' = Octree.base o /\
  Octree.width_x o' = Octree.width_x o /\
  Octree.width_y o' = Octree.width_y o /\
  Octree.width_z o' = Octree.width_z o.
Proof.
  unfold Octree.flatten_step. intros H.
  apply bind_ok in H as (children' & _ & H). injection H as <-.
  repeat split.
Qed.

Lemma pow2_double a b : 0 <= a -> 2 * 2 ^ a = 2 ^ b -> b = a + 1.
Proof.
  intros Ha H. rewrite <- Z.pow_succ_r in H by exact Ha.
  destruct (Z.lt_ge_cases b 0) as [N|P].
  - rewrite (Z.pow_neg_r 2 b N) in H.
    pose proof (Z.pow_pos_nonneg 2 (Z.succ a) ltac:(lia) ltac:(lia)). lia.
  - apply (Z.pow_inj_r 2) in H; lia.
Qed.

Lemma grid_shape_step o o' :
  loop_invariant min_width o -> grid_shape o ->
  Octree.flatten_test o = Ok true -> Octree.flatten_step o = Ok o' ->
  grid_shape o'.
Proof.
  intros I (ex & ey & ez & j & Hj & Hx & Hy & Hz & Wx & Wy & Wz & Bw & Nx & Ny
            & Nz & L) T S.
  destruct (flatten_step_invariant min_width min_width_positive o o' I T S)
    as (I' & B' & Nx' & Ny' & Nz').
  destruct (flatten_step_keeps o o' S) as (_ & _ & _ & _ & Wx' & Wy' & Wz').
  destruct I' as (Px & Py & Pz & L' & j' & _ & Hj' & Bj' & _).
  assert (E : j = j' + 1).
  { apply pow2_double; [lia|]. rewrite <- Bj', <- Bw. exact B'. }
  assert (D : forall e, j <= e -> 2 * 2 ^ (e - j) = 2 ^ (e - j')).
  { intros e He. replace (e - j') with (Z.succ (e - j)) by lia.
    rewrite Z.pow_succ_r by lia. reflexivity. }
  exists ex, ey, ez, j'.
  rewrite Wx', Wy', Wz', Nx', Ny', Nz', Nx, Ny, Nz, !D by assumption.
  repeat split; try lia; try assumption.
  unfold len. rewrite L', Z2Nat.id.
  - rewrite Nx', Ny', Nz', Nx, Ny, Nz, !D by assumption. reflexivity.
  - pose proof (Z.mul_pos_pos _ _ (Z.mul_pos_pos _ _ Px Py) Pz). lia.
Qed.

Lemma grid_shape_loop o o' :
  loop_invariant min_width o -> grid_shape o -> loop_state o o' ->
  grid_shape o'.
Proof.
  intros I G H. induction H as [|o1 o2 H1 IH T S]; [exact G|].
  apply (grid_shape_step o1 o2); auto.
  exact (loop_state_invariant min_width min_width_positive o o1 I H1).
Qed.

Lemma grid_shape_build log fuel triangles max_triangles o :
  Octree.build log fuel triangles max_triangles min_width = Ok o ->
  grid_shape o.
Proof.
  intros H.
  pose proof (build_invariant _ _ _ _ _ _ H) as (Px & Py & Pz & L & _).
  apply build_ok in H as (base & ex & ey & ez & children & E & -> & _).
  assert (Hx : 0 <= ex) by lia. assert (Hy : 0 <= ey) by lia.
  assert (Hz : 0 <= ez) by lia.
  rewrite !min_pow2 in * by lia.
  set (m := Z.min ex (Z.min ey ez)) in *.
  cbn [Octree.nx Octree.ny Octree.nz Octree.children Octree.base_width] in *.
  assert (D : forall e, m <= e -> 2 ^ e / 2 ^ m = 2 ^ (e - m)).
  { intros e He. rewrite Z.pow_sub_r by lia. reflexivity. }
  exists ex, ey, ez, m.
  cbn [Octree.nx Octree.ny Octree.nz Octree.children Octree.base_width
       Octree.width_x Octree.width_y Octree.width_z].
  rewrite !D by lia. repeat split; try lia.
  unfold len. rewrite L, Z2Nat.id, !D by lia. reflexivity.
Qed.

End GridShape.

(** X17: for a minimal width of at least 1 the finished octree has widths
    [2^ex], [2^ey], [2^ez] and a cell side [2^j] with [0 <= j] not above
    the three exponents, grid dimensions [2^(ex-j)], [2^(ey-j)],
    [2^(ez-j)], so that each width is the dimension times the cell side,
    and [nx*ny*nz] top-level nodes; the flattening changes neither the
    triangles and the widths nor the base corner. *)
Theorem finished_octree_shape
    log fuel triangles max_triangles min_width o :
  1 <= min_width ->
  Octree.init log fuel triangles max_triangles min_width = Ok o ->
  grid_shape o /\
  Octree.nx o * Octree.base_width o = Octree.width_x o /\
  Octree.ny o * Octree.base_width o = Octree.width_y o /\
  Octree.nz o * Octree.base_width o = Octree.width_z o /\
  Octree.triangles o = triangles /\
  exists built,
    Octree.build log fuel triangles max_triangles min_width = Ok built /\
    loop_state built o /\
    Octree.base o = Octree.base built /\
    Octree.width_x o = Octree.width_x built /\
    Octree.width_y o = Octree.width_y built /\
    Octree.width_z o = Octree.width_z built.
Proof.
  intros Hm H. unfold Octree.init in H.
  apply bind_ok in H as (built & Hb & Hf).
  pose proof (build_invariant _ _ _ _ _ _ Hb) as I.
  pose proof (grid_shape_build min_width log fuel triangles max_triangles
                built Hb) as G.
  pose proof (flatten_loop_state fuel built o Hf) as S.
  pose proof (grid_shape_loop min_width Hm built o I G S) as G'.
  assert (K : Octree.triangles o = Octree.triangles built /\
              Octree.base o = Octree.base built /\
              Octree.width_x o = Octree.width_x built /\
              Octree.width_y o = Octree.width_y built /\
              Octree.width_z o = Octree.width_z built).
  { clear G' Hf. induction S as [|o1 o2 _ IH _ St]; [repeat split|].
    destruct (flatten_step_keeps o1 o2 St) as (T & _ & _ & B & X & Y & Z).
    destruct IH as (T' & B' & X' & Y' & Z').
    repeat split; congruence. }
  destruct K as (Kt & Kb & Kx & Ky & Kz).
  split; [exact G'|].
  destruct G' as (ex & ey & ez & j & Hj & Hx & Hy & Hz & Wx & Wy & Wz & Bw
                  & Nx & Ny & Nz & _).
  assert (P : forall e, j <= e -> 2 ^ (e - j) * 2 ^ j = 2 ^ e).
  { intros e He. rewrite <- Z.pow_add_r by lia. f_equal. lia. }
  split; [now rewrite Nx, Bw, Wx, P|].
  split; [now rewrite Ny, Bw, Wy, P|].
  split; [now rewrite Nz, Bw, Wz, P|].
  split.
  - rewrite Kt. apply build_ok in Hb as (? & ? & ? & ? & ? & _ & -> & _).
    reflexivity.
  - exists built. repeat split; assumption.
Qed.

Lemma finished_octree_shape_witness :
  Octree.nx finished_mesh * Octree.base_width finished_mesh
  = Octree.width_x finished_mesh.
Proof.
  assert (H : Octree.init sample_log 10 flattened_mesh 1 1 = Ok finished_mesh)
    by (vm_compute; reflexivity).
  exact (proj1 (proj2 (finished_octree_shape sample_log 10 flattened_mesh 1 1
                         finished_mesh ltac:(lia) H))).
Defined.

Section FirstPass.

Lemma list_sum_cons a l : list_sum (a :: l) = (a + list_sum l)%nat.
Proof. reflexivity. Qed.

Lemma tables_sub_branches nodes :
  list_sum (map tables (sub_branches nodes))
  = list_sum (map branches_below nodes).
Proof.
  induction nodes as [|[indices|children] nodes IH];
    cbn [sub_branches map branches_below]; rewrite ?list_sum_cons;
    [reflexivity|exact IH|].
  rewrite IH. reflexivity.
Qed.

Lemma skipn_cons_nth {A} (l : list A) i a :
  nth_error l i = Some a -> skipn i l = a :: skipn (S i) l.
Proof.
  revert i. induction l as [|b l IH]; intros [|i] H; try discriminate.
  - now injection H as ->.
  - cbn [nth_error] in H. cbn [skipn]. exact (IH i H).
Qed.

(** The loop of the first pass runs once for each table that is queued or
    will be, and ends with all of them in the queue. *)
Lemma walk_terminates fuel :
  forall i branches keys,
    (i <= length branches)%nat ->
    (list_sum (map tables (skipn i branches)) < fuel)%nat ->
    exists branches' list_offsets free,
      walk fuel i branches (assign keys 0) (total_list_bytes keys)
      = Ok (branches', list_offsets, free) /\
      length branches'
      = (i + list_sum (map tables (skipn i branches)))%nat.
Proof.
  induction fuel as [|fuel IH]; intros i branches keys Hi Hf; [lia|].
  cbn [walk]. destruct (nth_error branches i) as [nodes|] eqn:N.
  - rewrite collect_spec.
    pose proof (skipn_cons_nth _ _ _ N) as S.
    assert (Li : (i < length branches)%nat)
      by (apply nth_error_Some; congruence).
    assert (S' : skipn (Datatypes.S i) (branches ++ sub_branches nodes)
                 = skipn (Datatypes.S i) branches ++ sub_branches nodes).
    { rewrite skipn_app.
      replace (Datatypes.S i - length branches)%nat with 0%nat by lia.
      reflexivity. }
    rewrite S in Hf. cbn [map] in Hf. rewrite list_sum_cons in Hf.
    unfold tables at 1 in Hf.
    destruct (IH (Datatypes.S i) (branches ++ sub_branches nodes)
                (fold_left store (leaf_tuples nodes) keys))
      as (branches' & lo & free & W & L).
    + rewrite length_app. lia.
    + rewrite S', map_app, list_sum_app, tables_sub_branches. lia.
    + exists branches', lo, free. split; [exact W|].
      rewrite L, S', map_app, list_sum_app, tables_sub_branches, S.
      cbn [map]. rewrite list_sum_cons. unfold tables at 2. lia.
  - apply nth_error_None in N. exists branches, (assign keys 0),
      (total_list_bytes keys). split; [reflexivity|].
    rewrite skipn_all2 by exact N. cbn [map]. change (list_sum []) with 0%nat.
    lia.
Qed.

End FirstPass.

(** X18: the first pass of [Octree.pack] ends for every octree: with more
    iterations allowed than the octree has tables (the top-level grid and
    one for each branch below it) it returns, and the tables it has queued
    are that many. *)
Theorem first_pass_visits_every_table children :
  exists branches list_offsets free,
    length branches = tables children /\
    forall fuel,
      (tables children < fuel)%nat ->
      walk fuel 0 [children] [] 0 = Ok (branches, list_offsets, free).
Proof.
  destruct (walk_terminates (S (tables children)) 0 [children] [])
    as (branches & lo & free & W & L).
  - cbn [length]. lia.
  - cbn [skipn map]. rewrite list_sum_cons. change (list_sum []) with 0%nat.
    lia.
  - cbn [skipn map] in L. rewrite list_sum_cons in L.
    change (list_sum []) with 0%nat in L.
    cbn [assign total_list_bytes] in W.
    exists branches, lo, free. split; [lia|].
    intros fuel Hf.
    destruct (walk_terminates fuel 0 [children] [])
      as (branches2 & lo2 & free2 & W2 & _).
    + cbn [length]. lia.
    + cbn [skipn map]. rewrite list_sum_cons.
      change (list_sum []) with 0%nat. lia.
    + cbn [assign total_list_bytes] in W2. rewrite W2.
      clear - W W2 Hf.
      assert (M : forall f1 f2 i b lo fr r,
                 (f1 <= f2)%nat -> walk f1 i b lo fr = Ok r ->
                 walk f2 i b lo fr = Ok r).
      { induction f1 as [|f1 IH]; intros f2 i b lo' fr r Hle H;
          [discriminate|].
        destruct f2 as [|f2]; [lia|]. cbn [walk] in *.
        destruct (nth_error b i); [|exact H].
        destruct (collect _ _ _ _) as [[lo1 fr1] b1].
        apply (IH f2); [lia|exact H]. }
      destruct (Nat.le_ge_cases fuel (S (tables children))) as [Le|Ge].
      * pose proof (M _ _ _ _ _ _ _ Le W2) as E. congruence.
      * pose proof (M _ _ _ _ _ _ _ Ge W) as E. congruence.
Qed.

Section PackErrors.

Lemma basic_pack_int_error t n s e s' :
  t <> float32 ->
  basic_pack t (VInt n) s = (Raise e, s') -> e = StructError.
Proof.
  intros Ht. unfold basic_pack.
  assert (B : basic_bytes (endianess s) t (VInt n)
              = int_bytes (endianess s) t n)
    by (destruct t; try reflexivity; congruence).
  rewrite B. unfold int_bytes. destruct (_ && _); intros H; congruence.
Qed.

Lemma iobind_raise {A B} (m : IO A) (k : A -> IO B) s e s' :
  iobind m k s = (Raise e, s') ->
  m s = (Raise e, s') \/ exists a s1, m s = (Ok a, s1) /\ k a s1 = (Raise e, s').
Proof.
  unfold iobind. destruct (m s) as [[a| |] s1]; intros H.
  - right. eauto.
  - left. congruence.
  - discriminate.
Qed.

Variable keys : list (list nat).
Hypothesis keys_nonempty : ~ In [] keys.

Lemma pack_entries_error nodes list_base branch_base :
  forall free s e s',
    (forall indices, In indices (leaf_tuples nodes) -> In indices keys) ->
    pack_entries nodes list_base
      (assign keys 0 ++ [([], total_list_bytes keys - 2)]) branch_base free s
    = (Raise e, s') ->
    e = StructError.
Proof.
  induction nodes as [|[indices|children] nodes IH]; intros free s e s' K H;
    cbn [pack_entries] in H.
  - discriminate.
  - rewrite (offset_of_list_pointer keys indices keys_nonempty) in H.
    assert (P : exists off, list_pointer keys indices = Some off).
    { destruct indices as [|i indices]; [cbn [list_pointer]; eauto|].
      cbn [list_pointer]. apply stored_offset_In. apply K.
      cbn [leaf_tuples]. now left. }
    destruct P as (off & P). rewrite P in H.
    apply iobind_raise in H as [H|(a & s1 & _ & H)]; [discriminate|].
    apply iobind_raise in H as [H|(? & s2 & _ & H)].
    + apply basic_pack_int_error in H; [exact H|discriminate].
    + apply IH in H; [exact H|]. intros ind Hi. apply K.
      destruct indices; cbn [leaf_tuples]; [exact Hi|now right].
  - apply iobind_raise in H as [H|(? & s2 & _ & H)].
    + apply basic_pack_int_error in H; [exact H|discriminate].
    + apply IH in H; [exact H|]. intros ind Hi. apply K. exact Hi.
Qed.

Lemma pack_tables_error branches list_base :
  forall branch_base free s e s',
    (forall indices, In indices (leaf_tuples (concat branches)) ->
                     In indices keys) ->
    pack_tables branches list_base
      (assign keys 0 ++ [([], total_list_bytes keys - 2)]) branch_base free s
    = (Raise e, s') ->
    e = StructError.
Proof.
  induction branches as [|nodes branches IH];
    intros branch_base free s e s' K H; cbn [pack_tables] in H.
  - discriminate.
  - cbn [concat] in K. rewrite leaf_tuples_app in K.
    apply iobind_raise in H as [H|(free1 & s1 & _ & H)].
    + apply pack_entries_error in H; [exact H|].
      intros ind Hi. apply K. apply in_or_app. now left.
    + apply IH in H; [exact H|].
      intros ind Hi. apply K. apply in_or_app. now right.
Qed.

End PackErrors.

Lemma pack_lists_error keys : forall s e s',
  for_each pack_list keys s = (Raise e, s') -> e = StructError.
Proof.
  induction keys as [|k keys IH]; intros s e s' H; cbn [for_each] in H;
    [discriminate|].
  apply iobind_raise in H as [H|(? & s1 & _ & H)]; [|exact (IH _ _ _ H)].
  unfold pack_list in H.
  apply iobind_raise in H as [H|(? & s1 & _ & H)];
    [|apply basic_pack_int_error in H; [exact H|discriminate]].
  clear IH. revert s H. induction k as [|i k IHk]; intros s H;
    cbn [for_each] in H; [discriminate|].
  apply iobind_raise in H as [H|(? & s1 & _ & H)]; [|exact (IHk _ H)].
  apply basic_pack_int_error in H; [exact H|discriminate].
Qed.

(** X19: the only exception [Octree.pack] raises is [struct.error], for a
    word that does not fit its format: the list of a leaf is always found
    in the offset table (no [KeyError]), since the first pass has stored
    the list of every leaf that the second pass meets. *)
Theorem octree_pack_raises_only_struct_error fuel octree s e s' :
  Octree_pack fuel octree s = (Raise e, s') -> e = StructError.
Proof.
  unfold Octree_pack. intros H.
  apply iobind_raise in H as [H|([[branches list_offsets] free] & s0 & H0 & H)].
  { unfold lift in H.
    assert (W : forall f i b lo fr e', walk f i b lo fr <> Raise e').
    { induction f as [|f IH]; intros i b lo fr e'; cbn [walk];
        [discriminate|].
      destruct (nth_error b i); [|discriminate].
      destruct (collect _ _ _ _) as [[lo1 fr1] b1]. apply IH. }
    exfalso. apply (W fuel 0%nat [Octree.children octree] [] 0 e). congruence. }
  apply lift_ok in H0 as [W ->].
  pose proof (walk_spec fuel 0 [Octree.children octree] [] branches
                list_offsets free W) as (Hl & Hf & _).
  cbn [skipn] in Hl, Hf.
  set (keys := fold_left store (leaf_tuples (concat branches)) []) in *.
  assert (N : ~ In [] keys).
  { intros I. apply fold_store_In in I as [[]|I].
    exact (leaf_tuples_nonempty _ I). }
  rewrite Hl, Hf in H.
  apply iobind_raise in H as [H|(? & s1 & _ & H)].
  - apply (pack_tables_error keys N) in H; [exact H|].
    intros ind Hi. apply fold_store_In. now right.
  - exact (pack_lists_error _ _ _ _ H).
Qed.

Lemma octree_pack_raises_only_struct_error_witness :
  fst (Octree_pack 10
         (Octree.mk [] 1 1 (Vector.mk 0 0 0) 1 1 1 1 1 1 1 [Leaf [Z.to_nat 65535]])
         (new_stream LITTLE_ENDIAN))
  = Raise StructError.
Proof.
  destruct (Octree_pack 10
              (Octree.mk [] 1 1 (Vector.mk 0 0 0) 1 1 1 1 1 1 1
                 [Leaf [Z.to_nat 65535]])
              (new_stream LITTLE_ENDIAN)) as [[[]|e|] s'] eqn:E;
    [vm_compute in E; discriminate E| |vm_compute in E; discriminate E].
  cbn [fst]. f_equal.
  exact (octree_pack_raises_only_struct_error _ _ _ _ _ E).
Defined.

Section FieldTypes.

(** A stream that stands inside its data, as a cursor. *)
Lemma write_inside s bs :
  (position s <= length (data s))%nat ->
  write s bs
  = at_cursor (endianess s) (firstn (position s) (data s) ++ bs)
      (skipn (position s + length bs) (data s)).
Proof.
  intros H. destruct bs as [|b bs].
  - rewrite write_nil, app_nil_r, Nat.add_0_r. unfold at_cursor.
    rewrite firstn_skipn, length_firstn, Nat.min_l by exact H.
    now destruct s.
  - rewrite (write_at_cursor s (b :: bs)) by discriminate.
    replace (position s - length (data s))%nat with 0%nat by lia.
    cbn [repeat]. now rewrite app_nil_r.
Qed.

Lemma stream_inside s :
  (position s <= length (data s))%nat ->
  s = at_cursor (endianess s) (firstn (position s) (data s))
        (skipn (position s) (data s)).
Proof.
  intros H. pose proof (write_inside s [] H) as E.
  now rewrite write_nil, app_nil_r, Nat.add_0_r in E.
Qed.

Lemma int_type_round_trips e t n :
  t <> float32 -> fits t n ->
  exists bs, round_trips (int_type t) e n bs /\ length bs = calcsize t.
Proof.
  intros Ht F. destruct (int_unpack_fits e t n [] [] Ht F) as (bs & Hb & _).
  exists bs. split; [split|exact (length_basic_bytes _ _ _ _ Hb)].
  - intros s <-. cbn [int_type do_pack]. unfold basic_pack. now rewrite Hb.
  - intros before after. cbn [int_type do_unpack].
    destruct (int_unpack_fits e t n before after Ht F) as (bs' & Hb' & Hu).
    assert (bs' = bs) by congruence. now subst bs'.
Qed.

Context {V : Type} (type : Packable V) (e : Endianess).

Lemma array_pack_run values : forall bss s,
  endianess s = e ->
  Forall2 (round_trips type e) values bss ->
  Array.pack type values s = (Ok tt, write s (concat bss)).
Proof.
  unfold Array.pack.
  induction values as [|v values IH]; intros bss s He H; inversion H; subst;
    cbn [for_each concat].
  - reflexivity.
  - unfold iobind.
    match goal with R : round_trips _ _ v _ |- _ => destruct R as [P _] end.
    rewrite (P s eq_refl), (IH l' (write s y)); [now rewrite write_app| |assumption].
    apply endianess_write.
Qed.

Lemma array_unpack_run values : forall bss before after,
  Forall2 (round_trips type e) values bss ->
  Array.unpack_elements type (length values)
    (at_cursor e before (concat bss ++ after))
  = (Ok values, at_cursor e (before ++ concat bss) after).
Proof.
  induction values as [|v values IH]; intros bss before after H;
    inversion H; subst; cbn [length Array.unpack_elements concat].
  - unfold ret. now rewrite app_nil_r.
  - unfold iobind, ret.
    match goal with R : round_trips _ _ v _ |- _ => destruct R as [_ U] end.
    rewrite <- app_assoc, U, (IH l'), <- app_assoc by assumption.
    reflexivity.
Qed.

End FieldTypes.

(** X20: an [Array] of a field type whose values round-trip round-trips
    itself: [pack] writes the bytes of the elements one after the other,
    and [unpack] with the length of the array, started where [pack]
    started, returns the array and stops where [pack] stopped. *)
Theorem array_round_trip {V} (type : Packable V) values bss s :
  (position s <= length (data s))%nat ->
  Forall2 (round_trips type (endianess s)) values bss ->
  exists s1,
    Array.pack type values s = (Ok tt, s1) /\
    position s1 = (position s + length (concat bss))%nat /\
    Array.unpack type (length values) (seek s1 (position s)) = (Ok values, s1).
Proof.
  intros Hp H. exists (write s (concat bss)).
  split; [exact (array_pack_run type (endianess s) values bss s eq_refl H)|].
  split; [apply position_write|].
  rewrite (write_inside s _ Hp).
  set (before := firstn (position s) (data s)).
  set (after := skipn _ _).
  assert (Lb : position s = length before)
    by (unfold before; rewrite length_firstn; lia).
  rewrite Lb, seek_at_cursor.
  unfold Array.unpack. now apply array_unpack_run.
Qed.

Lemma array_round_trip_witness :
  exists s1,
    Array.pack (int_type uint16) [1; 2; 3] (new_stream BIG_ENDIAN)
    = (Ok tt, s1) /\
    Array.unpack (int_type uint16) 3 (seek s1 0) = (Ok [1; 2; 3], s1).
Proof.
  destruct (int_type_round_trips BIG_ENDIAN uint16 1 ltac:(discriminate)
              ltac:(vm_compute; split; congruence)) as (b1 & R1 & _).
  destruct (int_type_round_trips BIG_ENDIAN uint16 2 ltac:(discriminate)
              ltac:(vm_compute; split; congruence)) as (b2 & R2 & _).
  destruct (int_type_round_trips BIG_ENDIAN uint16 3 ltac:(discriminate)
              ltac:(vm_compute; split; congruence)) as (b3 & R3 & _).
  destruct (array_round_trip (int_type uint16) [1; 2; 3] [b1; b2; b3]
              (new_stream BIG_ENDIAN) (le_n 0)
              (Forall2_cons _ _ R1 (Forall2_cons _ _ R2
                 (Forall2_cons _ _ R3 (Forall2_nil _)))))
    as (s1 & P & _ & U).
  exists s1. split; [exact P|exact U].
Defined.

Section Pointers.

Lemma length_concat_const {A} (ls : list (list A)) n :
  Forall (fun l => length l = n) ls -> length (concat ls) = (length ls * n)%nat.
Proof.
  induction 1 as [|l ls Hl _ IH]; cbn [concat length]; [reflexivity|].
  rewrite length_app, Hl, IH. reflexivity.
Qed.

End Pointers.

(** X21: a [Pointer] at the offset where an array of equally sized
    elements was packed gives back, under the key [k], the element [k] of
    the array, wherever the stream stands. *)
Theorem pointer_reads_element {V} (type : Packable V) values bss n s key v s2 :
  (position s <= length (data s))%nat ->
  Forall2 (round_trips type (endianess s)) values bss ->
  do_sizeof type = Ok (Some n) ->
  Forall (fun bs => length bs = n) bss ->
  nth_error values key = Some v ->
  data s2 = data (write s (concat bss)) -> endianess s2 = endianess s ->
  fst (Pointer.getitem type (Z.of_nat (position s)) (Z.of_nat key) s2) = Ok v.
Proof.
  intros Hp H Hn Hl Hk Hd He.
  unfold Pointer.getitem, iobind at 1, lift at 1. rewrite Hn.
  destruct (Z.ltb_spec (Z.of_nat (position s) + Z.of_nat key * Z.of_nat n) 0)
    as [N|_]; [lia|].
  unfold iobind, io_seek, seek.
  replace (Z.to_nat (Z.of_nat (position s) + Z.of_nat key * Z.of_nat n))
    with (position s + key * n)%nat by lia.
  rewrite Hd, He, (write_inside s _ Hp). cbn [at_cursor data].
  set (before := firstn (position s) (data s)).
  set (after := skipn _ _).
  assert (Lb : position s = length before)
    by (unfold before; rewrite length_firstn; lia).
  apply nth_error_split in Hk as (l1 & l2 & -> & Lk).
  apply Forall2_app_inv_l in H as (bss1 & bss' & H1 & H2 & ->).
  inversion H2 as [|? b ? bss2 R H3]; subst.
  apply Forall_app in Hl as [Hl1 _].
  pose proof (length_concat_const _ _ Hl1) as Lc.
  rewrite <- (Forall2_length H1) in Lc.
  rewrite concat_app. cbn [concat]. rewrite <- !app_assoc.
  rewrite (app_assoc before (concat bss1)).
  replace (length l1 * n)%nat with (length (concat bss1)) by exact Lc.
  rewrite Lb, <- length_app.
  fold (at_cursor (endianess s) (before ++ concat bss1)
          (b ++ concat bss2 ++ after)).
  destruct R as [_ U]. now rewrite U.
Qed.

Lemma pointer_reads_element_witness :
  fst (Pointer.getitem (int_type uint16) 0 1
         (snd (Array.pack (int_type uint16) [7; 8; 9]
                 (new_stream LITTLE_ENDIAN))))
  = Ok 8.
Proof.
  destruct (int_type_round_trips LITTLE_ENDIAN uint16 7 ltac:(discriminate)
              ltac:(vm_compute; split; congruence)) as (b1 & R1 & L1).
  destruct (int_type_round_trips LITTLE_ENDIAN uint16 8 ltac:(discriminate)
              ltac:(vm_compute; split; congruence)) as (b2 & R2 & L2).
  destruct (int_type_round_trips LITTLE_ENDIAN uint16 9 ltac:(discriminate)
              ltac:(vm_compute; split; congruence)) as (b3 & R3 & L3).
  assert (F : Forall2 (round_trips (int_type uint16) LITTLE_ENDIAN)
                [7; 8; 9] [b1; b2; b3])
    by exact (Forall2_cons _ _ R1 (Forall2_cons _ _ R2
                (Forall2_cons _ _ R3 (Forall2_nil _)))).
  apply (pointer_reads_element (int_type uint16) [7; 8; 9] [b1; b2; b3] 2
           (new_stream LITTLE_ENDIAN) 1 8 _ (le_n 0) F eq_refl).
  - exact (Forall_cons _ L1 (Forall_cons _ L2
             (Forall_cons _ L3 (Forall_nil _)))).
  - reflexivity.
  - rewrite (array_pack_run (int_type uint16) LITTLE_ENDIAN _ _
              (new_stream LITTLE_ENDIAN) eq_refl F).
    reflexivity.
  - rewrite (array_pack_run (int_type uint16) LITTLE_ENDIAN _ _
              (new_stream LITTLE_ENDIAN) eq_refl F).
    apply endianess_write.
Defined.

Section AsciiStrings.

Lemma nat_of_byte_of_nat c : (c < 256)%nat -> nat_of_byte (byte_of_nat c) = c.
Proof.
  intros H. unfold nat_of_byte, byte_of_nat.
  rewrite Z_of_byte_of_Z, Z.mod_small by lia. apply Nat2Z.id.
Qed.

Lemma ascii_encode string :
  Forall (fun c => c < 128)%nat string ->
  encode ascii_encoding string = Ok (map byte_of_nat string) /\
  decode ascii_encoding (map byte_of_nat string) = Ok string.
Proof.
  intros H. cbn [ascii_encoding encode decode].
  assert (E : forallb (fun c => c <? 128)%nat string = true).
  { apply forallb_forall. rewrite Forall_forall in H. intros c Hc.
    apply Nat.ltb_lt. exact (H c Hc). }
  assert (D : forallb (fun b => nat_of_byte b <? 128)%nat
                (map byte_of_nat string) = true).
  { apply forallb_forall. intros b Hb. apply in_map_iff in Hb as (c & <- & Hc).
    rewrite Forall_forall in H. specialize (H c Hc).
    rewrite nat_of_byte_of_nat by lia. apply Nat.ltb_lt. exact H. }
  rewrite E, D. split; [reflexivity|]. f_equal. rewrite map_map.
  rewrite <- (map_id string) at 2. apply map_ext_in. intros c Hc.
  rewrite Forall_forall in H. specialize (H c Hc).
  apply nat_of_byte_of_nat. lia.
Qed.

Lemma io_read_at_cursor e before bs after :
  io_read (length bs) (at_cursor e before (bs ++ after))
  = (Ok bs, at_cursor e (before ++ bs) after).
Proof. unfold io_read. now rewrite read_at_cursor. Qed.

End AsciiStrings.

(** X22: an ASCII string of at most 255 characters is read back by
    [PString.unpack] from where [PString.pack] wrote it: one byte with the
    length, then the characters. *)
Theorem pstring_round_trip string s :
  (position s <= length (data s))%nat ->
  Forall (fun c => c < 128)%nat string -> (length string <= 255)%nat ->
  exists s1,
    PString.pack ascii_encoding string s = (Ok tt, s1) /\
    position s1 = (position s + 1 + length string)%nat /\
    PString.unpack ascii_encoding (seek s1 (position s)) = (Ok string, s1).
Proof.
  intros Hp Ha Hl. destruct (ascii_encode string Ha) as [E D].
  set (bs := map byte_of_nat string) in *.
  assert (Lb : length bs = length string) by apply length_map.
  assert (F : fits uint8 (len bs)).
  { unfold fits, len. cbn [is_signed calcsize].
    change (2 ^ (8 * Z.of_nat 1)) with 256. lia. }
  destruct (int_type_round_trips (endianess s) uint8 (len bs)
              ltac:(discriminate) F) as (lb & [P U] & Ll).
  cbn [int_type do_pack do_unpack calcsize] in P, U, Ll.
  exists (write s (lb ++ bs)). unfold PString.pack.
  split.
  { unfold iobind at 1, lift at 1. rewrite E.
    unfold iobind. rewrite (P s eq_refl). unfold io_write.
    now rewrite write_app. }
  split; [rewrite position_write, length_app, Ll, Lb; lia|].
  rewrite (write_inside s _ Hp).
  set (before := firstn (position s) (data s)).
  set (after := skipn _ _).
  assert (Lp : position s = length before)
    by (unfold before; rewrite length_firstn; lia).
  rewrite Lp, seek_at_cursor. unfold PString.unpack.
  unfold iobind at 1. rewrite <- app_assoc, U.
  unfold iobind at 1. unfold len. rewrite Nat2Z.id, io_read_at_cursor.
  unfold lift. now rewrite D, <- app_assoc.
Qed.

Lemma pstring_round_trip_witness :
  exists s1,
    PString.pack ascii_encoding [107; 99; 108]%nat (new_stream LITTLE_ENDIAN)
    = (Ok tt, s1) /\
    PString.unpack ascii_encoding (seek s1 0) = (Ok [107; 99; 108]%nat, s1).
Proof.
  destruct (pstring_round_trip [107; 99; 108]%nat (new_stream LITTLE_ENDIAN)
              (le_n 0) ltac:(repeat constructor; cbn; lia)
              ltac:(cbn [length]; lia)) as (s1 & P & _ & U).
  exists s1. split; [exact P|exact U].
Defined.

(** X23: [PString.pack] refuses an ASCII string of more than 255
    characters with [struct.error], before it writes anything. *)
Theorem pstring_too_long string s :
  Forall (fun c => c < 128)%nat string -> (255 < length string)%nat ->
  PString.pack ascii_encoding string s = (Raise StructError, s).
Proof.
  intros Ha Hl. destruct (ascii_encode string Ha) as [E _].
  unfold PString.pack, iobind at 1, lift at 1. rewrite E.
  unfold iobind.
  unfold basic_pack.
  change (basic_bytes (endianess s) uint8 (VInt ?n))
    with (int_bytes (endianess s) uint8 n).
  rewrite int_bytes_not_fits; [reflexivity|].
  unfold fits, len. cbn [is_signed calcsize].
  change (2 ^ (8 * Z.of_nat 1)) with 256. rewrite length_map. lia.
Qed.

Lemma pstring_too_long_witness :
  PString.pack ascii_encoding (repeat 65%nat 256) (new_stream LITTLE_ENDIAN)
  = (Raise StructError, new_stream LITTLE_ENDIAN).
Proof.
  apply pstring_too_long.
  - apply Forall_forall. intros c Hc. apply repeat_spec in Hc. subst c. lia.
  - rewrite repeat_length. lia.
Defined.

Section NulTerminated.

Lemma byte_of_nat_not_null c : (0 < c < 128)%nat -> byte_of_nat c <> x00.
Proof.
  intros H E. apply (f_equal nat_of_byte) in E.
  rewrite nat_of_byte_of_nat in E by lia.
  change (nat_of_byte x00) with 0%nat in E. lia.
Qed.

Lemma bytes_eqb_single b : b <> x00 -> bytes_eqb [b] [x00] = false.
Proof.
  intros H. unfold bytes_eqb.
  destruct (list_eq_dec Byte.byte_eq_dec [b] [x00]) as [E|_];
    [congruence|reflexivity].
Qed.

Lemma read_string_run e bs : forall fuel string before after,
  Forall (fun b => b <> x00) bs -> (length bs < fuel)%nat ->
  CString.read_string fuel [x00] string
    (at_cursor e before (bs ++ x00 :: after))
  = (Ok (string ++ bs), at_cursor e (before ++ bs ++ [x00]) after).
Proof.
  induction bs as [|b bs IH]; intros fuel string before after H Hf;
    (destruct fuel as [|fuel]; [cbn [length] in Hf; lia|]);
    cbn [CString.read_string length app]; unfold iobind at 1.
  - pose proof (io_read_at_cursor e before [x00] after) as R.
    cbn [length app] in R. rewrite R.
    change (bytes_eqb [x00] [x00]) with true. cbv iota.
    now rewrite app_nil_r.
  - inversion H as [|? ? Hb Hbs]; subst.
    pose proof (io_read_at_cursor e before [b] (bs ++ x00 :: after)) as R.
    cbn [length app] in R. rewrite R.
    rewrite (bytes_eqb_single b Hb).
    rewrite IH by (trivial; cbn [length] in Hf; lia).
    now rewrite <- !app_assoc.
Qed.

Lemma Forall_skipn_tail {A} (P : A -> Prop) n : forall l,
  Forall P l -> Forall P (skipn n l).
Proof.
  induction n as [|n IH]; intros [|a l] H; cbn [skipn]; trivial.
  inversion H; subst. now apply IH.
Qed.

Lemma read_string_no_null fuel : forall string s,
  Forall (fun b => b <> x00) (skipn (position s) (data s)) ->
  fst (CString.read_string fuel [x00] string s) = OutOfFuel.
Proof.
  induction fuel as [|fuel IH]; intros string s H; [reflexivity|].
  cbn [CString.read_string length]. unfold iobind, io_read, read.
  set (rest := skipn (position s) (data s)) in *.
  assert (N : bytes_eqb (firstn 1 rest) [x00] = false).
  { destruct rest as [|b rest']; [reflexivity|].
    inversion H; subst. now apply bytes_eqb_single. }
  rewrite N. apply IH. cbn [position data].
  rewrite Nat.add_comm, <- skipn_skipn. now apply Forall_skipn_tail.
Qed.

End NulTerminated.

(** X24: an ASCII string without the character NUL is read back by
    [cstring.unpack] from where [cstring.pack] wrote it, and the stream is
    left behind the terminating NUL. *)
Theorem cstring_round_trip string s fuel :
  (position s <= length (data s))%nat ->
  Forall (fun c => 0 < c < 128)%nat string -> (length string < fuel)%nat ->
  exists self s1,
    cstring = Ok self /\
    CString.pack self string s = (Ok tt, s1) /\
    position s1 = (position s + length string + 1)%nat /\
    CString.unpack fuel self (seek s1 (position s)) = (Ok string, s1).
Proof.
  intros Hp Ha Hf.
  exists (CString.mk ascii_encoding [x00]).
  assert (A : Forall (fun c => c < 128)%nat string)
    by (eapply Forall_impl; [|exact Ha]; cbv beta; intros; lia).
  assert (A0 : Forall (fun c => c < 128)%nat (string ++ [0%nat]))
    by (apply Forall_app; split; [exact A|repeat constructor]).
  destruct (ascii_encode _ A0) as [E _]. destruct (ascii_encode _ A) as [_ D].
  rewrite map_app in E. change (map byte_of_nat [0%nat]) with [x00] in E.
  set (bs := map byte_of_nat string) in *.
  assert (N : Forall (fun b => b <> x00) bs).
  { apply Forall_forall. intros b Hb. apply in_map_iff in Hb as (c & <- & Hc).
    rewrite Forall_forall in Ha. apply byte_of_nat_not_null, Ha, Hc. }
  assert (Lb : length bs = length string) by apply length_map.
  exists (write s (bs ++ [x00])). split; [reflexivity|].
  unfold CString.pack, CString.unpack. cbn [CString.encoding CString.null].
  split; [unfold iobind, lift; now rewrite E|].
  split; [rewrite position_write, length_app, Lb; cbn [length]; lia|].
  rewrite (write_inside s _ Hp).
  set (before := firstn (position s) (data s)).
  set (after := skipn _ _).
  assert (Lp : position s = length before)
    by (unfold before; rewrite length_firstn; lia).
  rewrite Lp, seek_at_cursor. unfold iobind.
  rewrite <- app_assoc. cbn [app].
  rewrite read_string_run by (trivial; lia).
  cbn [app]. unfold lift. now rewrite D.
Qed.

Lemma cstring_round_trip_witness :
  exists self s1,
    cstring = Ok self /\
    CString.pack self [107; 99; 108]%nat (new_stream BIG_ENDIAN) = (Ok tt, s1)
    /\ CString.unpack 4 self (seek s1 0) = (Ok [107; 99; 108]%nat, s1).
Proof.
  destruct (cstring_round_trip [107; 99; 108]%nat (new_stream BIG_ENDIAN) 4
              (le_n 0) ltac:(repeat constructor; lia)
              ltac:(cbn [length]; lia)) as (self & s1 & C & P & _ & U).
  exists self, s1. split; [exact C|]. split; [exact P|exact U].
Defined.

(** X25: on a stream that holds no NUL byte from its position on,
    [cstring.unpack] does not return: at the end of the stream the loop
    reads the empty bytes again and again. *)
Theorem cstring_without_terminator s :
  Forall (fun b => b <> x00) (skipn (position s) (data s)) ->
  exists self,
    cstring = Ok self /\
    forall fuel, fst (CString.unpack fuel self s) = OutOfFuel.
Proof.
  intros H. exists (CString.mk ascii_encoding [x00]).
  split; [reflexivity|]. intros fuel.
  unfold CString.unpack, iobind. cbn [CString.null].
  pose proof (read_string_no_null fuel [] s H) as R.
  destruct (CString.read_string fuel [x00] [] s) as [[x| |] s'];
    cbn [fst] in R; try discriminate. reflexivity.
Qed.

Lemma cstring_without_terminator_witness :
  exists self,
    cstring = Ok self /\
    forall fuel,
      fst (CString.unpack fuel self
             (mkStream BIG_ENDIAN [x6b; x63; x6c] 1)) = OutOfFuel.
Proof.
  apply (cstring_without_terminator (mkStream BIG_ENDIAN [x6b; x63; x6c] 1)).
  cbn [position data skipn]. repeat constructor; discriminate.
Defined.

(* ================================================================== *)
(** * Octree nodes: what is built, and that it is built             *)
(* ================================================================== *)

Section NodeReturns.

Variable triangles : list Triangle.t.
Variables max_triangles min_width : Z.
Hypothesis min_width_positive : 1 <= min_width.

Lemma overlapping_total center half_width indices :
  Forall (fun i => i < length triangles)%nat indices ->
  Octree.overlapping triangles center half_width indices
  = Ok (filter (overlap_at triangles center half_width) indices).
Proof.
  induction 1 as [|i rest Hi _ IH]; cbn [Octree.overlapping filter];
    [reflexivity|].
  apply nth_error_Some in Hi. unfold getitem, overlap_at at 1.
  destruct (nth_error triangles i) as [t|]; [|contradiction].
  cbn [bind]. rewrite IH. cbn [bind]. reflexivity.
Qed.

Lemma Forall_filter_keeps {A} (P : A -> Prop) f l :
  Forall P l -> Forall P (filter f l).
Proof.
  rewrite !Forall_forall. intros H a Ha. apply filter_In in Ha. now apply H.
Qed.

(** With a positive minimal width the recursion of [node] ends: on a cube
    whose half width is the float [2^(j-1)] it goes no deeper than [j]
    levels below the node. *)
Lemma node_returns fuel :
  forall j base width indices,
    0 <= j <= 1024 -> halve width = Ok (pow2f (j - 1)) ->
    j < Z.of_nat fuel ->
    Forall (fun i => i < length triangles)%nat indices ->
    exists nd,
      Octree.node triangles max_triangles min_width fuel base width indices
      = Ok nd.
Proof.
  induction fuel as [|fuel IH]; intros j base width indices Hj Hh Hf Hv; [lia|].
  cbn [Octree.node]. rewrite Hh. cbn [bind].
  rewrite (overlapping_total _ _ _ Hv). cbn [bind].
  set (kept := filter _ indices).
  destruct ((max_triangles <? len kept)
            && float_ge_int (pow2f (j - 1)) min_width) eqn:C.
  - apply andb_true_iff in C as [_ C].
    pose proof (pow2f_ge_int j min_width Hj min_width_positive C) as R.
    assert (J : 1 <= j).
    { destruct (Z.eq_dec j 0) as [->|]; [|lia].
      change (2 ^ 0) with 1 in R. lia. }
    destruct (mapM_ok
                (fun key =>
                   Octree.node triangles max_triangles min_width fuel
                     (Octree.octant_base base (pow2f (j - 1)) key)
                     (Float (pow2f (j - 1))) kept)
                (grid 2 2 2)) as (children & ->).
    + intros key _. apply (IH (j - 1)); [lia| |lia|].
      * apply halve_float_pow2. lia.
      * apply Forall_filter_keeps. exact Hv.
    + cbn [bind]. eauto.
  - eauto.
Qed.

End NodeReturns.

(** C5: a node built from the candidate indices [S] first filters them,
    in order, by [tribox_overlap] against its own cube, giving [S']; it is
    the leaf holding exactly [S'] if [|S'| <= max_triangles] or
    [half_width < min_width], and otherwise a branch with exactly 8
    children, each built from [S'] on an octant at half the width.  (A leaf
    is not a branch, so it is a leaf if and only if the condition holds.)
    And the node is built: with a minimal width of at least 1, on a cube
    whose half width is a power of two [2^(j-1)], as all the cubes of an
    octree are, and for indices that name triangles, [node] returns at every
    recursion bound above [j]. *)
Theorem node_is_leaf_iff_few_or_small
    triangles max_triangles min_width base width indices half_width :
  halve width = Ok half_width ->
  is_nan half_width = false ->
  let center := Vector.add base (Vector.mk half_width half_width half_width) in
  let S' := filter (overlap_at triangles center half_width) indices in
  (forall fuel nd,
     Octree.node triangles max_triangles min_width fuel base width indices
     = Ok nd ->
     (len S' <= max_triangles \/ float_lt_int half_width min_width = true ->
      nd = Leaf S') /\
     (~ (len S' <= max_triangles \/ float_lt_int half_width min_width = true) ->
      exists children,
        nd = Branch children /\ length children = 8%nat /\
        mapM (fun key =>
                Octree.node triangles max_triangles min_width (pred fuel)
                  (Octree.octant_base base half_width key) (Float half_width)
                  S')
             (grid 2 2 2) = Ok children)) /\
  (forall j fuel,
     1 <= min_width -> 0 <= j <= 1024 -> half_width = pow2f (j - 1) ->
     Forall (fun i => i < length triangles)%nat indices ->
     j < Z.of_nat fuel ->
     exists nd,
       Octree.node triangles max_triangles min_width fuel base width indices
       = Ok nd).
Proof.
  intros Hh Hn center S'. split.
  - intros fuel nd H.
    destruct fuel as [|fuel]; [discriminate|].
    cbn [Octree.node pred] in H. rewrite Hh in H. cbn [bind] in H.
    apply bind_ok in H as (kept & Hk & H).
    apply overlapping_filter in Hk. fold center in Hk. fold S' in Hk.
    subst kept.
    rewrite (float_ge_int_negb_lt _ _ Hn) in H.
    destruct (max_triangles <? len S') eqn:L;
      destruct (float_lt_int half_width min_width) eqn:W;
      cbn [andb negb] in H.
    + injection H as <-. split; [reflexivity|].
      intros C. exfalso. apply C. now right.
    + apply bind_ok in H as (children & Hc & H). injection H as <-.
      apply Z.ltb_lt in L. split.
      * intros [C|C]; [lia|discriminate].
      * intros _. exists children. split; [reflexivity|]. split; [|exact Hc].
        apply mapM_length in Hc. exact Hc.
    + injection H as <-. split; [reflexivity|].
      intros C. exfalso. apply C. now right.
    + injection H as <-. apply Z.ltb_ge in L. split; [reflexivity|].
      intros C. exfalso. apply C. now left.
  - intros j fuel Hm Hj E Hv Hf. subst half_width.
    exact (node_returns triangles max_triangles min_width Hm fuel j base width
             indices Hj Hh Hf Hv).
Qed.

Lemma node_is_leaf_iff_few_or_small_witness :
  exists children,
    Octree.node [sample_triangle] 0 1 4 (Vector.mk 0 0 0) (Int 8) [0%nat]
    = Ok (Branch children) /\
    length children = 8%nat.
Proof.
  destruct (node_is_leaf_iff_few_or_small
              [sample_triangle] 0 1 (Vector.mk 0 0 0) (Int 8) [0%nat] 4
              eq_refl eq_refl) as [A B].
  destruct (B 3 4%nat ltac:(lia) ltac:(lia) eq_refl
              ltac:(repeat constructor) ltac:(lia)) as (nd & Hnd).
  destruct (A 4%nat nd Hnd) as [_ Hb].
  destruct Hb as (children & -> & L & _).
  - intros [C|C]; [vm_compute in C; apply C; reflexivity|discriminate C].
  - exists children. split; [exact Hnd|exact L].
Defined.


(* ================================================================== *)
(** * Every table of the octree is packed                           *)
(* ================================================================== *)

Section EveryTable.

Lemma In_sub_branches nodes children :
  In children (sub_branches nodes) <-> In (Branch children) nodes.
Proof.
  induction nodes as [|[indices|c] nodes IH]; cbn [sub_branches In].
  - tauto.
  - rewrite IH. split; [now right|]. intros [E|H]; [discriminate|exact H].
  - rewrite IH. split.
    + intros [->|H]; [now left|now right].
    + intros [E|H]; [injection E as ->; now left|now right].
Qed.

Lemma In_leaf_tuples nodes k :
  In k (leaf_tuples nodes) <-> k <> [] /\ In (Leaf k) nodes.
Proof.
  induction nodes as [|[[|i indices]|c] nodes IH]; cbn [leaf_tuples In].
  - tauto.
  - rewrite IH. split.
    + intros [N H]. split; [exact N|now right].
    + intros [N [E|H]]; [injection E as <-; contradiction|now split].
  - rewrite IH. split.
    + intros [<-|[N H]]; [split; [discriminate|now left]|].
      split; [exact N|now right].
    + intros [N [E|H]]; [injection E as <-; now left|right; now split].
  - rewrite IH. split.
    + intros [N H]. split; [exact N|now right].
    + intros [N [E|H]]; [discriminate|now split].
Qed.

Lemma In_leaf_tuples_concat branches k :
  In k (leaf_tuples (concat branches)) <->
  k <> [] /\ exists nodes, In nodes branches /\ In (Leaf k) nodes.
Proof.
  rewrite In_leaf_tuples. split; intros [N H]; (split; [exact N|]).
  - apply in_concat in H as (nodes & H1 & H2). eauto.
  - destruct H as (nodes & H1 & H2). apply in_concat. eauto.
Qed.

Variable root : list Node.

(** The queue of the first pass holds tables of the octree only, and when
    the pass ends it holds, with every table, the children of each branch
    in it. *)
Lemma walk_tables fuel :
  forall i branches keys branches' list_offsets free,
    walk fuel i branches (assign keys 0) (total_list_bytes keys)
    = Ok (branches', list_offsets, free) ->
    (forall nodes, In nodes branches -> table_of root nodes) ->
    (forall p nodes children,
       (p < i)%nat -> nth_error branches p = Some nodes ->
       In (Branch children) nodes -> In children branches) ->
    (forall nodes, In nodes branches -> In nodes branches') /\
    (forall nodes, In nodes branches' -> table_of root nodes) /\
    (forall nodes children,
       In nodes branches' -> In (Branch children) nodes ->
       In children branches').
Proof.
  induction fuel as [|fuel IH];
    intros i branches keys branches' list_offsets free H T C;
    cbn [walk] in H; [discriminate|].
  destruct (nth_error branches i) as [nodes|] eqn:N.
  - rewrite collect_spec in H.
    apply IH in H as (P & T' & C').
    + split; [|split; [exact T'|exact C']].
      intros n Hn. apply P, in_or_app. now left.
    + intros n Hn. apply in_app_or in Hn as [Hn|Hn]; [exact (T n Hn)|].
      apply In_sub_branches in Hn.
      apply (table_child root nodes n); [|exact Hn].
      apply T. exact (nth_error_In _ _ N).
    + intros p n c Hp Hn Hc. apply in_or_app.
      assert (L : (i < length branches)%nat)
        by (apply nth_error_Some; congruence).
      rewrite nth_error_app1 in Hn by lia.
      destruct (Nat.eq_dec p i) as [->|D].
      * right. apply In_sub_branches. congruence.
      * left. apply (C p n c); [lia|exact Hn|exact Hc].
  - injection H as <- <- <-. apply nth_error_None in N.
    split; [trivial|]. split; [exact T|].
    intros n c Hn Hc. apply In_nth_error in Hn as (p & Hp).
    apply (C p n c); [|exact Hp|exact Hc].
    assert (p < length branches)%nat by (apply nth_error_Some; congruence).
    lia.
Qed.

Lemma walk_every_table fuel branches list_offsets free :
  walk fuel 0 [root] [] 0 = Ok (branches, list_offsets, free) ->
  forall nodes, In nodes branches <-> table_of root nodes.
Proof.
  intros H.
  destruct (walk_tables fuel 0 [root] [] branches list_offsets free H)
    as (P & T & C).
  - intros n [<-|[]]. constructor.
  - intros p n c Hp. lia.
  - intros nodes. split; [apply T|].
    induction 1 as [|n c _ IH Hc]; [apply P; now left|].
    exact (C n c IH Hc).
Qed.

End EveryTable.

(** C7: when [Octree.pack] succeeds it writes the branch tables and then
    the index-list region.  The tables are those of the whole octree: the
    top-level grid and the children of every branch, at any depth.  The
    region is the stored lists one after the other, each the [u16] words
    [index + 1] in the order of the leaf followed by one zero word.  The
    stored lists are the non-empty tuples of the leaves of all the tables,
    in the order the traversal meets them, each stored once: the first
    occurrence owns the storage, and every leaf entry of the tables is
    formed from [list_pointer], which depends on the tuple alone, so leaves
    with equal tuples share one offset; a stored list lies in the region at
    its offset.  The empty list has the offset [total_list_bytes - 2], that
    is [list_base + total_list_bytes - 2] in the packed octree, where the
    terminator of the last stored list is. *)
Theorem octree_pack_index_lists fuel octree s s' :
  Octree_pack fuel octree s = (Ok tt, s') ->
  exists branches words,
    let e := endianess s in
    let keys := stored_lists (leaf_tuples (concat branches)) in
    let list_base := 4 * len (concat branches) in
    (exists list_offsets free,
       walk fuel 0 [Octree.children octree] [] 0
       = Ok (branches, list_offsets, free) /\
       map fst list_offsets = keys /\ free = total_list_bytes keys) /\
    (forall nodes,
       In nodes branches <-> table_of (Octree.children octree) nodes) /\
    table_words branches list_base keys 0 (4 * len (Octree.children octree))
    = Some words /\
    s' = write s (flat_map (u32 e) words ++ flat_map (list_bytes e) keys) /\
    Z.of_nat (length (flat_map (u32 e) words)) = list_base /\
    Z.of_nat (length (flat_map (list_bytes e) keys)) = total_list_bytes keys /\
    NoDup keys /\ ~ In [] keys /\
    (forall k, In k keys <-> In k (leaf_tuples (concat branches))) /\
    (forall k,
       In k keys <->
       k <> [] /\
       exists nodes,
         table_of (Octree.children octree) nodes /\ In (Leaf k) nodes) /\
    (forall k off,
       stored_offset keys k = Some off ->
       exists before after,
         flat_map (list_bytes e) keys = before ++ list_bytes e k ++ after /\
         Z.of_nat (length before) = off) /\
    list_pointer keys [] = Some (total_list_bytes keys - 2) /\
    (keys <> [] ->
     exists rest, flat_map (list_bytes e) keys = rest ++ u16 e 0).
Proof.
  unfold Octree_pack. intros H.
  apply iobind_ok in H as ([[branches list_offsets] free] & s0 & H0 & H).
  apply lift_ok in H0 as [W ->].
  pose proof (walk_spec fuel 0 [Octree.children octree] [] branches
                list_offsets free W) as (Hl & Hf & _).
  pose proof (walk_every_table _ fuel branches list_offsets free W) as Ht.
  cbn [skipn] in Hl, Hf.
  apply iobind_ok in H as ([] & s1 & H1 & H).
  rewrite sum_len_concat, Z.add_0_l in H1.
  set (keys := fold_left store (leaf_tuples (concat branches)) []) in *.
  assert (N : ~ In [] keys).
  { intros I. apply fold_store_In in I as [[]|I].
    exact (leaf_tuples_nonempty _ I). }
  assert (K : forall k, In k keys <-> In k (leaf_tuples (concat branches))).
  { intros k; split; intros I;
      [apply fold_store_In in I as [[]|I]; exact I
      |apply fold_store_In; now right]. }
  assert (K2 : forall k,
             In k keys <->
             k <> [] /\
             exists nodes,
               table_of (Octree.children octree) nodes /\ In (Leaf k) nodes).
  { intros k. rewrite K, In_leaf_tuples_concat.
    split; intros [Hk (n & I1 & I2)];
      (split; [exact Hk|]); exists n; (split; [apply Ht; exact I1|exact I2]). }
  rewrite Hl, Hf in H1.
  apply (pack_tables_ok keys N) in H1 as (words & Hw & -> & Lw).
  rewrite Hl, map_fst_assign in H. apply pack_lists_ok in H as ->.
  rewrite endianess_write, write_app.
  exists branches, words. cbv zeta. fold keys.
  split; [exists list_offsets, free; split; [exact W|]; split;
          [now rewrite Hl, map_fst_assign|exact Hf]|].
  split; [exact Ht|].
  split; [exact Hw|]. split; [reflexivity|].
  split.
  { rewrite (length_flat_map_const _ _ 4%nat) by (intros w; apply length_u32).
    unfold len. rewrite <- Lw. lia. }
  split; [apply length_list_region|].
  split; [apply fold_store_NoDup; constructor|].
  split; [exact N|].
  split; [exact K|].
  split; [exact K2|].
  split; [intros k off; apply stored_offset_region|].
  split; [reflexivity|apply list_region_ends_with_terminator].
Qed.

Lemma octree_pack_index_lists_witness :
  exists branches words,
    table_words branches (4 * len (concat branches))
      (stored_lists (leaf_tuples (concat branches))) 0
      (4 * len (Octree.children finished_mesh)) = Some words /\
    snd (Octree_pack 100 finished_mesh (new_stream LITTLE_ENDIAN))
    = write (new_stream LITTLE_ENDIAN)
        (flat_map (u32 LITTLE_ENDIAN) words
           ++ flat_map (list_bytes LITTLE_ENDIAN)
                (stored_lists (leaf_tuples (concat branches)))) /\
    ~ In (Leaf [1; 2]%nat) (Octree.children finished_mesh) /\
    In [1; 2]%nat (stored_lists (leaf_tuples (concat branches))).
Proof.
  assert (H : Octree_pack 100 finished_mesh (new_stream LITTLE_ENDIAN)
              = (Ok tt, snd (Octree_pack 100 finished_mesh
                               (new_stream LITTLE_ENDIAN)))).
  { vm_compute. reflexivity. }
  destruct (octree_pack_index_lists 100 finished_mesh
              (new_stream LITTLE_ENDIAN) _ H)
    as (branches & words & _ & _ & Hw & Hs & _ & _ & _ & _ & _ & Hk & _).
  exists branches, words. split; [exact Hw|]. split; [exact Hs|].
  split.
  - intros I.
    assert (E : existsb (fun nd => match nd with
                                   | Leaf [1; 2]%nat => true
                                   | _ => false
                                   end) (Octree.children finished_mesh)
                = false) by (vm_compute; reflexivity).
    apply Bool.not_true_iff_false in E. apply E.
    apply existsb_exists. exists (Leaf [1; 2]%nat). split; [exact I|reflexivity].
  - apply Hk. split; [discriminate|].
    assert (B : exists children,
               nth_error (Octree.children finished_mesh) 2
               = Some (Branch children) /\
               nth_error children 0 = Some (Leaf [1; 2]%nat)).
    { vm_compute. eexists. split; reflexivity. }
    destruct B as (children & B1 & B2). exists children. split.
    + apply (table_child _ (Octree.children finished_mesh)); [constructor|].
      exact (nth_error_In _ _ B1).
    + exact (nth_error_In _ _ B2).
Defined.


(* ================================================================== *)
(** * The shifts of the header                                      *)
(* ================================================================== *)

Section Shifts.

(** [int] of a float in [k, k + 1) is [k]. *)
Lemma int_of_float_between l k :
  0 <= k -> float_ge_int l k = true -> float_lt_int l (k + 1) = true ->
  int_of_float l = Ok k.
Proof.
  unfold float_ge_int, float_lt_int, compare_float_int, int_of_float.
  intros Hk. destruct (Prim2SF l) as [s|s| |s m e].
  - destruct (Z.compare_spec 0 k), (Z.compare_spec 0 (k + 1));
      intros; try discriminate; f_equal; lia.
  - destruct s; discriminate.
  - discriminate.
  - destruct (0 <=? e) eqn:E.
    + apply Z.leb_le in E.
      assert (P : 0 < 2 ^ e) by (apply Z.pow_pos_nonneg; lia).
      destruct (Z.compare_spec (signed s m * 2 ^ e) k) as [C|C|C],
               (Z.compare_spec (signed s m * 2 ^ e) (k + 1)) as [D|D|D];
        intros; try discriminate.
      all: destruct s; cbn [signed] in *; try nia.
      all: rewrite Z.shiftl_mul_pow2 by exact E; f_equal; lia.
    + apply Z.leb_gt in E.
      assert (P : 0 < 2 ^ (- e)) by (apply Z.pow_pos_nonneg; lia).
      destruct (Z.compare_spec (signed s m) (k * 2 ^ (- e))) as [C|C|C],
               (Z.compare_spec (signed s m) ((k + 1) * 2 ^ (- e))) as [D|D|D];
        intros; try discriminate.
      all: destruct s; cbn [signed] in *; try nia.
      all: rewrite Z.shiftl_div_pow2 by lia; f_equal.
      all: symmetry; apply (Z.div_unique_pos _ _ _ (Z.pos m - k * 2 ^ (- e)));
        nia.
Qed.

Variable log : LogFn.
Variable bound : Z.
Hypothesis log_accurate : log_of_powers_of_two log bound.

Lemma int_log2_power k : 0 <= k <= bound -> int_log2 log (2 ^ k) = Ok k.
Proof.
  intros Hk. destruct log_accurate as [_ A].
  destruct (A k Hk) as (l & Hl & G & L).
  unfold int_log2, math_log. rewrite Hl. cbn [bind].
  apply int_of_float_between; [lia|exact G|exact L].
Qed.

Lemma int_log2_zero : int_log2 log 0 = Raise ValueError.
Proof.
  destruct log_accurate as [Z _]. unfold int_log2, math_log. now rewrite Z.
Qed.

End Shifts.

Section PowersOfTwoGrid.

Lemma dyadic_build log fuel triangles max_triangles min_width o :
  Octree.build log fuel triangles max_triangles min_width = Ok o -> dyadic o.
Proof.
  intros H.
  apply build_ok in H as (base & ex & ey & ez & children & E & -> & _).
  assert (Hx : 0 <= ex) by lia. assert (Hy : 0 <= ey) by lia.
  assert (Hz : 0 <= ez) by lia.
  rewrite !min_pow2 by lia.
  set (m := Z.min ex (Z.min ey ez)) in *.
  assert (D : forall e, m <= e -> 2 ^ e / 2 ^ m = 2 ^ (e - m)).
  { intros e He. rewrite Z.pow_sub_r by lia. reflexivity. }
  exists (ex - m), (ey - m).
  cbn [Octree.nx Octree.ny Octree.base_width Octree.width_x Octree.width_y].
  rewrite !D by lia.
  repeat (split; [lia|]).
  right. exists m. split; [exact E|]. split; [reflexivity|].
  split; f_equal; lia.
Qed.

Lemma dyadic_step o o' :
  dyadic o -> Octree.flatten_step o = Ok o' -> dyadic o'.
Proof.
  intros (a & b & Ha & Hb & Nx & Ny & B) H.
  unfold Octree.flatten_step in H.
  apply bind_ok in H as (children' & _ & H). injection H as <-.
  exists (a + 1), (b + 1).
  cbn [Octree.nx Octree.ny Octree.base_width Octree.width_x Octree.width_y].
  assert (D : forall e, 0 <= e -> 2 ^ e * 2 = 2 ^ (e + 1)).
  { intros e He. rewrite Z.pow_add_r by lia. reflexivity. }
  rewrite Nx, Ny, !D by lia.
  repeat (split; [lia|]).
  destruct B as [->|(j & Hj & -> & Wx & Wy)]; [now left|].
  destruct (Z.eq_dec j 0) as [->|N]; [now left|].
  right. exists (j - 1). rewrite Wx, Wy.
  split; [lia|]. split.
  - replace (2 ^ j) with (2 ^ (j - 1) * 2)
      by (rewrite D by lia; f_equal; lia).
    now rewrite Z.div_mul by lia.
  - split; f_equal; lia.
Qed.

Lemma dyadic_init log fuel triangles max_triangles min_width o :
  Octree.init log fuel triangles max_triangles min_width = Ok o -> dyadic o.
Proof.
  unfold Octree.init. intros H. apply bind_ok in H as (o0 & Hb & H).
  apply dyadic_build in Hb. apply flatten_loop_state in H.
  induction H as [|o1 o2 _ IH _ S]; [exact Hb|].
  exact (dyadic_step o1 o2 IH S).
Qed.

(** The shifts of the header, where the logarithm is accurate. *)
Lemma header_shifts log bound vo no fo oo octree header :
  log_of_powers_of_two log bound -> dyadic octree ->
  make_header log vo no fo oo octree = Ok header ->
  Octree.width_x octree <= 2 ^ bound -> Octree.width_y octree <= 2 ^ bound ->
  0 <= Header.coordinate_shift header /\
  0 <= Header.y_shift header <= Header.z_shift header /\
  Octree.base_width octree = 2 ^ Header.coordinate_shift header /\
  Octree.nx octree = 2 ^ Header.y_shift header /\
  Octree.ny octree = 2 ^ (Header.z_shift header - Header.y_shift header).
Proof.
  intros A (a & b & Ha & Hb & Nx & Ny & B) H Wx Wy.
  apply make_header_ok in H
    as (_ & _ & _ & _ & _ & _ & _ & _ & _ & Hc & Hy & ly & Hl & Hz).
  destruct B as [B|(j & Hj & B & Ex & Ey)].
  { rewrite B, (int_log2_zero log bound A) in Hc. discriminate. }
  rewrite Ex in Wx. rewrite Ey in Wy.
  apply Z.pow_le_mono_r_iff in Wx; [|lia|].
  2: { destruct (Z.lt_ge_cases bound 0) as [N|P]; [|exact P].
       rewrite (Z.pow_neg_r 2 bound N) in Wx.
       pose proof (Z.pow_pos_nonneg 2 (a + j) ltac:(lia) ltac:(lia)). lia. }
  apply Z.pow_le_mono_r_iff in Wy; [|lia|lia].
  rewrite B, (int_log2_power log bound A j) in Hc by lia.
  rewrite Nx, (int_log2_power log bound A a) in Hy by lia.
  rewrite Ny, (int_log2_power log bound A b) in Hl by lia.
  assert (Ec : Header.coordinate_shift header = j) by congruence.
  assert (Ey' : Header.y_shift header = a) by congruence.
  assert (El : ly = b) by congruence.
  rewrite Hz, Ec, Ey', El, B, Nx, Ny.
  replace (a + b - a) with b by lia. repeat split; lia.
Qed.

Lemma sample_log_table : forallb sample_log_check (seq 0 1024) = true.
Proof. vm_compute. reflexivity. Qed.

(** The logarithm of the examples is accurate on every power of two that
    is a float. *)
Lemma sample_log_accurate : log_of_powers_of_two sample_log 1023.
Proof.
  split; [vm_compute; reflexivity|]. intros k Hk.
  pose proof sample_log_table as T. rewrite forallb_forall in T.
  specialize (T (Z.to_nat k)). unfold sample_log_check in T.
  rewrite Z2Nat.id in T by lia.
  assert (I : In (Z.to_nat k) (seq 0 1024)) by (apply in_seq; lia).
  specialize (T I).
  destruct (sample_log (Int (2 ^ k)) (Int 2)) as [l|]; [|discriminate].
  apply andb_true_iff in T. exists l. split; [reflexivity|exact T].
Qed.

End PowersOfTwoGrid.

(** C3: when [pack] succeeds, the file begins with the bytes of a header;
    the vertices, the normals and the faces lie one after the other from
    the position at which [pack] started plus the size of the header; and
    that header has: [face_offset] the position of the first face record
    minus 16, the size of a face record; [x_mask], [y_mask] and [z_mask]
    the complements of [width - 1] cut to 32 bits; [coordinate_shift],
    [y_shift] and [z_shift] the integer parts of the platform's logarithms
    to base 2 of [base_width], of [nx], and of [nx] and [ny] added;
    [unknown0] 40, which is packed as the single-precision 40.0; [base] the
    base corner of the octree.  The side of the cells and the grid
    dimensions are powers of two, so where the platform's logarithm is
    accurate on the powers of two up to the widths of the box, the shifts
    are the exact logarithms: [base_width = 2^coordinate_shift],
    [nx = 2^y_shift] and [ny = 2^(z_shift - y_shift)]. *)
Theorem pack_back_patches_header
    log fuel triangles max_triangles min_width s s' :
  kcl.pack log fuel triangles max_triangles min_width s = (Ok tt, s') ->
  exists faces vertex_welder normal_welder octree header hb vb nb fb,
    let e := endianess s in
    let first_face := (position s + length (hb ++ vb ++ nb))%nat in
    make_faces triangles
      (VertexWelder.init 0x1p-1 ((len triangles + 63) / 64))
      (VertexWelder.init 0x1p-22 ((4 * len triangles + 63) / 64))
    = Ok (faces, vertex_welder, normal_welder) /\
    Octree.init log fuel triangles max_triangles min_width = Ok octree /\
    bytes_of e Header.struct (Header.obj header) = Ok hb /\
    bytes_of_all e Vector.struct
      (map Vector.obj (VertexWelder.vertices vertex_welder)) = Ok vb /\
    bytes_of_all e Vector.struct
      (map Vector.obj (VertexWelder.vertices normal_welder)) = Ok nb /\
    bytes_of_all e Face.struct (map Face.obj faces) = Ok fb /\
    (exists rest, data s' = hb ++ rest) /\
    (exists rest, skipn first_face (data s') = fb ++ rest) /\
    sizeof Face.struct = 16%nat /\
    Header.face_offset header = Z.of_nat first_face - 16 /\
    Header.x_mask header
    = Z.land (Z.lnot (Octree.width_x octree - 1)) 0xFFFFFFFF /\
    Header.y_mask header
    = Z.land (Z.lnot (Octree.width_y octree - 1)) 0xFFFFFFFF /\
    Header.z_mask header
    = Z.land (Z.lnot (Octree.width_z octree - 1)) 0xFFFFFFFF /\
    int_log2 log (Octree.base_width octree)
    = Ok (Header.coordinate_shift header) /\
    int_log2 log (Octree.nx octree) = Ok (Header.y_shift header) /\
    (exists log_ny,
       int_log2 log (Octree.ny octree) = Ok log_ny /\
       Header.z_shift header = Header.y_shift header + log_ny) /\
    (forall bound,
       log_of_powers_of_two log bound ->
       Octree.width_x octree <= 2 ^ bound ->
       Octree.width_y octree <= 2 ^ bound ->
       Octree.base_width octree = 2 ^ Header.coordinate_shift header /\
       Octree.nx octree = 2 ^ Header.y_shift header /\
       Octree.ny octree
       = 2 ^ (Header.z_shift header - Header.y_shift header) /\
       Header.coordinate_shift header = Z.log2 (Octree.base_width octree) /\
       Header.y_shift header = Z.log2 (Octree.nx octree) /\
       Header.z_shift header
       = Header.y_shift header + Z.log2 (Octree.ny octree)) /\
    Header.unknown0 header = 40 /\
    basic_bytes e float32 (VInt 40) = Ok (u32 e 0x42200000) /\
    Header.base header = Octree.base octree.
Proof.
  intros H.
  apply pack_ok_gates in H as (faces & vw & nw & Hf & H).
  apply pack_body_ok in H
    as (octree & header & hb & vb & nb & fb & ob & Ho & Hhb & Hvb & Hnb & Hfb
        & _ & Hh & _ & Hd & (rest & Hs)).
  pose proof (dyadic_init _ _ _ _ _ _ Ho) as Dy.
  pose proof (fun bound A => header_shifts log bound _ _ _ _ _ _ A Dy Hh)
    as Sh.
  apply make_header_ok in Hh
    as (_ & _ & Hfo & _ & Hu & Hb & Hx & Hy & Hz & Hc & Hys & Hzs).
  exists faces, vw, nw, octree, header, hb, vb, nb, fb.
  cbv zeta. repeat (split; [assumption|]).
  split.
  { exists (ob ++ rest).
    replace (position s + length (hb ++ vb ++ nb))%nat
      with (length (vb ++ nb) + (position s + length hb))%nat
      by (rewrite !length_app; lia).
    rewrite <- skipn_skipn, Hs.
    now rewrite (app_assoc vb nb), skipn_length_app. }
  split; [reflexivity|]. split; [exact Hfo|].
  repeat (split; [assumption|]).
  split.
  { intros bound A Wx Wy.
    destruct (Sh bound A Wx Wy) as (Pc & (Py & Pz) & Ec & Ex & Ey).
    repeat (split; [assumption|]).
    rewrite Ec, Ex, Ey, !Z.log2_pow2 by lia. repeat split; lia. }
  split; [exact Hu|].
  split; [destruct (endianess s); vm_compute; reflexivity|exact Hb].
Qed.

Lemma pack_back_patches_header_witness :
  exists header hb rest,
    bytes_of LITTLE_ENDIAN Header.struct (Header.obj header) = Ok hb /\
    data (snd (kcl.pack sample_log 100 flattened_mesh 1 1
                 (new_stream LITTLE_ENDIAN))) = hb ++ rest /\
    Header.unknown0 header = 40 /\
    Header.coordinate_shift header = 1 /\
    Header.y_shift header = 2 /\
    Header.z_shift header = 4.
Proof.
  assert (H : kcl.pack sample_log 100 flattened_mesh 1 1
                (new_stream LITTLE_ENDIAN)
              = (Ok tt, snd (kcl.pack sample_log 100 flattened_mesh 1 1
                               (new_stream LITTLE_ENDIAN)))).
  { vm_compute. reflexivity. }
  assert (I : Octree.init sample_log 100 flattened_mesh 1 1
              = Ok finished_mesh).
  { vm_compute. reflexivity. }
  destruct (pack_back_patches_header sample_log 100 flattened_mesh 1 1
              (new_stream LITTLE_ENDIAN) _ H)
    as (faces & vw & nw & octree & header & hb & vb & nb & fb & _ & Ho
        & Hhb & _ & _ & _ & (rest & D) & _ & _ & _ & _ & _ & _ & _ & _ & _
        & Sh & U & _).
  assert (E : octree = finished_mesh) by congruence.
  rewrite E in Sh.
  destruct (Sh 1023 sample_log_accurate) as (_ & _ & _ & Ec & Ey & Ez).
  - vm_compute. discriminate.
  - vm_compute. discriminate.
  - exists header, hb, rest.
    split; [exact Hhb|]. split; [exact D|]. split; [exact U|].
    split; [exact Ec|]. split; [exact Ey|].
    rewrite Ez, Ey. reflexivity.
Defined.


(* ================================================================== *)
(** * The finished grid and the cubes its nodes were built for      *)
(* ================================================================== *)

Section GridCells.

Lemma nth_error_flat_map_const {A B} (f : A -> list B) n p :
  (forall a, length (f a) = n) -> (p < n)%nat ->
  forall l q,
    nth_error (flat_map f l) (p + q * n)
    = match nth_error l q with
      | Some a => nth_error (f a) p
      | None => None
      end.
Proof.
  intros Hf Hp. induction l as [|a l IH]; intros q; cbn [flat_map].
  - destruct q, (p + _)%nat; reflexivity.
  - destruct q as [|q]; cbn [nth_error].
    + rewrite Nat.mul_0_l, Nat.add_0_r, nth_error_app1 by (rewrite Hf; lia).
      reflexivity.
    + rewrite nth_error_app2 by (rewrite Hf; lia).
      rewrite Hf. replace (p + S q * n - n)%nat with (p + q * n)%nat by lia.
      apply IH.
Qed.

Lemma nth_error_range a b q :
  (q < Z.to_nat (b - a))%nat -> nth_error (range a b) q = Some (a + Z.of_nat q).
Proof.
  intros H. unfold range. rewrite nth_error_map.
  rewrite nth_error_seq. destruct (Nat.ltb_spec q (Z.to_nat (b - a))); [|lia].
  reflexivity.
Qed.

(** The cell [(i, j, k)] stands in the grid at the index by which
    [__getitem__] looks it up. *)
Lemma grid_nth nx ny nz i j k :
  0 <= i < nx -> 0 <= j < ny -> 0 <= k < nz ->
  nth_error (grid nx ny nz) (Z.to_nat (i + nx * (j + ny * k)))
  = Some (i, j, k).
Proof.
  intros Hi Hj Hk.
  assert (E : Z.to_nat (i + nx * (j + ny * k))
              = ((Z.to_nat i + Z.to_nat j * Z.to_nat nx)
                 + Z.to_nat k * (Z.to_nat ny * Z.to_nat nx))%nat).
  { assert (P1 : 0 <= ny * k) by (apply Z.mul_nonneg_nonneg; lia).
    assert (P2 : 0 <= nx * (j + ny * k))
      by (apply Z.mul_nonneg_nonneg; lia).
    rewrite Z2Nat.inj_add, Z2Nat.inj_mul, Z2Nat.inj_add, Z2Nat.inj_mul
      by lia.
    lia. }
  rewrite E. unfold grid.
  rewrite (nth_error_flat_map_const _ (Z.to_nat ny * Z.to_nat nx)).
  - rewrite nth_error_range by lia. rewrite Z.add_0_l, Z2Nat.id by lia.
    rewrite (nth_error_flat_map_const _ (Z.to_nat nx)).
    + rewrite nth_error_range by lia. rewrite Z.add_0_l, Z2Nat.id by lia.
      rewrite nth_error_map, nth_error_range by lia.
      rewrite Z.add_0_l, Z2Nat.id by lia. reflexivity.
    + intros j'. now rewrite length_map, length_range, Z.sub_0_r.
    + lia.
  - intros k'. rewrite (length_flat_map_const _ _ (Z.to_nat nx)).
    + now rewrite length_range, Z.sub_0_r.
    + intros j'. now rewrite length_map, length_range, Z.sub_0_r.
  - nia.
Qed.

Lemma mapM_nth {A B} (f : A -> outcome B) l bs p a :
  mapM f l = Ok bs -> nth_error l p = Some a ->
  exists b, nth_error bs p = Some b /\ f a = Ok b.
Proof.
  revert bs p. induction l as [|a' l IH]; intros bs p H N;
    [destruct p; discriminate|].
  cbn [mapM] in H. apply bind_ok in H as (b & Hb & H).
  apply bind_ok in H as (bs' & Hbs & H). injection H as <-.
  destruct p as [|p]; cbn [nth_error] in *.
  - injection N as <-. eauto.
  - exact (IH bs' p Hbs N).
Qed.

Lemma all2_nth {A B} (g : A -> B -> bool) l1 l2 p a b :
  all2 g l1 l2 = true -> nth_error l1 p = Some a -> nth_error l2 p = Some b ->
  g a b = true.
Proof.
  revert l1 p. induction l2 as [|b' l2 IH]; intros l1 p H N1 N2;
    [destruct p; discriminate|].
  destruct l1 as [|a' l1]; cbn [all2] in H; [discriminate|].
  apply andb_true_iff in H as [H1 H2].
  destruct p as [|p]; cbn [nth_error] in *.
  - injection N1 as <-. injection N2 as <-. exact H1.
  - exact (IH l1 p H2 N1 N2).
Qed.

End GridCells.

Section BuiltFor.

Variable triangles : list Triangle.t.
Variables max_triangles min_width : Z.

Lemma descend_snoc path key : forall nd base width,
  descend (path ++ [key]) nd base width
  = bind (descend path nd base width)
         (fun '(nd', base', width') => descend [key] nd' base' width').
Proof.
  induction path as [|k path IH]; intros nd base width; [reflexivity|].
  cbn [app descend].
  destruct (Node_getitem nd k) as [child| |]; cbn [bind]; try reflexivity.
  destruct (is_leaf nd); [apply IH|].
  destruct (halve width) as [half_width| |]; cbn [bind]; try reflexivity.
  apply IH.
Qed.

(** One more iteration: the node that [__getitem__] returns from a placed
    node is placed, one octant further down the path. *)
Lemma placed_step built steps i j k top child :
  placed built steps (i / 2, j / 2, k / 2) top ->
  Octree.triangles built = triangles ->
  Node_getitem top (i mod 2, j mod 2, k mod 2) = Ok child ->
  placed built (S steps) (i, j, k) child.
Proof.
  unfold placed. cbn [origin].
  destruct (origin steps (i / 2, j / 2, k / 2)) as [key0 path].
  intros (I & top0 & corner & base & width & G & C & D & L) T N.
  split; [exact I|]. rewrite T in *.
  exists top0, corner. rewrite descend_snoc, D. cbn [bind descend].
  rewrite N. cbn [bind].
  destruct top as [indices|children]; cbn [is_leaf].
  - cbn [Node_getitem] in N. injection N as <-.
    exists base, width. repeat split; assumption.
  - cbn [Node_getitem] in N. apply getitem_ok in N.
    cbn [leaves_overlap] in L.
    destruct (halve width) as [half_width| |]; try discriminate.
    cbn [bind].
    exists (Octree.octant_base base half_width (i mod 2, j mod 2, k mod 2)),
      (Float half_width).
    repeat split; try assumption.
    apply (all2_nth _ _ _ _ _ _ L) with (2 := N).
    pose proof (Z.mod_pos_bound i 2 ltac:(lia)).
    pose proof (Z.mod_pos_bound j 2 ltac:(lia)).
    pose proof (Z.mod_pos_bound k 2 ltac:(lia)).
    apply grid_nth; lia.
Qed.

Lemma all_placed_build log fuel built :
  Octree.build log fuel triangles max_triangles min_width = Ok built ->
  all_placed built 0 built.
Proof.
  intros H [[i j] k] Hk.
  pose proof H as H'.
  apply build_ok in H' as (base & ex & ey & ez & children & _ & E & Hc).
  cbv zeta in E, Hc.
  set (bw := Z.min (2 ^ ex) (Z.min (2 ^ ey) (2 ^ ez))) in *.
  set (nx := 2 ^ ex / bw) in *. set (ny := 2 ^ ey / bw) in *.
  set (nz := 2 ^ ez / bw) in *.
  rewrite E in Hk |- *.
  cbn [Octree.nx Octree.ny Octree.nz] in Hk.
  pose proof Hk as R. apply grid_In in R.
  destruct (mapM_nth _ _ _ _ _ Hc
              (grid_nth nx ny nz i j k (proj1 R) (proj1 (proj2 R))
                 (proj2 (proj2 R)))) as (nd & Hn & Hf).
  apply bind_ok in Hf as (bx & Hbx & Hf).
  apply bind_ok in Hf as (by_ & Hby & Hf).
  apply bind_ok in Hf as (bz & Hbz & Hf).
  assert (G : Octree.getitem_grid
                (Octree.mk triangles max_triangles min_width base
                   (2 ^ ex) (2 ^ ey) (2 ^ ez) bw nx ny nz children)
                (i, j, k) = Ok nd).
  { unfold Octree.getitem_grid, getitem.
    cbn [Octree.children Octree.nx Octree.ny]. now rewrite Hn. }
  exists nd. split; [exact G|].
  unfold placed. cbn [origin Octree.nx Octree.ny Octree.nz].
  split; [exact Hk|].
  exists nd, (Vector.add base (Vector.mk bx by_ bz)),
    (Vector.add base (Vector.mk bx by_ bz)), (Int bw).
  split; [exact G|]. split.
  { unfold cell_base. cbn [Octree.base_width Octree.base].
    rewrite Hbx, Hby, Hbz. reflexivity. }
  split; [reflexivity|].
  cbn [Octree.triangles].
  exact (node_leaves_overlap _ _ _ _ _ _ _ _ Hf).
Qed.

Lemma all_placed_step built steps o o' :
  Octree.triangles built = triangles ->
  all_placed built steps o -> Octree.flatten_step o = Ok o' ->
  all_placed built (S steps) o'.
Proof.
  intros T P H. unfold Octree.flatten_step in H.
  apply bind_ok in H as (children' & Hc & H). injection H as <-.
  intros [[i j] k] Hk.
  cbn [Octree.nx Octree.ny Octree.nz] in Hk.
  pose proof Hk as R. apply grid_In in R.
  rewrite (Z.mul_comm 2 (Octree.nx o)), (Z.mul_comm 2 (Octree.ny o)),
    (Z.mul_comm 2 (Octree.nz o)) in Hc.
  destruct (mapM_nth _ _ _ _ _ Hc
              (grid_nth _ _ _ i j k (proj1 R) (proj1 (proj2 R))
                 (proj2 (proj2 R)))) as (child & Hn & Hf).
  apply bind_ok in Hf as (top & Ht & Hf).
  exists child. split.
  { unfold Octree.getitem_grid, getitem.
    cbn [Octree.children Octree.nx Octree.ny]. now rewrite Hn. }
  destruct (P (i / 2, j / 2, k / 2)) as (top' & Ht' & Pt).
  { apply grid_In.
    repeat split; try (apply Z.div_pos; lia);
      apply Z.div_lt_upper_bound; lia. }
  assert (top' = top) by congruence. subst top'.
  exact (placed_step built steps i j k top child Pt T Hf).
Qed.

Lemma all_placed_flatten built fuel : forall steps o o',
  Octree.triangles built = triangles ->
  all_placed built steps o ->
  Octree.nx o = Octree.nx built * 2 ^ Z.of_nat steps ->
  Octree.ny o = Octree.ny built * 2 ^ Z.of_nat steps ->
  Octree.nz o = Octree.nz built * 2 ^ Z.of_nat steps ->
  Octree.flatten fuel o = Ok o' ->
  exists steps',
    all_placed built steps' o' /\
    Octree.nx o' = Octree.nx built * 2 ^ Z.of_nat steps' /\
    Octree.ny o' = Octree.ny built * 2 ^ Z.of_nat steps' /\
    Octree.nz o' = Octree.nz built * 2 ^ Z.of_nat steps'.
Proof.
  induction fuel as [|fuel IH]; intros steps o o' T P Nx Ny Nz H;
    cbn [Octree.flatten] in H; [discriminate|].
  apply bind_ok in H as (again & _ & H). destruct again.
  - apply bind_ok in H as (o1 & H1 & H).
    apply (IH (S steps) o1 o' T); [exact (all_placed_step _ _ _ _ T P H1)| | | |exact H].
    all: unfold Octree.flatten_step in H1.
    all: apply bind_ok in H1 as (children' & _ & H1); injection H1 as <-.
    all: cbn [Octree.nx Octree.ny Octree.nz].
    all: rewrite Nat2Z.inj_succ, Z.pow_succ_r by lia.
    all: rewrite ?Nx, ?Ny, ?Nz; ring.
  - injection H as <-. exists steps. repeat split; assumption.
Qed.

End BuiltFor.

(** The cell of the grid as built from which a cell comes. *)
Lemma origin_cell steps : forall i j k,
  fst (origin steps (i, j, k))
  = (i / 2 ^ Z.of_nat steps, j / 2 ^ Z.of_nat steps, k / 2 ^ Z.of_nat steps).
Proof.
  induction steps as [|steps IH]; intros i j k.
  - cbn [origin fst Z.of_nat]. now rewrite Z.pow_0_r, !Z.div_1_r.
  - cbn [origin]. specialize (IH (i / 2) (j / 2) (k / 2)).
    destruct (origin steps (i / 2, j / 2, k / 2)) as [key0 path].
    cbn [fst] in *. rewrite IH, Nat2Z.inj_succ, Z.pow_succ_r by lia.
    assert (P : 0 < 2 ^ Z.of_nat steps) by (apply Z.pow_pos_nonneg; lia).
    now rewrite !Z.div_div by lia.
Qed.

(** C6 (as amended): in the octree as [node] builds it, before the
    top-level flattening, every leaf holds only triangles that overlap the
    cube the leaf has by its position in the top-level grid and its depth.
    Flattening tests nothing again.  After [steps] iterations the grid has
    [2^steps] times the cells in each direction, and the node at the cell
    [(i, j, k)] is what [Node.__getitem__] returns from the top-level node
    of the octree as built at the cell [(i, j, k) // 2^steps], along the
    octants that the loop took: every leaf in it holds only triangles that
    overlap the cube the leaf was built for, which for a leaf reused as its
    own child is the larger cube it had before, not the cell it has now. *)
Theorem leaves_overlap_the_cube_they_were_built_for
    log fuel triangles max_triangles min_width :
  (forall o,
     Octree.build log fuel triangles max_triangles min_width = Ok o ->
     octree_leaves_overlap o = true) /\
  (forall o,
     Octree.init log fuel triangles max_triangles min_width = Ok o ->
     exists built steps,
       Octree.build log fuel triangles max_triangles min_width = Ok built /\
       Octree.nx o = Octree.nx built * 2 ^ Z.of_nat steps /\
       Octree.ny o = Octree.ny built * 2 ^ Z.of_nat steps /\
       Octree.nz o = Octree.nz built * 2 ^ Z.of_nat steps /\
       forall key,
         In key (grid (Octree.nx o) (Octree.ny o) (Octree.nz o)) ->
         exists nd,
           Octree.getitem_grid o key = Ok nd /\ placed built steps key nd).
Proof.
  split.
  - intros o H. exact (build_leaves_overlap _ _ _ _ _ _ H).
  - intros o H. unfold Octree.init in H.
    apply bind_ok in H as (built & Hb & H).
    assert (T : Octree.triangles built = triangles).
    { pose proof Hb as Hb'.
      apply build_ok in Hb' as (? & ? & ? & ? & ? & _ & -> & _).
      reflexivity. }
    destruct (all_placed_flatten triangles built fuel 0 built o T
                (all_placed_build _ _ _ _ _ _ Hb)) as (steps & P & Nx & Ny & Nz);
      try (cbn [Z.of_nat]; rewrite Z.pow_0_r; lia); [exact H|].
    exists built, steps. repeat (split; [assumption|]). exact P.
Qed.
